(** * cp2k_tools.parser.xyz: the multi-frame XYZ parser

    A shallow embedding of [src/cp2k_tools/parser/xyz.py].  The parser is two
    verbose, multi-line regular expressions ([FRAME_MATCH_REGEX] and
    [POS_MATCH_REGEX]) driven by [finditer], a counting iterator
    ([BlockIterator]) that validates the declared number of atoms while it is
    consumed, and the eager wrapper [XYZParser.parse].

    Text is a list of characters, a character being its code point (for a
    [str]) or its value (for a [bytes] object), both as [N]. *)

From Stdlib Require Import String Ascii NArith ZArith QArith Bool Lia List Sorted.
Import ListNotations.

Close Scope Q_scope.
Open Scope string_scope.
Open Scope nat_scope.
Open Scope list_scope.

(** ** Characters and Python text values *)

Definition char := N.

(** A Python text value is a [str] or a [bytes] object; the two never compare
    equal in Python 3, whatever they hold. *)
Inductive pytext :=
| PyStr (s : list char)
| PyBytes (b : list char).

(** What the caller hands to the parser: a [str], a [bytes] object, or an open
    file whose contents [as_byteorstringlike] maps into memory. *)
Inductive pyinput :=
| InStr (s : list char)
| InBytes (b : list char)
| InFile (contents : list char).

(** The part of the interpreter's Unicode database the [re] module and
    [float] consult for characters outside ASCII: the decimal value of a
    character of category Nd, and the White_Space property. *)
Record unicode_db := {
  udb_decimal : N -> option N;
  udb_space : N -> bool
}.

(** A compiled pattern is a [str] pattern (Unicode classes) or a [bytes]
    pattern (ASCII classes). *)
Inductive flavour :=
| StrPattern (u : unicode_db)
| BytesPattern.

Definition in_range (lo hi c : N) : bool := ((lo <=? c) && (c <=? hi))%N.

Definition ascii_digit (c : char) : bool := in_range 48 57 c.

(** [\s]: for [bytes] the six ASCII white-space characters; for [str] also
    the four information separators [0x1c]-[0x1f] and the non-ASCII
    white-space characters. *)
Definition ascii_space (c : char) : bool := in_range 9 13 c || (c =? 32)%N.

Definition cls_space (fl : flavour) (c : char) : bool :=
  match fl with
  | BytesPattern => ascii_space c
  | StrPattern u =>
      if (c <? 128)%N then ascii_space c || in_range 28 31 c else udb_space u c
  end.

(** The decimal value of a digit as [\d] and [float] see it. *)
Definition digit_value (fl : flavour) (c : char) : option N :=
  if ascii_digit c then Some (c - 48)%N
  else match fl with
       | BytesPattern => None
       | StrPattern u => if (c <? 128)%N then None else udb_decimal u c
       end.

(** [\d] *)
Definition cls_digit (fl : flavour) (c : char) : bool :=
  match digit_value fl c with Some _ => true | None => false end.

(** The literal classes of the two patterns.  Under [re.VERBOSE] white space
    inside a character class is kept, so [[E | e]] holds a space and a bar. *)
Definition cls_blank (c : char) : bool := (c =? 32)%N || (c =? 9)%N.          (* [ \t] *)
Definition cls_newline (c : char) : bool := (c =? 10)%N.                       (* [\n] *)
Definition cls_any (c : char) : bool := negb (c =? 10)%N.                      (* .    *)
Definition cls_alpha (c : char) : bool := in_range 65 90 c || in_range 97 122 c. (* [A-Za-z] *)
Definition cls_alnum (c : char) : bool := cls_alpha c || ascii_digit c.        (* [A-Za-z0-9] *)
Definition cls_dot (c : char) : bool := (c =? 46)%N.                           (* [\.] *)
Definition cls_hash (c : char) : bool := (c =? 35)%N.                          (* \#   *)
Definition cls_pos_sign (c : char) : bool :=                                   (* [\-|\+] *)
  (c =? 45)%N || (c =? 124)%N || (c =? 43)%N.
Definition cls_exp_mark (c : char) : bool :=                                   (* [E | e] *)
  (c =? 69)%N || (c =? 32)%N || (c =? 124)%N || (c =? 101)%N.
Definition cls_exp_sign (c : char) : bool :=                                   (* [+|-] *)
  (c =? 43)%N || (c =? 124)%N || (c =? 45)%N.
Definition cls_frame_sign (c : char) : bool :=                                 (* [\- | \+ ] *)
  (c =? 45)%N || (c =? 32)%N || (c =? 124)%N || (c =? 43)%N.

(** ** Regular expressions and the backtracking matcher of [re] *)

Inductive regex :=
| Eps
| Chr (p : char -> bool)
| Bol                                  (* ^ under re.MULTILINE *)
| Seq (a b : regex)
| Alt (a b : regex)
| Star (a : regex)                     (* greedy *)
| Grp (name : string) (a : regex).     (* (?P<name>...) *)

Definition Plus (a : regex) : regex := Seq a (Star a).
Definition Opt (a : regex) : regex := Alt a Eps.
Definition Rep3 (a : regex) : regex := Seq a (Seq a a).

Declare Scope regex_scope.
Delimit Scope regex_scope with re.
Bind Scope regex_scope with regex.
Infix ";;" := Seq (at level 61, right associativity) : regex_scope.
Infix "<|>" := Alt (at level 62, right associativity) : regex_scope.

(** The state of a match attempt: the text already passed (nearest character
    first), the text ahead, and the named groups closed so far. *)
Record mstate := {
  before : list char;
  rest : list char;
  groups : list (string * list char)
}.

Definition advance (st : mstate) (c : char) (t : list char) : mstate :=
  {| before := c :: before st; rest := t; groups := groups st |}.

(** [^] with [re.MULTILINE]: at the start of the text or just after a
    newline. *)
Definition at_line_start (st : mstate) : bool :=
  match before st with
  | [] => true
  | c :: _ => (c =? 10)%N
  end.

(** The text a group spanned, read back from the two states around it. *)
Definition spanned (st st' : mstate) : list char :=
  rev (firstn (length (before st') - length (before st)) (before st')).

Definition close_group (name : string) (st st' : mstate) : mstate :=
  {| before := before st'; rest := rest st';
     groups := (name, spanned st st') :: groups st' |}.

(** A greedy repetition of [body]: another round first, the rest of the
    pattern when no further round leads to a match.  A round that consumes
    nothing is not taken.  The text left bounds the number of rounds. *)
Fixpoint star_loop (body : mstate -> (mstate -> option mstate) -> option mstate)
    (k : mstate -> option mstate) (fuel : nat) (st : mstate) {struct fuel}
  : option mstate :=
  match fuel with
  | O => k st
  | S n =>
      match body st (fun st' => if length (rest st') <? length (rest st)
                                then star_loop body k n st' else None) with
      | Some x => Some x
      | None => k st
      end
  end.

(** Depth-first search with the continuation [k] for the rest of the
    pattern: alternatives left to right, repetitions longest first. *)
Fixpoint m (r : regex) (st : mstate) (k : mstate -> option mstate) {struct r}
  : option mstate :=
  match r with
  | Eps => k st
  | Chr p =>
      match rest st with
      | c :: t => if p c then k (advance st c t) else None
      | [] => None
      end
  | Bol => if at_line_start st then k st else None
  | Seq a b => m a st (fun st' => m b st' k)
  | Alt a b =>
      match m a st k with
      | Some x => Some x
      | None => m b st k
      end
  | Star a => star_loop (m a) k (length (rest st)) st
  | Grp name a => m a st (fun st' => k (close_group name st st'))
  end.

(** A match object: the span in the searched text and the named groups. *)
Record pymatch := {
  m_start : nat;
  m_end : nat;
  m_groups : list (string * list char)
}.

Definition match_of (st st' : mstate) : pymatch :=
  {| m_start := length (before st);
     m_end := length (before st');
     m_groups := groups st' |}.

Definition clear_groups (st : mstate) : mstate :=
  {| before := before st; rest := rest st; groups := [] |}.

(** [pattern.finditer]: the non-overlapping matches, left to right.  Where no
    match starts, the scan moves on by one character and says nothing. *)
Fixpoint finditer_from (r : regex) (fuel : nat) (st : mstate) : list pymatch :=
  match fuel with
  | O => []
  | S n =>
      match m r st Some with
      | Some st' =>
          match_of st st' ::
          (if length (rest st') <? length (rest st)
           then finditer_from r n (clear_groups st')
           else match rest st' with
                | [] => []
                | c :: t => finditer_from r n (advance (clear_groups st') c t)
                end)
      | None =>
          match rest st with
          | [] => []
          | c :: t => finditer_from r n (advance st c t)
          end
      end
  end.

Definition start_state (s : list char) : mstate :=
  {| before := []; rest := s; groups := [] |}.

Definition finditer (r : regex) (s : list char) : list pymatch :=
  finditer_from r (S (length s)) (start_state s).

(** [match.group(name)] *)
Fixpoint assoc (name : string) (l : list (string * list char)) : list char :=
  match l with
  | [] => []
  | (n, v) :: l' => if String.eqb n name then v else assoc name l'
  end.

Definition group (mt : pymatch) (name : string) : list char :=
  assoc name (m_groups mt).

(** ** The two patterns of the source *)

Section Patterns.
Variable fl : flavour.

Let s_ := Chr (cls_space fl).
Let d_ := Chr (cls_digit fl).

(** One coordinate of [POS_MATCH_REGEX]:
    [[\-|\+]? ( \d*[\.]\d+ | \d+[\.]?\d* ) ([E | e][+|-]?\d+)?] *)
Definition pos_number : regex :=
  (Opt (Chr cls_pos_sign) ;;
   ((Star d_ ;; Chr cls_dot ;; Plus d_) <|> (Plus d_ ;; Opt (Chr cls_dot) ;; Star d_)) ;;
   Opt (Chr cls_exp_mark ;; Opt (Chr cls_exp_sign) ;; Plus d_))%re.

Definition POS_MATCH_REGEX : regex :=
  (Bol ;;
   Star (Chr cls_blank) ;;
   Grp "sym" (Plus (Chr cls_alpha) ;; Star (Chr cls_alnum)) ;; Plus s_ ;;
   Grp "x" pos_number ;; Plus (Chr cls_blank) ;;
   Grp "y" pos_number ;; Plus (Chr cls_blank) ;;
   Grp "z" pos_number)%re.

(** The group repeated three times in a position line of the frame pattern.
    The bar binds loosest, so the alternatives are "white space, sign,
    [\d*[\.]\d+]" and "[\d+[\.]?\d*] with an optional exponent". *)
Definition frame_number : regex :=
  ((Plus s_ ;; Opt (Chr cls_frame_sign) ;; Star d_ ;; Chr cls_dot ;; Plus d_)
   <|> ((Plus d_ ;; Opt (Chr cls_dot) ;; Star d_) ;;
        Opt (Chr cls_exp_mark ;; Opt (Chr cls_exp_sign) ;; Plus d_)))%re.

(** One line of the positions block, with its line break. *)
Definition frame_line : regex :=
  (((Star s_ ;;
     ((Plus (Chr cls_alpha) ;; Star (Chr cls_alnum) ;; Rep3 frame_number)
      <|> Chr cls_hash) ;;
     Star (Chr cls_any))
    <|> Star s_) ;;
   Chr cls_newline)%re.

Definition FRAME_MATCH_REGEX : regex :=
  (Bol ;; Star (Chr cls_blank) ;; Grp "natoms" (Plus (Chr ascii_digit)) ;;
   Star (Chr cls_blank) ;; Chr cls_newline ;;
   Grp "comment" (Star (Chr cls_any)) ;; Chr cls_newline ;;
   Grp "positions" (Plus frame_line))%re.

End Patterns.

(** ** Python values and built-ins the parser calls *)

Inductive exn :=
| TypeError_smaller (catom natoms : N)   (* "Number of atom entries ({}) is smaller than ..." *)
| TypeError_larger (catom natoms : N)    (* "Number of atom entries ({}) is larger than ..." *)
| ValueError (token : pytext)            (* float() could not convert the token *)
| UnicodeDecodeError.                    (* bytes.decode('utf8') *)

(** What a call of [__next__] does: return a value, or raise. *)
Inductive outcome (A : Type) :=
| Return (a : A)
| StopIteration
| Raise (e : exn).
Arguments Return {A} a.
Arguments StopIteration {A}.
Arguments Raise {A} e.

Definition text_chars (t : pytext) : list char :=
  match t with PyStr s => s | PyBytes b => b end.

Definition is_str (t : pytext) : bool :=
  match t with PyStr _ => true | PyBytes _ => false end.

Definition retag (like : pytext) (s : list char) : pytext :=
  match like with PyStr _ => PyStr s | PyBytes _ => PyBytes s end.

(** [int(text)] on a run of ASCII digits, which is all the [natoms] group
    can hold. *)
Definition py_int (t : pytext) : N :=
  fold_left (fun acc c => (10 * acc + (c - 48))%N) (text_chars t) 0%N.

(** Strict UTF-8, as [bytes.decode('utf8')] reads it. *)
Definition cont (b : N) : bool := in_range 128 191 b.

Fixpoint utf8_decode (b : list N) : option (list N) :=
  match b with
  | [] => Some []
  | b0 :: t0 =>
      if (b0 <? 128)%N then option_map (cons b0) (utf8_decode t0)
      else match t0 with
      | [] => None
      | b1 :: t1 =>
          if in_range 194 223 b0 then
            if cont b1
            then option_map (cons ((b0 - 192) * 64 + (b1 - 128))%N) (utf8_decode t1)
            else None
          else match t1 with
          | [] => None
          | b2 :: t2 =>
              if in_range 224 239 b0 then
                if (if (b0 =? 224)%N then in_range 160 191 b1
                    else if (b0 =? 237)%N then in_range 128 159 b1
                    else cont b1) && cont b2
                then option_map
                       (cons ((b0 - 224) * 4096 + (b1 - 128) * 64 + (b2 - 128))%N)
                       (utf8_decode t2)
                else None
              else match t2 with
              | [] => None
              | b3 :: t3 =>
                  if in_range 240 244 b0 then
                    if (if (b0 =? 240)%N then in_range 144 191 b1
                        else if (b0 =? 244)%N then in_range 128 143 b1
                        else cont b1) && cont b2 && cont b3
                    then option_map
                           (cons ((b0 - 240) * 262144 + (b1 - 128) * 4096
                                  + (b2 - 128) * 64 + (b3 - 128))%N)
                           (utf8_decode t3)
                    else None
                  else None
              end
          end
      end
  end.

(** [str.encode('utf8')] of a text without lone surrogates. *)
Definition utf8_encode_char (c : N) : list N :=
  if (c <? 128)%N then [c]
  else if (c <? 2048)%N then [192 + c / 64; 128 + c mod 64]%N
  else if (c <? 65536)%N then [224 + c / 4096; 128 + (c / 64) mod 64; 128 + c mod 64]%N
  else [240 + c / 262144; 128 + (c / 4096) mod 64; 128 + (c / 64) mod 64; 128 + c mod 64]%N.

Definition utf8_encode (s : list N) : list N := flat_map utf8_encode_char s.

Section Runtime.
(** The Unicode database of the running interpreter. *)
Variable udb : unicode_db.

Definition flavour_of (t : pytext) : flavour :=
  match t with PyStr _ => StrPattern udb | PyBytes _ => BytesPattern end.

(** A leading run of decimal digits: its value, its length, what follows. *)
Fixpoint take_digits (fl : flavour) (s : list char) (acc : N) (n : nat)
  : N * nat * list char :=
  match s with
  | [] => (acc, n, [])
  | c :: t =>
      match digit_value fl c with
      | Some d => take_digits fl t (10 * acc + d)%N (S n)
      | None => (acc, n, s)
      end
  end.

Definition take_sign (s : list char) : bool * list char :=
  match s with
  | c :: t => if (c =? 45)%N then (true, t)
              else if (c =? 43)%N then (false, t) else (false, s)
  | [] => (false, s)
  end.

(** The number a decimal literal denotes: [mant * 10 ^ e], in lowest terms. *)
Definition decimal (neg : bool) (mant : N) (e : Z) : Q :=
  let mz := if neg then (- Z.of_N mant)%Z else Z.of_N mant in
  Qred (match e with
        | Zneg p => Qmake mz (Pos.pow 10 p)
        | _ => Qmake (mz * 10 ^ e)%Z 1
        end).

(** [float(token)] on the tokens the coordinate groups can hold: an optional
    [+] or [-], digits with an optional point (or a point and digits), an
    optional exponent [e] or [E] with optional sign and digits; anything else
    raises [ValueError].  The value is the real number the literal denotes;
    Python rounds it to the nearest binary64, which is not modelled. *)
Definition py_float (tok : pytext) : exn + Q :=
  let fl := flavour_of tok in
  let '(neg, s0) := take_sign (text_chars tok) in
  let '(ip, ni, s1) := take_digits fl s0 0%N 0 in
  let '(mant, nf, s2) :=
    match s1 with
    | c :: t => if (c =? 46)%N then take_digits fl t ip 0 else (ip, 0, s1)
    | [] => (ip, 0, s1)
    end in
  if (ni + nf =? 0)%nat then inl (ValueError tok) else
  match s2 with
  | [] => inr (decimal neg mant (- Z.of_nat nf))
  | c :: t =>
      if (c =? 101)%N || (c =? 69)%N then
        let '(eneg, s3) := take_sign t in
        match take_digits fl s3 0%N 0 with
        | (ev, S _, []) =>
            inr (decimal neg mant
                   ((if eneg then - Z.of_N ev else Z.of_N ev) - Z.of_nat nf))
        | _ => inl (ValueError tok)
        end
      else inl (ValueError tok)
  end.

(** ** Match objects over Python text *)

(** A match object remembers what kind of text it searched: its groups come
    back as [str] from a [str], as [bytes] from [bytes]. *)
Record match_object := {
  mo_text : pytext;
  mo_match : pymatch
}.

Definition mo_group (mo : match_object) (name : string) : pytext :=
  retag (mo_text mo) (group (mo_match mo) name).

(** [re.compile(PATTERN, re.MULTILINE | re.VERBOSE).finditer(content)], the
    pattern compiled as [str] or, encoded, as [bytes] to suit the content. *)
Definition py_finditer (pattern : flavour -> regex) (content : pytext)
  : list match_object :=
  map (fun mt => {| mo_text := content; mo_match := mt |})
      (finditer (pattern (flavour_of content)) (text_chars content)).

(** ** as_byteorstringlike *)

Definition as_byteorstringlike (fh_or_content : pyinput) : pytext * bool :=
  match fh_or_content with
  | InStr s => (PyStr s, true)
  | InBytes b => (PyBytes b, false)
  | InFile contents => (PyBytes contents, false)
  end.

(** ** BlockIterator *)

Definition atom : Type := pytext * (Q * Q * Q).

Record BlockIterator := {
  _it : list match_object;      (* what is left of pos_match.finditer(...) *)
  _natoms : N;
  _catom : N
}.

Definition __init__ (it : list match_object) (natoms : N) : BlockIterator :=
  {| _it := it; _natoms := natoms; _catom := 0 |}.

(** The entry built in the [return] statement; the three [float] calls run
    in order and the first to fail raises. *)
Definition entry (mo : match_object) : exn + atom :=
  match py_float (mo_group mo "x") with
  | inl e => inl e
  | inr x =>
      match py_float (mo_group mo "y") with
      | inl e => inl e
      | inr y =>
          match py_float (mo_group mo "z") with
          | inl e => inl e
          | inr z => inr (mo_group mo "sym", (x, y, z))
          end
      end
  end.

Definition __next__ (self : BlockIterator) : BlockIterator * outcome atom :=
  match _it self with
  | [] =>
      if (_catom self =? _natoms self)%N
      then (self, StopIteration)
      else (self, Raise (TypeError_smaller (_catom self) (_natoms self)))
  | mo :: it' =>
      let self' := {| _it := it'; _natoms := _natoms self;
                      _catom := (_catom self + 1)%N |} in
      if (_natoms self' <? _catom self')%N
      then (self', Raise (TypeError_larger (_catom self') (_natoms self')))
      else match entry mo with
           | inl e => (self', Raise e)
           | inr a => (self', Return a)
           end
  end.

(** [list(atomiter)]: call [__next__] until it stops or raises.  [None] only
    if the fuel ran out, which [py_list] never lets happen. *)
Fixpoint drain (fuel : nat) (it : BlockIterator) : option (exn + list atom) :=
  match fuel with
  | O => None
  | S n =>
      match __next__ it with
      | (it', Return a) =>
          match drain n it' with
          | Some (inr l) => Some (inr (a :: l))
          | other => other
          end
      | (_, StopIteration) => Some (inr [])
      | (_, Raise e) => Some (inl e)
      end
  end.

Definition py_list (it : BlockIterator) : option (exn + list atom) :=
  drain (S (length (_it it))) it.

(** ** XYZParser *)

(** What [parse_iter] yields for a frame. *)
Definition frame : Type := N * pytext * BlockIterator.

(** The body of the [for block in frame_match.finditer(content)] loop. *)
Definition frame_of_block (is_string : bool) (block : match_object) : exn + frame :=
  let natoms := py_int (mo_group block "natoms") in
  let atomiter :=
    __init__
      (py_finditer POS_MATCH_REGEX (mo_group block "positions")) natoms in
  if is_string then inr (natoms, mo_group block "comment", atomiter)
  else match utf8_decode (text_chars (mo_group block "comment")) with
       | Some s => inr (natoms, PyStr s, atomiter)
       | None => inl UnicodeDecodeError
       end.

(** A generator: the values it yields, and the exception that ended it if
    one did. *)
Fixpoint generate (is_string : bool) (blocks : list match_object)
  : list frame * option exn :=
  match blocks with
  | [] => ([], None)
  | b :: bs =>
      match frame_of_block is_string b with
      | inl e => ([], Some e)
      | inr f => let '(fs, e) := generate is_string bs in (f :: fs, e)
      end
  end.

Definition parse_iter (fh_or_string : pyinput) : list frame * option exn :=
  let '(content, is_string) := as_byteorstringlike fh_or_string in
  generate is_string (py_finditer FRAME_MATCH_REGEX content).

Record frame_record := {
  natoms : N;
  comment : pytext;
  atoms : list atom
}.

(** The list comprehension of [parse]: frames are taken from the generator
    one at a time, each [atomiter] drained before the next frame is asked
    for; the first exception ends the call. *)
Fixpoint comprehend (frames : list frame) (ending : option exn)
  : option (exn + list frame_record) :=
  match frames with
  | [] => match ending with
          | Some e => Some (inl e)
          | None => Some (inr [])
          end
  | (n, c, atomiter) :: fs =>
      match py_list atomiter with
      | None => None
      | Some (inl e) => Some (inl e)
      | Some (inr l) =>
          match comprehend fs ending with
          | Some (inr rs) => Some (inr ({| natoms := n; comment := c; atoms := l |} :: rs))
          | other => other
          end
      end
  end.

Definition parse (fh_or_string : pyinput) : option (exn + list frame_record) :=
  let '(frames, ending) := parse_iter fh_or_string in
  comprehend frames ending.

End Runtime.

(** ** Writing text *)

Definition codes (s : string) : list char :=
  map N_of_ascii (list_ascii_of_string s).

(** Lines, each closed by a newline. *)
Definition unlines (ls : list string) : list char :=
  flat_map (fun l => codes l ++ [10%N]) ls.

(** ** Callers of the iterator *)

Definition frame_natoms (f : frame) : N := fst (fst f).
Definition frame_comment (f : frame) : pytext := snd (fst f).
Definition frame_atoms (f : frame) : BlockIterator := snd f.

(** A caller that calls [next(atomiter)] [k] times, whatever comes back:
    the iterator afterwards and what each call did. *)
Fixpoint pull (udb : unicode_db) (k : nat) (it : BlockIterator)
  : BlockIterator * list (outcome atom) :=
  match k with
  | O => (it, [])
  | S k' =>
      let '(it1, o) := __next__ udb it in
      let '(it2, os) := pull udb k' it1 in
      (it2, o :: os)
  end.

(** What a call that reaches the [return] statement does with a match. *)
Definition delivered (udb : unicode_db) (mo : match_object) : outcome atom :=
  match entry udb mo with
  | inl e => Raise e
  | inr a => Return a
  end.

Definition converts (udb : unicode_db) (mo : match_object) : Prop :=
  exists a, entry udb mo = inr a.

Definition is_count_mismatch (o : outcome atom) : bool :=
  match o with
  | Raise (TypeError_smaller _ _) | Raise (TypeError_larger _ _) => true
  | _ => false
  end.

(** [list(atomiter)] written by recursion on the matches that are left. *)
Fixpoint drain_spec (udb : unicode_db) (ms : list match_object) (n catom : N)
  : exn + list atom :=
  match ms with
  | [] => if (catom =? n)%N then inr [] else inl (TypeError_smaller catom n)
  | mo :: ms' =>
      if (n <? catom + 1)%N then inl (TypeError_larger (catom + 1) n)
      else match entry udb mo with
           | inl e => inl e
           | inr a =>
               match drain_spec udb ms' n (catom + 1) with
               | inr l => inr (a :: l)
               | inl e => inl e
               end
           end
  end.

(** The state in which a scan of [s] stands at offset [p]. *)
Definition state_at (s : list char) (p : nat) : mstate :=
  {| before := rev (firstn p s); rest := skipn p s; groups := [] |}.

(** The whole text a state belongs to. *)
Definition whole (st : mstate) : list char := rev (before st) ++ rest st.

(** The paths the matcher searches, as a relation: [Matches r st st'] when
    [r] can take the state [st] to [st']. *)
Inductive Matches : regex -> mstate -> mstate -> Prop :=
| M_Eps st : Matches Eps st st
| M_Chr p st c t : rest st = c :: t -> p c = true -> Matches (Chr p) st (advance st c t)
| M_Bol st : at_line_start st = true -> Matches Bol st st
| M_Seq a b st st1 st2 : Matches a st st1 -> Matches b st1 st2 -> Matches (Seq a b) st st2
| M_Alt_l a b st st1 : Matches a st st1 -> Matches (Alt a b) st st1
| M_Alt_r a b st st1 : Matches b st st1 -> Matches (Alt a b) st st1
| M_Star_stop a st : Matches (Star a) st st
| M_Star_more a st st1 st2 :
    Matches a st st1 -> length (rest st1) < length (rest st) ->
    Matches (Star a) st1 st2 -> Matches (Star a) st st2
| M_Grp name a st st1 : Matches a st st1 -> Matches (Grp name a) st (close_group name st st1).

(** A frame whose positions block holds another number of position lines
    than its first line declares, and the exception that tells it. *)
Definition found (f : frame) : nat := length (_it (frame_atoms f)).

Definition mismatched (f : frame) : Prop := N.of_nat (found f) <> frame_natoms f.


(** An interpreter that knows no digit and no white space outside ASCII. *)
Definition ascii_only : unicode_db :=
  {| udb_decimal := fun _ => None; udb_space := fun _ => false |}.

Definition no_frame : frame := (0%N, PyStr [], __init__ [] 0%N).

(** The first frame [parse_iter] yields. *)
Definition first_frame (udb : unicode_db) (inp : pyinput) : frame :=
  nth 0 (fst (parse_iter udb inp)) no_frame.

(** Every position line the frame's block holds converts to an entry. *)
Definition all_convert (udb : unicode_db) (f : frame) : Prop :=
  Forall (converts udb) (_it (frame_atoms f)).

(** The iterator of a frame as [parse_iter] hands it out: nothing counted
    yet, and bound to the frame's declared count. *)
Definition fresh (f : frame) : Prop :=
  frame_atoms f = {| _it := _it (frame_atoms f); _natoms := frame_natoms f; _catom := 0 |}.

(** The record [parse] builds from a frame holds the frame's count and
    comment and one entry per position line. *)
Definition record_of (udb : unicode_db) (f : frame) (r : frame_record) : Prop :=
  natoms r = frame_natoms f /\ comment r = frame_comment f
  /\ Forall2 (fun mo a => entry udb mo = inr a) (_it (frame_atoms f)) (atoms r).

(** Patterns without named groups. *)
Fixpoint groupless (r : regex) : bool :=
  match r with
  | Eps | Chr _ | Bol => true
  | Seq a b | Alt a b => groupless a && groupless b
  | Star a => groupless a
  | Grp _ _ => false
  end.

(** [mt] is what the pattern finds first when tried at offset [m_start mt]
    of [s]. *)
Definition found_at (r : regex) (s : list char) (mt : pymatch) : Prop :=
  m_start mt <= length s /\
  exists st', m r (state_at s (m_start mt)) Some = Some st'
              /\ mt = match_of (state_at s (m_start mt)) st'.

(** The text a match spans. *)
Definition matched_text (s : list char) (mt : pymatch) : list char :=
  firstn (m_end mt - m_start mt) (skipn (m_start mt) s).

(** From [st] to [st'] exactly the text [w] has been consumed. *)
Definition consumed (st st' : mstate) (w : list char) : Prop :=
  before st' = rev w ++ before st /\ rest st = w ++ rest st'.

(** The frame [parse_iter] yields for a block found in a [str]. *)
Definition str_frame (udb : unicode_db) (block : match_object) : frame :=
  let natoms := py_int (mo_group block "natoms") in
  (natoms, mo_group block "comment",
   __init__ (py_finditer udb POS_MATCH_REGEX (mo_group block "positions")) natoms).

(** ** Inputs used below *)

(** Declares two atoms, supplies one. *)
Definition too_few_input : pyinput :=
  InStr (unlines ["2"; "bad"; "C 0.0 0.0 0.0"]).

(** Declares one atom, supplies two. *)
Definition too_many_input : pyinput :=
  InStr (unlines ["1"; "crowded"; "C 1.0 2.0 3.0"; "H 1.0 2.0 3.0"]).


(** One atom with a fourth column after the coordinates. *)
Definition extra_column_text : list char := unlines ["1"; "c"; "C 0.0 0.0 0.0 1.5"].

(** One plain frame. *)
Definition one_atom_text : list char := unlines ["1"; "c"; "C 0.0 0.0 0.0"].

(** A frame whose last position line is not closed by a line break. *)
Definition unterminated_text : list char :=
  unlines ["1"; "c"; "C 0.0 0.0 0.0"] ++ codes "H 1.0 0.0 0.0".

Definition no_match : pymatch := {| m_start := 0; m_end := 0; m_groups := [] |}.


(** A symbol as the position pattern captures it: a letter, then letters
    and digits. *)
Definition symbol_ok (s : list char) : Prop :=
  exists c t, s = c :: t /\ cls_alpha c = true /\ Forall (fun c => cls_alnum c = true) t.

(** A text the coordinate part of the position pattern can span. *)
Definition token (fl : flavour) (w : list char) : Prop :=
  exists st st', Matches (pos_number fl) st st' /\ consumed st st' w.

(** Nothing, or one character of a class. *)
Definition opt_char (p : char -> bool) (w : list char) : Prop :=
  w = [] \/ exists c, w = [c] /\ p c = true.

Definition digits (fl : flavour) (w : list char) : Prop :=
  Forall (fun c => cls_digit fl c = true) w.

(** The texts of the coordinate part of the position pattern, spelled out:
    an optional sign, digits with an optional point and more digits (a digit
    on one side of the point at least), an optional exponent. *)
Definition number_text (fl : flavour) (w : list char) : Prop :=
  exists sg d1 dp ex,
    w = sg ++ d1 ++ dp ++ ex
    /\ opt_char cls_pos_sign sg
    /\ digits fl d1
    /\ (dp = [] \/ exists d2, dp = 46%N :: d2 /\ digits fl d2)
    /\ (d1 <> [] \/ exists d2, dp = 46%N :: d2 /\ d2 <> [])
    /\ (ex = [] \/ exists e sg2 d3, ex = e :: sg2 ++ d3 /\ cls_exp_mark e = true
                                    /\ opt_char cls_exp_sign sg2
                                    /\ digits fl d3 /\ d3 <> []).

(** Free of the two characters that the classes of the pattern hold by
    accident. *)
Definition no_bar_no_blank (w : list char) : Prop :=
  Forall (fun c => c <> 32%N /\ c <> 124%N) w.

(** ** Well-formed input

    The XYZ text the parser is written for, spelled out: frames of a count
    line, a comment line and a block of lines, each line a position, a line
    commented out with [#], or a blank line. *)

(** A coordinate: an optional sign, digits, a point and at least one more
    digit. *)
Record coordinate := {
  c_sign : list char;
  c_int : list char;
  c_frac : list char
}.

Definition coordinate_text (c : coordinate) : list char :=
  c_sign c ++ c_int c ++ 46%N :: c_frac c.

Definition digits_value (ds : list char) : N :=
  fold_left (fun acc c => (10 * acc + (c - 48))%N) ds 0%N.

(** The number a coordinate denotes. *)
Definition coordinate_value (c : coordinate) : Q :=
  decimal (match c_sign c with s :: _ => (s =? 45)%N | [] => false end)
          (digits_value (c_int c ++ c_frac c))
          (- Z.of_nat (length (c_frac c))).

Definition all_in (p : char -> bool) (w : list char) : Prop :=
  Forall (fun c => p c = true) w.

Definition coordinate_ok (c : coordinate) : Prop :=
  (c_sign c = [] \/ c_sign c = [45%N] \/ c_sign c = [43%N])
  /\ all_in ascii_digit (c_int c)
  /\ all_in ascii_digit (c_frac c) /\ c_frac c <> [].

(** A position line: blanks, the symbol, and three coordinates set apart by
    blanks. *)
Record position := {
  p_lead : list char;
  p_sym : list char;
  p_sep1 : list char;
  p_x : coordinate;
  p_sep2 : list char;
  p_y : coordinate;
  p_sep3 : list char;
  p_z : coordinate
}.

Definition position_text (p : position) : list char :=
  p_lead p ++ p_sym p ++ p_sep1 p ++ coordinate_text (p_x p)
  ++ p_sep2 p ++ coordinate_text (p_y p) ++ p_sep3 p ++ coordinate_text (p_z p).

(** One or more blanks or tabs. *)
Definition separator (w : list char) : Prop := all_in cls_blank w /\ w <> [].

Definition position_ok (p : position) : Prop :=
  all_in cls_blank (p_lead p) /\ symbol_ok (p_sym p)
  /\ separator (p_sep1 p) /\ coordinate_ok (p_x p)
  /\ separator (p_sep2 p) /\ coordinate_ok (p_y p)
  /\ separator (p_sep3 p) /\ coordinate_ok (p_z p).

Inductive line :=
| Position (p : position)
| Hash (text : list char)
| Blank (ws : list char).

Definition line_text (l : line) : list char :=
  match l with
  | Position p => position_text p ++ [10%N]
  | Hash t => 35%N :: t ++ [10%N]
  | Blank ws => ws ++ [10%N]
  end.

Definition line_ok (l : line) : Prop :=
  match l with
  | Position p => position_ok p
  | Hash t => Forall (fun c => c <> 10%N) t
  | Blank ws => all_in cls_blank ws
  end.

Definition lines_text (ls : list line) : list char := flat_map line_text ls.

Definition positions_of (ls : list line) : list position :=
  flat_map (fun l => match l with Position p => [p] | _ => [] end) ls.

Record xyz_frame := {
  f_count : list char;
  f_comment : list char;
  f_lines : list line
}.

Definition frame_text (f : xyz_frame) : list char :=
  f_count f ++ 10%N :: f_comment f ++ 10%N :: lines_text (f_lines f).

Definition frame_ok (f : xyz_frame) : Prop :=
  f_count f <> [] /\ all_in ascii_digit (f_count f)
  /\ Forall (fun c => c <> 10%N) (f_comment f)
  /\ f_lines f <> [] /\ Forall line_ok (f_lines f).

(** The count line tells the number of position lines. *)
Definition counted (f : xyz_frame) : Prop :=
  digits_value (f_count f) = N.of_nat (length (positions_of (f_lines f))).

Definition position_entry (p : position) : atom :=
  (PyStr (p_sym p),
   (coordinate_value (p_x p), coordinate_value (p_y p), coordinate_value (p_z p))).

(** The record [parse] is to return for a frame. *)
Definition expected (f : xyz_frame) : frame_record :=
  {| natoms := digits_value (f_count f);
     comment := PyStr (f_comment f);
     atoms := map position_entry (positions_of (f_lines f)) |}.

(** ** The path the matcher takes first *)

(** The state after [w], with [r] ahead. *)
Definition skip (st : mstate) (w r : list char) : mstate :=
  {| before := rev w ++ before st; rest := r; groups := groups st |}.

Definition with_group (name : string) (w : list char) (st : mstate) : mstate :=
  {| before := before st; rest := rest st; groups := (name, w) :: groups st |}.

(** [r] takes [st] to [st'] on the first path the matcher tries: whatever
    follows in the pattern is tried at [st'] before anything else, so a match
    from there is the match. *)
Definition leads (r : regex) (st st' : mstate) : Prop :=
  forall k x, k st' = Some x -> m r st k = Some x.

(** [r] matches nothing at [st]. *)
Definition fails (r : regex) (st : mstate) : Prop :=
  forall k, m r st k = None.

(** Rounds of a repetition, each on the first path and each consuming. *)
Inductive rounds (a : regex) : mstate -> mstate -> Prop :=
| rounds_done st : rounds a st st
| rounds_more st st1 st2 :
    leads a st st1 -> length (rest st1) < length (rest st) ->
    rounds a st1 st2 -> rounds a st st2.

(** Where a run of characters of the class [p] ends. *)
Definition stops (p : char -> bool) (r : list char) : Prop :=
  match r with
  | [] => True
  | c :: _ => p c = false
  end.

(** [finditer] from the offset [p] on. *)
Definition scan (r : regex) (s : list char) (p : nat) : list pymatch :=
  finditer_from r (S (length s - p)) (state_at s p).

(** What follows a positions block: the end of the text or the count line
    of the next frame. *)
Definition count_ahead (r : list char) : Prop :=
  match r with
  | [] => True
  | c :: _ => ascii_digit c = true
  end.

(** Blank lines, each closed by its line break. *)
Definition blank_lines (W : list char) : Prop :=
  Forall (fun c => cls_blank c = true \/ c = 10%N) W
  /\ (W = [] \/ exists W', W = W' ++ [10%N]).

(** The characters a coordinate, a symbol or a count can start with. *)
Definition plain (c : char) : Prop :=
  cls_alpha c = true \/ ascii_digit c = true
  \/ c = 45%N \/ c = 43%N \/ c = 46%N \/ c = 35%N.

(** ** States and matches on well-formed text *)

(** The state the frame pattern is in after a frame. *)
Definition after_frame (st : mstate) (f : xyz_frame) (r : list char) : mstate :=
  {| before := rev (frame_text f) ++ before st;
     rest := r;
     groups := ("positions", lines_text (f_lines f)) :: ("comment", f_comment f)
               :: ("natoms", f_count f) :: groups st |}.

(** The exponent of the position pattern. *)
Definition exponent (fl : flavour) : regex :=
  (Chr cls_exp_mark ;; Opt (Chr cls_exp_sign) ;; Plus (Chr (cls_digit fl)))%re.

(** The state of the position pattern at the end of a position line, before
    the line break. *)
Definition after_position (st : mstate) (p : position) (r : list char) : mstate :=
  {| before := rev (position_text p) ++ before st;
     rest := r;
     groups := ("z", coordinate_text (p_z p)) :: ("y", coordinate_text (p_y p))
               :: ("x", coordinate_text (p_x p)) :: ("sym", p_sym p) :: groups st |}.

(** The text before the offset ends with a line break, or is empty. *)
Definition line_end (pre : list char) : Prop :=
  pre = [] \/ exists pre', pre = pre' ++ [10%N].

(** The groups of the frame pattern after a frame, of the position pattern
    after a position line. *)
Definition frame_groups (f : xyz_frame) : list (string * list char) :=
  [("positions", lines_text (f_lines f)); ("comment", f_comment f);
   ("natoms", f_count f)].

Definition position_groups (p : position) : list (string * list char) :=
  [("z", coordinate_text (p_z p)); ("y", coordinate_text (p_y p));
   ("x", coordinate_text (p_x p)); ("sym", p_sym p)].

Definition mk_match (text : list char) (mt : pymatch) : match_object :=
  {| mo_text := PyStr text; mo_match := mt |}.

(** What the frame generator yields for a frame of the text. *)
Definition yielded (udb : unicode_db) (f : xyz_frame) : frame :=
  (digits_value (f_count f), PyStr (f_comment f),
   __init__ (py_finditer udb POS_MATCH_REGEX (PyStr (lines_text (f_lines f))))
            (digits_value (f_count f))).

(** A frame of water: two position lines, a line commented out and a blank
    line between them. *)
Definition water : xyz_frame :=
  {| f_count := codes "2";
     f_comment := codes "water, in part";
     f_lines :=
       [ Position {| p_lead := codes " "; p_sym := codes "O";
                     p_sep1 := codes "  ";
                     p_x := {| c_sign := []; c_int := codes "0"; c_frac := codes "0" |};
                     p_sep2 := codes "  ";
                     p_y := {| c_sign := []; c_int := codes "0"; c_frac := codes "0" |};
                     p_sep3 := codes " ";
                     p_z := {| c_sign := []; c_int := codes "0"; c_frac := codes "117" |} |};
         Hash (codes " H 9.9 9.9 9.9");
         Blank (codes "  ");
         Position {| p_lead := []; p_sym := codes "H1";
                     p_sep1 := codes " ";
                     p_x := {| c_sign := codes "+"; c_int := []; c_frac := codes "5" |};
                     p_sep2 := [9%N];
                     p_y := {| c_sign := []; c_int := codes "0"; c_frac := codes "757" |};
                     p_sep3 := codes " ";
                     p_z := {| c_sign := codes "-"; c_int := codes "0";
                               c_frac := codes "469" |} |} ] |}.

(** Where a run of digits ends. *)
Definition stops_digits (fl : flavour) (r : list char) : Prop :=
  match r with
  | [] => True
  | c :: _ => cls_digit fl c = false
  end.

(** * Properties *)

(** ** The counting iterator *)

Section Protocol.
Variable udb : unicode_db.

Lemma next_exhausted (it : BlockIterator) :
  _it it = [] ->
  __next__ udb it =
  (it, if (_catom it =? _natoms it)%N then StopIteration
       else Raise (TypeError_smaller (_catom it) (_natoms it))).
Proof.
  intros H. unfold __next__. rewrite H. destruct (_catom it =? _natoms it)%N; reflexivity.
Qed.

Lemma next_consumes (it : BlockIterator) mo ms :
  _it it = mo :: ms ->
  fst (__next__ udb it) =
  {| _it := ms; _natoms := _natoms it; _catom := (_catom it + 1)%N |}.
Proof.
  intros H. unfold __next__. rewrite H. cbn.
  destruct (_natoms it <? _catom it + 1)%N; [reflexivity|].
  destruct (entry udb mo); reflexivity.
Qed.

Lemma next_within (it : BlockIterator) mo ms :
  _it it = mo :: ms -> (_catom it < _natoms it)%N ->
  snd (__next__ udb it) = delivered udb mo.
Proof.
  intros H Hlt. unfold __next__, delivered. rewrite H. cbn.
  destruct (N.ltb_spec (_natoms it) (_catom it + 1)); [lia|].
  destruct (entry udb mo); reflexivity.
Qed.

Lemma next_beyond (it : BlockIterator) mo ms :
  _it it = mo :: ms -> (_natoms it <= _catom it)%N ->
  snd (__next__ udb it) = Raise (TypeError_larger (_catom it + 1) (_natoms it)).
Proof.
  intros H Hle. unfold __next__. rewrite H. cbn.
  destruct (N.ltb_spec (_natoms it) (_catom it + 1)); [reflexivity|lia].
Qed.

(** [k] calls on an iterator that still holds [k] matches within the declared
    count: each delivers its match, and the counter has moved by [k]. *)
Lemma pull_within (k : nat) : forall ms n c,
  k <= length ms -> (c + N.of_nat k <= n)%N ->
  pull udb k {| _it := ms; _natoms := n; _catom := c |} =
  ({| _it := skipn k ms; _natoms := n; _catom := (c + N.of_nat k)%N |},
   map (delivered udb) (firstn k ms)).
Proof.
  induction k as [|k IH]; intros ms n c Hk Hc.
  - cbn. rewrite N.add_0_r. reflexivity.
  - destruct ms as [|mo ms]; [cbn in Hk; lia|].
    cbn [pull].
    pose (it := {| _it := mo :: ms; _natoms := n; _catom := c |}).
    assert (H1 : fst (__next__ udb it) =
                 {| _it := ms; _natoms := n; _catom := (c + 1)%N |})
      by (apply (next_consumes it mo ms); reflexivity).
    assert (H2 : snd (__next__ udb it) = delivered udb mo)
      by (apply (next_within it mo ms); [reflexivity | unfold it; cbn; lia]).
    fold it. destruct (__next__ udb it) as [it1 o]. cbn in H1, H2. subst it1 o.
    rewrite IH by (cbn in Hk; lia).
    cbn [skipn firstn map]. f_equal. f_equal. lia.
Qed.


Lemma drain_enough : forall ms fuel n c,
  length ms < fuel ->
  drain udb fuel {| _it := ms; _natoms := n; _catom := c |} = Some (drain_spec udb ms n c).
Proof.
  induction ms as [|mo ms IH]; intros fuel n c Hf.
  - destruct fuel; [cbn in Hf; lia|]. cbn. destruct (c =? n)%N; reflexivity.
  - destruct fuel; [cbn in Hf; lia|]. cbn in Hf.
    cbn [drain drain_spec]. unfold __next__. cbn.
    destruct (n <? c + 1)%N; [reflexivity|].
    destruct (entry udb mo) as [e|a]; [reflexivity|].
    rewrite IH by lia. destruct (drain_spec udb ms n (c + 1)); reflexivity.
Qed.

Lemma py_list_spec (it : BlockIterator) :
  py_list udb it = Some (drain_spec udb (_it it) (_natoms it) (_catom it)).
Proof.
  destruct it as [ms n c]. unfold py_list. cbn [_it _natoms _catom].
  apply drain_enough. lia.
Qed.

End Protocol.

(** ** Frames and their iterators *)

Section Frames.
Variable udb : unicode_db.

Lemma generate_fresh is_string : forall blocks f,
  In f (fst (generate udb is_string blocks)) ->
  _catom (frame_atoms f) = 0%N /\ _natoms (frame_atoms f) = frame_natoms f.
Proof.
  induction blocks as [|b bs IH]; intros f Hin; [destruct Hin|].
  cbn [generate] in Hin.
  destruct (frame_of_block udb is_string b) as [e|g] eqn:Eb; [destruct Hin|].
  destruct (generate udb is_string bs) as [fs e]. cbn in Hin, IH.
  destruct Hin as [<-|Hin]; [|auto].
  unfold frame_of_block in Eb. destruct is_string.
  - inversion Eb. split; reflexivity.
  - destruct (utf8_decode _); inversion Eb. split; reflexivity.
Qed.

Lemma parse_iter_fresh inp f :
  In f (fst (parse_iter udb inp)) ->
  frame_atoms f =
  {| _it := _it (frame_atoms f); _natoms := frame_natoms f; _catom := 0 |}.
Proof.
  unfold parse_iter. destruct (as_byteorstringlike inp) as [content is_string].
  intros Hin. apply generate_fresh in Hin. destruct Hin as [Hc Hn].
  destruct (frame_atoms f) as [ms n c]. cbn in *. subst. reflexivity.
Qed.

Lemma drain_spec_few : forall ms n c,
  Forall (converts udb) ms -> (c + N.of_nat (length ms) < n)%N ->
  drain_spec udb ms n c = inl (TypeError_smaller (c + N.of_nat (length ms)) n).
Proof.
  induction ms as [|mo ms IH]; intros n c Hall Hlt; cbn [drain_spec length] in *.
  - rewrite N.add_0_r in *. destruct (N.eqb_spec c n); [lia|reflexivity].
  - inversion Hall as [|? ? [a Ha] Hall']; subst.
    destruct (N.ltb_spec n (c + 1)); [lia|]. rewrite Ha.
    rewrite IH by (auto; lia). f_equal. f_equal. lia.
Qed.

Lemma drain_spec_many : forall k ms n c,
  Forall (converts udb) (firstn k ms) -> k < length ms -> (c + N.of_nat k = n)%N ->
  drain_spec udb ms n c = inl (TypeError_larger (n + 1) n).
Proof.
  induction k as [|k IH]; intros ms n c Hall Hlt Hn;
    (destruct ms as [|mo ms]; [cbn in Hlt; lia|]); cbn [drain_spec firstn length] in *.
  - destruct (N.ltb_spec n (c + 1)); [|lia]. f_equal. f_equal. lia.
  - inversion Hall as [|? ? [a Ha] Hall']; subst.
    destruct (N.ltb_spec (c + N.of_nat (S k)) (c + 1)); [lia|]. rewrite Ha.
    rewrite (IH ms (c + N.of_nat (S k))%N (c + 1)%N) by (auto; lia). reflexivity.
Qed.

Lemma drain_spec_returns : forall ms n c l,
  drain_spec udb ms n c = inr l ->
  (c + N.of_nat (length ms) = n)%N /\ Forall2 (fun mo a => entry udb mo = inr a) ms l.
Proof.
  induction ms as [|mo ms IH]; intros n c l H; cbn [drain_spec length] in *.
  - destruct (N.eqb_spec c n); inversion H. split; [lia|constructor].
  - destruct (n <? c + 1)%N; [discriminate|].
    destruct (entry udb mo) as [e|a] eqn:Ea; [discriminate|].
    destruct (drain_spec udb ms n (c + 1)) as [e|l'] eqn:Ed; inversion H; subst.
    destruct (IH _ _ _ Ed) as [Hn Hl]. split; [lia|]. constructor; assumption.
Qed.

Lemma drain_spec_exact : forall ms n c,
  Forall (converts udb) ms -> (c + N.of_nat (length ms) = n)%N ->
  exists l, drain_spec udb ms n c = inr l.
Proof.
  induction ms as [|mo ms IH]; intros n c Hall Hn; cbn [drain_spec length] in *.
  - destruct (N.eqb_spec c n); [eauto|lia].
  - inversion Hall as [|? ? [a Ha] Hall']; subst.
    destruct (N.ltb_spec (c + N.of_nat (S (length ms))) (c + 1)); [lia|]. rewrite Ha.
    destruct (IH (c + N.of_nat (S (length ms)))%N (c + 1)%N Hall') as [l Hl]; [lia|].
    rewrite Hl. eauto.
Qed.

End Frames.

(** ** Count mismatches *)

(** C2.  A frame of [parse_iter] that declares more atoms than its positions
    block has position lines: the calls of [__next__] that still find a match
    each deliver it, the call after them raises the "smaller" [TypeError]
    carrying the number found and the number declared, and [list(atomiter)]
    ends in that exception when the entries found convert. *)
Theorem too_few_entries_raise (udb : unicode_db) (inp : pyinput) (f : frame) :
  In f (fst (parse_iter udb inp)) ->
  (N.of_nat (found f) < frame_natoms f)%N ->
  snd (pull udb (found f) (frame_atoms f)) = map (delivered udb) (_it (frame_atoms f))
  /\ snd (__next__ udb (fst (pull udb (found f) (frame_atoms f))))
     = Raise (TypeError_smaller (N.of_nat (found f)) (frame_natoms f))
  /\ (Forall (converts udb) (_it (frame_atoms f)) ->
      py_list udb (frame_atoms f)
      = Some (inl (TypeError_smaller (N.of_nat (found f)) (frame_natoms f)))).
Proof.
  intros Hin Hlt. rewrite (parse_iter_fresh udb inp f Hin). unfold found in *.
  set (ms := _it (frame_atoms f)) in *. set (n := frame_natoms f) in *.
  rewrite pull_within by (cbn; lia). cbn [fst snd].
  rewrite firstn_all, skipn_all. repeat split.
  - rewrite next_exhausted by reflexivity. cbn.
    destruct (N.eqb_spec (N.of_nat (length ms)) n); [lia|reflexivity].
  - intros Hall. rewrite py_list_spec. cbn.
    rewrite drain_spec_few by (auto; cbn; lia). reflexivity.
Qed.

(** C3.  A frame that declares [N] atoms and has more position lines: the
    first [N] calls deliver, and call [N + 1] raises the "larger" [TypeError]
    instead of returning the entry it found. *)
Theorem too_many_entries_raise (udb : unicode_db) (inp : pyinput) (f : frame) :
  In f (fst (parse_iter udb inp)) ->
  (frame_natoms f < N.of_nat (found f))%N ->
  let n := N.to_nat (frame_natoms f) in
  snd (pull udb n (frame_atoms f)) = map (delivered udb) (firstn n (_it (frame_atoms f)))
  /\ snd (__next__ udb (fst (pull udb n (frame_atoms f))))
     = Raise (TypeError_larger (frame_natoms f + 1) (frame_natoms f))
  /\ (forall a, snd (__next__ udb (fst (pull udb n (frame_atoms f)))) <> Return a)
  /\ (Forall (converts udb) (firstn n (_it (frame_atoms f))) ->
      py_list udb (frame_atoms f)
      = Some (inl (TypeError_larger (frame_natoms f + 1) (frame_natoms f)))).
Proof.
  intros Hin Hlt n. rewrite (parse_iter_fresh udb inp f Hin). unfold found in *.
  set (ms := _it (frame_atoms f)) in *. set (N := frame_natoms f) in *.
  rewrite pull_within by (subst n; cbn; lia). cbn [fst snd].
  assert (Hnext : snd (__next__ udb {| _it := skipn n ms; _natoms := N;
                                       _catom := (0 + N.of_nat n)%N |})
                  = Raise (TypeError_larger (N + 1) N)).
  { destruct (skipn n ms) as [|mo rest] eqn:Es.
    - apply (f_equal (@length _)) in Es. rewrite length_skipn in Es. cbn in Es. lia.
    - rewrite (next_beyond udb _ mo rest) by (cbn; subst n; auto; lia).
      cbn. f_equal. f_equal. subst n. lia. }
  repeat split.
  - exact Hnext.
  - intros a. rewrite Hnext. discriminate.
  - intros Hall. rewrite py_list_spec. cbn.
    apply f_equal. apply drain_spec_many with (k := n); [assumption | lia | subst n; lia].
Qed.



(** ** The eager wrapper *)

Section Eager.
Variable udb : unicode_db.

Lemma parse_iter_all_fresh inp : Forall fresh (fst (parse_iter udb inp)).
Proof. apply Forall_forall. intros f Hin. exact (parse_iter_fresh udb inp f Hin). Qed.

Lemma py_list_fresh f :
  fresh f ->
  py_list udb (frame_atoms f)
  = Some (drain_spec udb (_it (frame_atoms f)) (frame_natoms f) 0).
Proof.
  intros Hf. unfold fresh in Hf. rewrite py_list_spec. rewrite Hf. reflexivity.
Qed.

Lemma comprehend_cons f fs ending :
  comprehend udb (f :: fs) ending =
  match py_list udb (frame_atoms f) with
  | None => None
  | Some (inl e) => Some (inl e)
  | Some (inr l) =>
      match comprehend udb fs ending with
      | Some (inr rs) =>
          Some (inr ({| natoms := frame_natoms f; comment := frame_comment f;
                        atoms := l |} :: rs))
      | other => other
      end
  end.
Proof. destruct f as [[n c] it]. reflexivity. Qed.


Lemma not_mismatched_count f :
  ~ mismatched f -> (0 + N.of_nat (length (_it (frame_atoms f))) = frame_natoms f)%N.
Proof.
  unfold mismatched, found. intros H.
  destruct (N.eq_dec (N.of_nat (length (_it (frame_atoms f)))) (frame_natoms f));
    [lia|contradiction].
Qed.



Lemma comprehend_returns : forall frames ending rs,
  Forall fresh frames ->
  comprehend udb frames ending = Some (inr rs) ->
  ending = None /\ Forall2 (record_of udb) frames rs
  /\ Forall (fun g => ~ mismatched g) frames.
Proof.
  induction frames as [|f fs IH]; intros ending rs Hfresh H.
  - cbn in H. destruct ending; inversion H. repeat split; constructor.
  - inversion Hfresh as [|? ? Hf Hfs]; subst.
    rewrite comprehend_cons, (py_list_fresh _ Hf) in H.
    destruct (drain_spec udb _ _ _) as [e|l] eqn:Ed; [discriminate|].
    destruct (comprehend udb fs ending) as [[e|rs']|] eqn:Ec; inversion H; subst rs.
    destruct (IH _ _ Hfs Ec) as (He & Hrs & Hnm).
    apply drain_spec_returns in Ed. destruct Ed as [Hn Hl].
    split; [assumption|]. split.
    + constructor; [|assumption]. repeat split. exact Hl.
    + constructor; [|assumption]. unfold mismatched, found. lia.
Qed.

Lemma comprehend_all_good : forall frames,
  Forall fresh frames ->
  Forall (fun g => ~ mismatched g /\ all_convert udb g) frames ->
  exists rs, comprehend udb frames None = Some (inr rs).
Proof.
  induction frames as [|f fs IH]; intros Hfresh Hgood; [cbn; eauto|].
  inversion Hfresh as [|? ? Hf Hfs]; subst.
  inversion Hgood as [|? ? [Hnm Hcv] Hgood']; subst.
  rewrite comprehend_cons, (py_list_fresh _ Hf).
  destruct (drain_spec_exact udb _ _ _ Hcv (not_mismatched_count _ Hnm)) as [l Hl].
  rewrite Hl. destruct (IH Hfs Hgood') as [rs ->]. eauto.
Qed.

End Eager.


(** ** The matcher and the paths it searches *)

Lemma star_loop_ext body k1 k2 :
  (forall st j1 j2, (forall s, j1 s = j2 s) -> body st j1 = body st j2) ->
  (forall s, k1 s = k2 s) ->
  forall fuel st, star_loop body k1 fuel st = star_loop body k2 fuel st.
Proof.
  intros Hbody Hk. induction fuel as [|n IH]; intros st; cbn [star_loop]; [apply Hk|].
  rewrite (Hbody st _ (fun st' => if length (rest st') <? length (rest st)
                                  then star_loop body k2 n st' else None)).
  - rewrite Hk. reflexivity.
  - intros s. destruct (length (rest s) <? length (rest st)); [apply IH | reflexivity].
Qed.

Lemma m_ext : forall r st k1 k2,
  (forall s, k1 s = k2 s) -> m r st k1 = m r st k2.
Proof.
  induction r as [|p| |a IHa b IHb|a IHa b IHb|a IHa|name a IHa];
    intros st k1 k2 Hk; cbn [m].
  - apply Hk.
  - destruct (rest st) as [|c t]; [reflexivity|]. destruct (p c); auto.
  - destruct (at_line_start st); auto.
  - apply IHa. intros s. apply IHb. assumption.
  - rewrite (IHa st k1 k2 Hk), (IHb st k1 k2 Hk). reflexivity.
  - apply star_loop_ext; auto.
  - apply IHa. intros s. apply Hk.
Qed.

Lemma m_none : forall r st k, (forall s, k s = None) -> m r st k = None.
Proof.
  induction r as [|p| |a IHa b IHb|a IHa b IHb|a IHa|name a IHa];
    intros st k Hk; cbn [m].
  - apply Hk.
  - destruct (rest st) as [|c t]; [reflexivity|]. destruct (p c); auto.
  - destruct (at_line_start st); auto.
  - apply IHa. intros s. apply IHb. assumption.
  - rewrite (IHa st k Hk), (IHb st k Hk). reflexivity.
  - generalize (length (rest st)) as fuel. intros fuel. revert st.
    induction fuel as [|n IH]; intros st; cbn [star_loop]; [apply Hk|].
    rewrite IHa; [apply Hk|]. intros s.
    destruct (length (rest s) <? length (rest st)); [apply IH | reflexivity].
  - apply IHa. intros s. apply Hk.
Qed.

(** Fuel beyond the length of the text left is never used. *)
Lemma star_loop_fuel a k : forall f1 f2 st,
  length (rest st) <= f1 -> length (rest st) <= f2 ->
  star_loop (m a) k f1 st = star_loop (m a) k f2 st.
Proof.
  induction f1 as [|f1 IH]; intros f2 st H1 H2.
  - destruct f2 as [|f2]; [reflexivity|]. cbn [star_loop].
    rewrite m_none; [reflexivity|]. intros s.
    destruct (Nat.ltb_spec (length (rest s)) (length (rest st))); [lia|reflexivity].
  - destruct f2 as [|f2].
    + cbn [star_loop]. rewrite m_none; [reflexivity|]. intros s.
      destruct (Nat.ltb_spec (length (rest s)) (length (rest st))); [lia|reflexivity].
    + cbn [star_loop]. erewrite m_ext; [reflexivity|]. intros s. cbn beta.
      destruct (Nat.ltb_spec (length (rest s)) (length (rest st))); [|reflexivity].
      apply IH; lia.
Qed.

(** The repetition, one round at a time. *)
Lemma m_star_unfold a st k :
  m (Star a) st k =
  match m a st (fun st' => if length (rest st') <? length (rest st)
                           then m (Star a) st' k else None) with
  | Some x => Some x
  | None => k st
  end.
Proof.
  cbn [m].
  rewrite (star_loop_fuel a k (length (rest st)) (S (length (rest st))) st) by lia.
  cbn [star_loop]. erewrite m_ext; [reflexivity|]. intros s. cbn beta.
  destruct (Nat.ltb_spec (length (rest s)) (length (rest st))); [|reflexivity].
  apply star_loop_fuel; lia.
Qed.

(** Soundness: a match found is at the end of a path of the pattern, and
    is what the continuation made of that end. *)
Lemma m_sound : forall r st k x,
  m r st k = Some x -> exists st', Matches r st st' /\ k st' = Some x.
Proof.
  induction r as [|p| |a IHa b IHb|a IHa b IHb|a IHa|name a IHa];
    intros st k x H; cbn [m] in H.
  - exists st. split; [constructor|assumption].
  - destruct (rest st) as [|c t] eqn:Er; [discriminate|].
    destruct (p c) eqn:Ep; [|discriminate].
    exists (advance st c t). split; [constructor; assumption|assumption].
  - destruct (at_line_start st) eqn:El; [|discriminate].
    exists st. split; [constructor; assumption|assumption].
  - apply IHa in H. destruct H as (st1 & M1 & H). apply IHb in H.
    destruct H as (st2 & M2 & H). exists st2. split; [econstructor; eassumption|assumption].
  - destruct (m a st k) eqn:Ea.
    + inversion H; subst. apply IHa in Ea. destruct Ea as (st1 & M1 & Hk).
      exists st1. split; [apply M_Alt_l|]; assumption.
    + apply IHb in H. destruct H as (st1 & M1 & Hk).
      exists st1. split; [apply M_Alt_r|]; assumption.
  - revert H. generalize (length (rest st)) as fuel. intros fuel. revert st.
    induction fuel as [|n IH]; intros st H; cbn [star_loop] in H.
    + exists st. split; [constructor|assumption].
    + destruct (m a st _) eqn:Ea.
      * inversion H; subst. apply IHa in Ea. destruct Ea as (st1 & M1 & Hk).
        destruct (Nat.ltb_spec (length (rest st1)) (length (rest st))); [|discriminate].
        apply IH in Hk. destruct Hk as (st2 & M2 & Hk).
        exists st2. split; [eapply M_Star_more; eassumption|assumption].
      * exists st. split; [constructor|assumption].
  - apply IHa in H. destruct H as (st1 & M1 & Hk).
    exists (close_group name st st1). split; [constructor|]; assumption.
Qed.

(** A path consumes a piece [w] of the text ahead and leaves the rest. *)
Lemma Matches_consumes r st st' :
  Matches r st st' ->
  exists w, before st' = rev w ++ before st /\ rest st = w ++ rest st'.
Proof.
  induction 1 as [st|p st c t Hr Hp|st Hl|a b st st1 st2 _ IH1 _ IH2
                  |a b st st1 _ IH|a b st st1 _ IH|a st
                  |a st st1 st2 _ IH1 Hlt _ IH2|name a st st1 _ IH].
  - exists []. split; reflexivity.
  - exists [c]. split; [reflexivity|assumption].
  - exists []. split; reflexivity.
  - destruct IH1 as (w1 & B1 & R1), IH2 as (w2 & B2 & R2).
    exists (w1 ++ w2). rewrite B2, B1, R1, R2, rev_app_distr, !app_assoc. split; reflexivity.
  - assumption.
  - assumption.
  - exists []. split; reflexivity.
  - destruct IH1 as (w1 & B1 & R1), IH2 as (w2 & B2 & R2).
    exists (w1 ++ w2). rewrite B2, B1, R1, R2, rev_app_distr, !app_assoc. split; reflexivity.
  - exact IH.
Qed.

Lemma Matches_whole r st st' : Matches r st st' -> whole st' = whole st.
Proof.
  intros H. apply Matches_consumes in H. destruct H as (w & B & R).
  unfold whole. rewrite B, R, rev_app_distr, rev_involutive, app_assoc. reflexivity.
Qed.

Lemma spanned_consumed st st' w :
  before st' = rev w ++ before st -> spanned st st' = w.
Proof.
  intros B. unfold spanned. rewrite B, length_app, length_rev.
  replace (length w + length (before st) - length (before st)) with (length (rev w))
    by (rewrite length_rev; lia).
  rewrite firstn_app, Nat.sub_diag, firstn_all, firstn_0, app_nil_r.
  apply rev_involutive.
Qed.

Lemma Matches_groupless r st st' :
  Matches r st st' -> groupless r = true -> groups st' = groups st.
Proof.
  induction 1; cbn [groupless]; intros G;
    try (apply andb_true_iff in G; destruct G as [G1 G2]); try reflexivity; auto.
  - rewrite IHMatches2, IHMatches1; auto.
  - rewrite IHMatches2, IHMatches1; auto.
  - discriminate.
Qed.

(** What holds after every round holds after the repetition. *)
Lemma Matches_star_inv a (P : mstate -> Prop) :
  (forall s1 s2, Matches a s1 s2 -> P s2) ->
  forall st st', Matches (Star a) st st' -> P st -> P st'.
Proof.
  intros Hround st st' H. remember (Star a) as r eqn:Er.
  induction H; inversion Er; subst; intros HP; [assumption|].
  apply IHMatches2; [reflexivity|]. eapply Hround; eassumption.
Qed.

(** A run of a class: the characters consumed all belong to it. *)
Lemma Matches_star_chr p st st' :
  Matches (Star (Chr p)) st st' ->
  exists w, Forall (fun c => p c = true) w
            /\ before st' = rev w ++ before st /\ rest st = w ++ rest st'
            /\ groups st' = groups st.
Proof.
  intros H. remember (Star (Chr p)) as r eqn:Er.
  induction H; inversion Er; subst.
  - exists []. repeat split. constructor.
  - destruct (IHMatches2 eq_refl) as (w & Hw & B & R & G).
    inversion H as [|? ? c t Hr Hp| | | | | | |]; subst.
    exists (c :: w). cbn in *. repeat split.
    + constructor; assumption.
    + rewrite B, <- app_assoc. reflexivity.
    + rewrite Hr, R. reflexivity.
    + assumption.
Qed.

Lemma Matches_plus_chr p st st' :
  Matches (Plus (Chr p)) st st' ->
  exists w, w <> [] /\ Forall (fun c => p c = true) w
            /\ before st' = rev w ++ before st /\ rest st = w ++ rest st'
            /\ groups st' = groups st.
Proof.
  intros H. inversion H as [| | |? ? ? st1 ? M1 M2| | | | |]; subst.
  inversion M1 as [|? ? c t Hr Hp| | | | | | |]; subst. apply Matches_star_chr in M2.
  destruct M2 as (w & Hw & B & R & G). exists (c :: w). cbn in *. repeat split.
  - discriminate.
  - constructor; assumption.
  - rewrite B, <- app_assoc. reflexivity.
  - rewrite Hr, R. reflexivity.
  - assumption.
Qed.

Lemma consumed_refl st : consumed st st [].
Proof. split; reflexivity. Qed.

Lemma consumed_trans st st1 st2 w1 w2 :
  consumed st st1 w1 -> consumed st1 st2 w2 -> consumed st st2 (w1 ++ w2).
Proof.
  intros [B1 R1] [B2 R2]. split.
  - rewrite B2, B1, rev_app_distr, app_assoc. reflexivity.
  - rewrite R1, R2, app_assoc. reflexivity.
Qed.

Lemma consumed_close name st0 st st1 w :
  consumed st st1 w -> consumed st (close_group name st0 st1) w.
Proof. intros H. exact H. Qed.

Lemma consumed_length st st' w :
  consumed st st' w -> length (rest st) = length w + length (rest st').
Proof. intros [_ R]. rewrite R, length_app. reflexivity. Qed.

Lemma Matches_Seq_inv a b st st2 :
  Matches (Seq a b) st st2 -> exists st1, Matches a st st1 /\ Matches b st1 st2.
Proof. intros H. inversion H; subst. eauto. Qed.

Lemma Matches_Alt_inv a b st st1 :
  Matches (Alt a b) st st1 -> Matches a st st1 \/ Matches b st st1.
Proof. intros H. inversion H; subst; auto. Qed.

Lemma Matches_Eps_inv st st1 : Matches Eps st st1 -> st1 = st.
Proof. intros H. inversion H; subst; auto. Qed.

Lemma Matches_Grp_inv name a st st2 :
  Matches (Grp name a) st st2 ->
  exists st1, Matches a st st1 /\ st2 = close_group name st st1.
Proof. intros H. inversion H; subst. eauto. Qed.

Lemma Matches_Bol_inv st st' : Matches Bol st st' -> st' = st /\ at_line_start st = true.
Proof. intros H. inversion H; subst. auto. Qed.

Lemma Matches_Chr_inv p st st' :
  Matches (Chr p) st st' ->
  exists c, p c = true /\ consumed st st' [c] /\ groups st' = groups st.
Proof.
  intros H. inversion H as [|? ? c t Hr Hp| | | | | | |]; subst.
  exists c. repeat split; assumption.
Qed.

Lemma Matches_Star_Chr_inv p st st' :
  Matches (Star (Chr p)) st st' ->
  exists w, Forall (fun c => p c = true) w /\ consumed st st' w
            /\ groups st' = groups st.
Proof.
  intros H. apply Matches_star_chr in H. destruct H as (w & Hw & B & R & G).
  exists w. repeat split; assumption.
Qed.

Lemma Matches_Plus_Chr_inv p st st' :
  Matches (Plus (Chr p)) st st' ->
  exists w, w <> [] /\ Forall (fun c => p c = true) w /\ consumed st st' w
            /\ groups st' = groups st.
Proof.
  intros H. apply Matches_plus_chr in H. destruct H as (w & Hne & Hw & B & R & G).
  exists w. repeat split; assumption.
Qed.

Lemma Matches_consumed r st st' : Matches r st st' -> exists w, consumed st st' w.
Proof. apply Matches_consumes. Qed.

Lemma close_group_groups name st st1 w :
  consumed st st1 w -> groups (close_group name st st1) = (name, w) :: groups st1.
Proof.
  intros [B _]. unfold close_group. cbn. rewrite (spanned_consumed st st1 w B). reflexivity.
Qed.

(** What holds at the start and survives every round holds after the
    repetition. *)
Lemma Matches_star_ind a (P : mstate -> Prop) :
  (forall s1 s2, P s1 -> Matches a s1 s2 -> P s2) ->
  forall st st', Matches (Star a) st st' -> P st -> P st'.
Proof.
  intros Hround st st' H. remember (Star a) as r eqn:Er.
  induction H; inversion Er; subst; intros HP; [assumption|].
  apply IHMatches2; [reflexivity|]. eapply Hround; eassumption.
Qed.

Section FrameShape.
Variable fl : flavour.

Lemma cls_newline_eq c : cls_newline c = true -> c = 10%N.
Proof. apply N.eqb_eq. Qed.

(** A line of the positions block is consumed with its line break. *)
Lemma frame_line_shape st st' :
  Matches (frame_line fl) st st' ->
  exists w, consumed st st' (w ++ [10%N]) /\ groups st' = groups st.
Proof.
  intros H. assert (G : groups st' = groups st)
    by (apply (Matches_groupless _ _ _ H); reflexivity).
  unfold frame_line in H. apply Matches_Seq_inv in H. destruct H as (st1 & M1 & M2).
  apply Matches_consumed in M1. destruct M1 as (w & C1).
  apply Matches_Chr_inv in M2. destruct M2 as (c & Hc & C2 & _).
  apply cls_newline_eq in Hc. subst c.
  exists w. split; [eapply consumed_trans; eassumption|assumption].
Qed.

Lemma frame_lines_shape st st' :
  Matches (Plus (frame_line fl)) st st' ->
  exists w, consumed st st' (w ++ [10%N]) /\ groups st' = groups st.
Proof.
  intros H. unfold Plus in H. apply Matches_Seq_inv in H. destruct H as (st1 & M1 & M2).
  apply frame_line_shape in M1.
  pose (P := fun s => exists w, consumed st s (w ++ [10%N]) /\ groups s = groups st).
  assert (Hround : forall s1 s2, P s1 -> Matches (frame_line fl) s1 s2 -> P s2).
  { intros s1 s2 (w1 & C1 & G1) M. apply frame_line_shape in M.
    destruct M as (w2 & C2 & G2).
    exists ((w1 ++ [10%N]) ++ w2). split; [|congruence].
    rewrite <- app_assoc. eapply consumed_trans; eassumption. }
  exact (Matches_star_ind (frame_line fl) P Hround st1 st' M2 M1).
Qed.

(** The shape of everything the frame pattern matches. *)
Lemma frame_shape st st' :
  Matches (FRAME_MATCH_REGEX fl) st st' ->
  exists pre wn post wc wp,
    at_line_start st = true
    /\ consumed st st' (pre ++ wn ++ post ++ [10%N] ++ wc ++ [10%N] ++ wp ++ [10%N])
    /\ groups st' = ("positions"%string, wp ++ [10%N]) :: ("comment"%string, wc)
                    :: ("natoms"%string, wn) :: groups st
    /\ Forall (fun c => cls_blank c = true) pre
    /\ wn <> [] /\ Forall (fun c => ascii_digit c = true) wn
    /\ Forall (fun c => cls_blank c = true) post
    /\ Forall (fun c => cls_any c = true) wc.
Proof.
  intros H. unfold FRAME_MATCH_REGEX in H.
  apply Matches_Seq_inv in H. destruct H as (s1 & M1 & H).
  apply Matches_Bol_inv in M1. destruct M1 as [-> Hbol].
  apply Matches_Seq_inv in H. destruct H as (s2 & M2 & H).
  apply Matches_Star_Chr_inv in M2. destruct M2 as (pre & Hpre & C2 & G2).
  apply Matches_Seq_inv in H. destruct H as (s3 & M3 & H).
  apply Matches_Grp_inv in M3. destruct M3 as (s3' & M3 & ->).
  apply Matches_Plus_Chr_inv in M3. destruct M3 as (wn & Hne & Hwn & C3 & G3).
  apply Matches_Seq_inv in H. destruct H as (s4 & M4 & H).
  apply Matches_Star_Chr_inv in M4. destruct M4 as (post & Hpost & C4 & G4).
  apply Matches_Seq_inv in H. destruct H as (s5 & M5 & H).
  apply Matches_Chr_inv in M5. destruct M5 as (c5 & Hc5 & C5 & G5).
  apply cls_newline_eq in Hc5. subst c5.
  apply Matches_Seq_inv in H. destruct H as (s6 & M6 & H).
  apply Matches_Grp_inv in M6. destruct M6 as (s6' & M6 & ->).
  apply Matches_Star_Chr_inv in M6. destruct M6 as (wc & Hwc & C6 & G6).
  apply Matches_Seq_inv in H. destruct H as (s7 & M7 & H).
  apply Matches_Chr_inv in M7. destruct M7 as (c7 & Hc7 & C7 & G7).
  apply cls_newline_eq in Hc7. subst c7.
  apply Matches_Grp_inv in H. destruct H as (s8 & M8 & ->).
  apply frame_lines_shape in M8. destruct M8 as (wp & C8 & G8).
  exists pre, wn, post, wc, wp.
  split; [assumption|]. split; [|split].
  - apply consumed_close.
    eapply consumed_trans; [exact C2|].
    eapply consumed_trans; [apply consumed_close; exact C3|].
    eapply consumed_trans; [exact C4|].
    eapply consumed_trans; [exact C5|].
    eapply consumed_trans; [apply consumed_close; exact C6|].
    eapply consumed_trans; [exact C7|]. exact C8.
  - rewrite (close_group_groups _ _ _ _ C8), G8, G7.
    rewrite (close_group_groups _ _ _ _ C6), G6, G5, G4.
    rewrite (close_group_groups _ _ _ _ C3), G3, G2. reflexivity.
  - repeat split; assumption.
Qed.

End FrameShape.

(** ** The scan of [finditer] *)


Lemma state_at_whole s p : whole (state_at s p) = s.
Proof. unfold whole, state_at. cbn. rewrite rev_involutive. apply firstn_skipn. Qed.

Lemma state_at_before s p : p <= length s -> length (before (state_at s p)) = p.
Proof. intros H. cbn. rewrite length_rev, length_firstn. lia. Qed.

(** A state without groups is the scan state of its offset. *)
Lemma state_at_unique st :
  groups st = [] -> st = state_at (whole st) (length (before st)).
Proof.
  destruct st as [b r g]. cbn. intros ->. unfold state_at, whole. cbn.
  rewrite <- (length_rev b) at 1 2.
  rewrite firstn_app, Nat.sub_diag, firstn_all, firstn_0, app_nil_r, rev_involutive.
  rewrite skipn_app, Nat.sub_diag, skipn_all. reflexivity.
Qed.

Lemma advance_state_at s p c t :
  p <= length s -> rest (state_at s p) = c :: t ->
  advance (state_at s p) c t = state_at s (S p).
Proof.
  intros Hp Hr.
  rewrite (state_at_unique (advance (state_at s p) c t)) by reflexivity.
  f_equal.
  - unfold whole. cbn [advance before rest]. cbn [rev]. rewrite <- app_assoc. cbn [app].
    rewrite <- Hr. apply state_at_whole.
  - cbn [advance before length]. rewrite state_at_before by assumption. reflexivity.
Qed.

Lemma clear_groups_state_at s st' :
  whole st' = s -> clear_groups st' = state_at s (length (before st')).
Proof.
  intros <-. rewrite (state_at_unique (clear_groups st')) by reflexivity. reflexivity.
Qed.

Section Scan.
Variable r : regex.
Variable s : list char.

(** The pattern never matches the empty text. *)
Hypothesis r_consumes : forall st st',
  m r st Some = Some st' -> length (rest st') < length (rest st).

Lemma found_end st st' :
  m r st Some = Some st' ->
  whole st' = whole st /\ length (before st) < length (before st')
  /\ length (before st') <= length (whole st).
Proof.
  intros H. pose proof (r_consumes _ _ H) as Hlt.
  apply m_sound in H. destruct H as (st2 & M & E). inversion E; subst st2.
  pose proof (Matches_whole _ _ _ M) as W. split; [assumption|].
  apply Matches_consumed in M. destruct M as (w & B & R).
  rewrite R, length_app in Hlt. rewrite B, length_app, length_rev.
  split; [lia|]. rewrite <- W. unfold whole. rewrite length_app, length_rev, B.
  rewrite length_app, length_rev. lia.
Qed.

(** One step of the scan from offset [p]. *)
Lemma finditer_from_step fuel p :
  p <= length s ->
  finditer_from r (S fuel) (state_at s p) =
  match m r (state_at s p) Some with
  | Some st' => match_of (state_at s p) st'
                :: finditer_from r fuel (state_at s (length (before st')))
  | None => if p <? length s then finditer_from r fuel (state_at s (S p)) else []
  end.
Proof.
  intros Hp. cbn [finditer_from].
  destruct (m r (state_at s p) Some) as [st'|] eqn:Em.
  - pose proof (r_consumes _ _ Em) as Hlt. apply Nat.ltb_lt in Hlt. rewrite Hlt.
    apply found_end in Em. destruct Em as (W & _). rewrite state_at_whole in W.
    rewrite (clear_groups_state_at s st' W). reflexivity.
  - destruct (rest (state_at s p)) as [|c t] eqn:Er.
    + cbn in Er. destruct (Nat.ltb_spec p (length s)); [|reflexivity].
      apply (f_equal (@length _)) in Er. rewrite length_skipn in Er. cbn in Er. lia.
    + rewrite (advance_state_at s p c t Hp Er).
      destruct (Nat.ltb_spec p (length s)); [reflexivity|].
      cbn in Er. apply (f_equal (@length _)) in Er. rewrite length_skipn in Er.
      cbn in Er. lia.
Qed.

(** The scan from offset [p]: what it reports was found where it says, in
    order and without overlap, and where it reports nothing from [p] on the
    pattern matched nothing. *)
Lemma finditer_from_spec : forall fuel p,
  p <= length s -> length s - p < fuel ->
  let l := finditer_from r fuel (state_at s p) in
  Forall (fun mt => p <= m_start mt /\ m_start mt < m_end mt <= length s
                    /\ found_at r s mt) l
  /\ StronglySorted (fun a b => m_end a <= m_start b) l
  /\ (forall q, p <= q <= length s ->
                (forall mt, In mt l -> q < m_start mt \/ m_end mt <= q) ->
                m r (state_at s q) Some = None).
Proof.
  induction fuel as [|fuel IH]; intros p Hp Hf; [lia|]. cbn zeta.
  rewrite finditer_from_step by assumption.
  destruct (m r (state_at s p) Some) as [st'|] eqn:Em.
  - pose proof (found_end _ _ Em) as (W & Hb & He).
    rewrite state_at_whole in W, He. rewrite state_at_before in Hb by assumption.
    set (e := length (before st')) in *.
    destruct (IH e He ltac:(lia)) as (Hall & Hsort & Hgap).
    assert (Hmt : m_start (match_of (state_at s p) st') = p)
      by (cbn; rewrite length_rev, length_firstn; lia).
    split; [|split].
    + constructor.
      * rewrite Hmt. cbn [match_of m_end]. fold e.
        split; [lia|]. split; [lia|]. split; [rewrite Hmt; lia|].
        eexists. rewrite Hmt. split; [exact Em|reflexivity].
      * revert Hall. apply Forall_impl. intros mt (H1 & H2 & H3).
        split; [lia|]. split; [lia|exact H3].
    + constructor; [assumption|].
      revert Hall. apply Forall_impl. intros mt (H1 & _). cbn [match_of m_end]. exact H1.
    + intros q Hq Hfree. apply Hgap.
      * specialize (Hfree _ (or_introl eq_refl)). rewrite Hmt in Hfree.
        cbn [match_of m_end] in Hfree. fold e in Hfree. lia.
      * intros mt Hin. apply Hfree. right. assumption.
  - destruct (Nat.ltb_spec p (length s)) as [Hlt|Hge].
    + destruct (IH (S p) Hlt ltac:(lia)) as (Hall & Hsort & Hgap).
      split; [|split].
      * revert Hall. apply Forall_impl. intros mt (H1 & H2 & H3).
        split; [lia|]. split; [lia|exact H3].
      * assumption.
      * intros q Hq Hfree. destruct (Nat.eq_dec q p) as [->|Hne]; [assumption|].
        apply Hgap; [lia|assumption].
    + split; [constructor|]. split; [constructor|].
      intros q Hq _. replace q with p by lia. assumption.
Qed.

End Scan.

(** ** The frame scan *)

Lemma frame_consumes fl st st' :
  m (FRAME_MATCH_REGEX fl) st Some = Some st' -> length (rest st') < length (rest st).
Proof.
  intros H. apply m_sound in H. destruct H as (st2 & M & E). inversion E; subst st2.
  apply frame_shape in M.
  destruct M as (pre & wn & post & wc & wp & _ & C & _).
  apply consumed_length in C. rewrite C, !length_app. cbn. lia.
Qed.

Lemma generate_str udb : forall blocks,
  generate udb true blocks = (map (str_frame udb) blocks, None).
Proof.
  induction blocks as [|b bs IH]; [reflexivity|].
  cbn [generate map]. unfold frame_of_block at 1. rewrite IH. reflexivity.
Qed.

Lemma parse_iter_str udb s :
  parse_iter udb (InStr s)
  = (map (str_frame udb) (py_finditer udb FRAME_MATCH_REGEX (PyStr s)), None).
Proof. unfold parse_iter. cbn [as_byteorstringlike]. apply generate_str. Qed.

Lemma finditer_spec r s :
  (forall st st', m r st Some = Some st' -> length (rest st') < length (rest st)) ->
  Forall (fun mt => m_start mt < m_end mt <= length s /\ found_at r s mt) (finditer r s)
  /\ StronglySorted (fun a b => m_end a <= m_start b) (finditer r s)
  /\ (forall q, q <= length s ->
                (forall mt, In mt (finditer r s) -> q < m_start mt \/ m_end mt <= q) ->
                m r (state_at s q) Some = None).
Proof.
  intros Hr. unfold finditer.
  replace (start_state s) with (state_at s 0) by reflexivity.
  destruct (finditer_from_spec r s Hr (S (length s)) 0 ltac:(lia) ltac:(lia))
    as (Hall & Hsort & Hgap).
  split; [|split].
  - revert Hall. apply Forall_impl. intros mt (_ & H). exact H.
  - exact Hsort.
  - intros q Hq. apply Hgap. lia.
Qed.


Lemma unterminated_excluded (x r body tail : list char) :
  x ++ 10%N :: r = body ++ tail -> Forall (fun c => c <> 10%N) tail ->
  length x + 1 <= length body.
Proof.
  intros E Ht. symmetry in E. apply app_eq_app in E. destruct E as (l & [[E1 E2]|[E1 E2]]).
  - destruct l as [|c l].
    + cbn in E2. subst tail. inversion Ht; subst. congruence.
    + subst body. rewrite length_app. cbn. lia.
  - subst tail. apply Forall_app in Ht. destruct Ht as [_ Ht].
    inversion Ht; subst. congruence.
Qed.

(** C10.  Whatever the frame pattern matches is made of lines that each end
    in a line break: the count line, the comment line, and the positions
    block, whose last character is a line break.  So text after the last
    line break of the input belongs to no frame, and the scan raises
    nothing about it. *)
Theorem frame_lines_end_in_newline (fl : flavour) (s : list char) (mt : pymatch) :
  In mt (finditer (FRAME_MATCH_REGEX fl) s) ->
  (exists pre wn post wc wp,
      matched_text s mt = pre ++ wn ++ post ++ [10%N] ++ wc ++ [10%N] ++ wp ++ [10%N]
      /\ group mt "natoms" = wn /\ group mt "comment" = wc
      /\ group mt "positions" = wp ++ [10%N]
      /\ Forall (fun c => cls_blank c = true) pre
      /\ wn <> [] /\ Forall (fun c => ascii_digit c = true) wn
      /\ Forall (fun c => cls_blank c = true) post
      /\ Forall (fun c => c <> 10%N) wc)
  /\ (forall body tail, s = body ++ tail -> Forall (fun c => c <> 10%N) tail ->
                        m_end mt <= length body)
  /\ (forall udb, snd (parse_iter udb (InStr s)) = None).
Proof.
  intros Hin.
  destruct (finditer_spec (FRAME_MATCH_REGEX fl) s (frame_consumes fl)) as (Hall & _ & _).
  rewrite Forall_forall in Hall. destruct (Hall mt Hin) as (Hspan & Hp & st' & Hm & Hmt).
  apply m_sound in Hm. destruct Hm as (st2 & M & E). inversion E; subst st2. clear E.
  pose proof (Matches_whole _ _ _ M) as W. rewrite state_at_whole in W.
  apply frame_shape in M.
  destruct M as (pre & wn & post & wc & wp & _ & C & G & Hpre & Hne & Hwn & Hpost & Hwc).
  set (w := pre ++ wn ++ post ++ [10%N] ++ wc ++ [10%N] ++ wp ++ [10%N]) in *.
  assert (Hend : m_end mt = m_start mt + length w).
  { rewrite Hmt at 1. cbn [match_of m_end]. destruct C as [B _]. rewrite B.
    rewrite length_app, length_rev, state_at_before by assumption.
    apply Nat.add_comm. }
  split; [|split].
  - exists pre, wn, post, wc, wp. fold w.
    split; [|split; [|split; [|split]]].
    + unfold matched_text. destruct C as [_ R]. cbn [state_at rest] in R.
      rewrite R, Hend. replace (m_start mt + length w - m_start mt) with (length w) by lia.
      rewrite firstn_app, Nat.sub_diag, firstn_all, firstn_0, app_nil_r. reflexivity.
    + unfold group. rewrite Hmt. cbn [match_of m_groups]. rewrite G. reflexivity.
    + unfold group. rewrite Hmt. cbn [match_of m_groups]. rewrite G. reflexivity.
    + unfold group. rewrite Hmt. cbn [match_of m_groups]. rewrite G. reflexivity.
    + repeat split; try assumption.
      revert Hwc. apply Forall_impl. intros c Hc E. subst c. discriminate.
  - intros body tail Hs Ht. destruct C as [B R].
    assert (Hs' : rev (before st') ++ rest st' = s) by exact W.
    rewrite B in Hs'. rewrite rev_app_distr, rev_involutive in Hs'.
    unfold w in Hs'. rewrite !app_assoc in Hs'.
    rewrite <- (app_assoc _ [10%N] (rest st')) in Hs'. cbn [app] in Hs'.
    rewrite Hs in Hs' at 2.
    pose proof (unterminated_excluded _ _ _ _ Hs' Ht) as Hlen.
    rewrite Hend. unfold w. rewrite !length_app in *. rewrite length_rev in Hlen.
    rewrite state_at_before in Hlen by assumption. cbn [length] in *. lia.
  - intros udb. rewrite parse_iter_str. reflexivity.
Qed.

(** ** The claims at work on concrete inputs *)

Lemma too_few_entries_witness :
  snd (__next__ ascii_only
         (fst (pull ascii_only 1 (frame_atoms (first_frame ascii_only too_few_input)))))
  = Raise (TypeError_smaller 1 2)
  /\ py_list ascii_only (frame_atoms (first_frame ascii_only too_few_input))
     = Some (inl (TypeError_smaller 1 2)).
Proof.
  pose proof (too_few_entries_raise ascii_only too_few_input
                (first_frame ascii_only too_few_input)) as H.
  vm_compute in H. vm_compute.
  destruct (H (or_introl eq_refl) eq_refl) as (_ & Hnext & Hlist).
  split; [exact Hnext|]. apply Hlist.
  repeat constructor. eexists. vm_compute. reflexivity.
Defined.

Lemma too_many_entries_witness :
  snd (__next__ ascii_only
         (fst (pull ascii_only 1 (frame_atoms (first_frame ascii_only too_many_input)))))
  = Raise (TypeError_larger 2 1).
Proof.
  pose proof (too_many_entries_raise ascii_only too_many_input
                (first_frame ascii_only too_many_input)) as H.
  vm_compute in H. vm_compute.
  exact (proj1 (proj2 (H (or_introl eq_refl) eq_refl))).
Defined.



Lemma unterminated_line_witness :
  m_end (nth 0 (finditer (FRAME_MATCH_REGEX BytesPattern) unterminated_text) no_match)
  <= 18.
Proof.
  assert (Hin : In (nth 0 (finditer (FRAME_MATCH_REGEX BytesPattern) unterminated_text)
                        no_match)
                   (finditer (FRAME_MATCH_REGEX BytesPattern) unterminated_text))
    by (vm_compute; left; reflexivity).
  destruct (frame_lines_end_in_newline BytesPattern unterminated_text _ Hin)
    as (_ & Hexcl & _).
  pose proof (Hexcl (unlines ["1"; "c"; "C 0.0 0.0 0.0"]) (codes "H 1.0 0.0 0.0")) as Hb.
  vm_compute in Hb. vm_compute. apply Hb; [reflexivity|].
  repeat constructor; discriminate.
Defined.

(** The frame scan passes over what is no frame: the lines of prose around
    the two frames leave no trace and raise nothing. *)
Example scan_between_frames (udb : unicode_db) :
  parse udb (InStr (unlines ["title"; "1"; "first"; "C 0.0 0.0 0.0"; "-- cut --"; "x y z";
                             "1"; "second"; "H 1.0 0.0 0.0"; "the end"]))
  = Some (inr [ {| natoms := 1; comment := PyStr (codes "first");
                   atoms := [(PyStr (codes "C"), (0%Q, 0%Q, 0%Q))] |};
                {| natoms := 1; comment := PyStr (codes "second");
                   atoms := [(PyStr (codes "H"), (1%Q, 0%Q, 0%Q))] |} ]).
Proof. vm_compute. reflexivity. Qed.

(** C2, the scenario of the specification: two declared, one found. *)
Example two_declared_one_found (udb : unicode_db) :
  parse udb too_few_input = Some (inl (TypeError_smaller 1 2)).
Proof. vm_compute. reflexivity. Qed.

(** C8 fails on the code.  A fourth column after the three coordinates is
    not ignored: the position pattern takes the blank for an exponent mark
    and the digit after it for the exponent, the group [z] holds ["0.0 1"],
    and [float] raises. *)
Theorem extra_column_breaks_float (udb : unicode_db) :
  parse udb (InStr extra_column_text)
  = Some (inl (ValueError (PyStr (codes "0.0 1"))))
  /\ parse udb (InStr one_atom_text)
     = Some (inr [ {| natoms := 1; comment := PyStr (codes "c");
                      atoms := [(PyStr (codes "C"), (0%Q, 0%Q, 0%Q))] |} ]).
Proof. split; vm_compute; reflexivity. Qed.

(** C6 fails on the code.  From [bytes] the comment is decoded to a [str]
    but the symbol is handed out as the [bytes] the match holds, so the two
    results differ on the plainest frame. *)
Theorem bytes_symbol_not_decoded (udb : unicode_db) :
  parse udb (InStr one_atom_text)
  = Some (inr [ {| natoms := 1; comment := PyStr (codes "c");
                   atoms := [(PyStr (codes "C"), (0%Q, 0%Q, 0%Q))] |} ])
  /\ parse udb (InBytes (utf8_encode one_atom_text))
     = Some (inr [ {| natoms := 1; comment := PyStr (codes "c");
                      atoms := [(PyBytes (codes "C"), (0%Q, 0%Q, 0%Q))] |} ])
  /\ parse udb (InStr one_atom_text) <> parse udb (InBytes (utf8_encode one_atom_text)).
Proof.
  assert (Hs : parse udb (InStr one_atom_text)
               = Some (inr [ {| natoms := 1; comment := PyStr (codes "c");
                                atoms := [(PyStr (codes "C"), (0%Q, 0%Q, 0%Q))] |} ]))
    by (vm_compute; reflexivity).
  assert (Hb : parse udb (InBytes (utf8_encode one_atom_text))
               = Some (inr [ {| natoms := 1; comment := PyStr (codes "c");
                                atoms := [(PyBytes (codes "C"), (0%Q, 0%Q, 0%Q))] |} ]))
    by (vm_compute; reflexivity).
  split; [exact Hs|]. split; [exact Hb|]. rewrite Hs, Hb. discriminate.
Qed.

(** * Further properties of the code *)

(** ** The iterator after its errors *)

Section Iterator.
Variable udb : unicode_db.

(** A call consumes the match it finds, if there is one, and counts it,
    whatever it goes on to do. *)
Lemma next_state (it : BlockIterator) :
  fst (__next__ udb it) =
  {| _it := tl (_it it); _natoms := _natoms it;
     _catom := (_catom it + N.of_nat (Nat.min 1 (length (_it it))))%N |}.
Proof.
  destruct it as [ms n c]. destruct ms as [|mo ms]; unfold __next__; cbn.
  - rewrite N.add_0_r. destruct (c =? n)%N; reflexivity.
  - destruct (n <? c + 1)%N; [reflexivity|]. destruct (entry udb mo); reflexivity.
Qed.

Lemma pull_state : forall k it,
  fst (pull udb k it) =
  {| _it := skipn k (_it it); _natoms := _natoms it;
     _catom := (_catom it + N.of_nat (Nat.min k (length (_it it))))%N |}.
Proof.
  induction k as [|k IH]; intros it.
  - destruct it as [ms n c]. cbn. rewrite N.add_0_r. reflexivity.
  - cbn [pull]. pose proof (next_state it) as Hn.
    destruct (__next__ udb it) as [it1 o]. cbn [fst] in Hn.
    pose proof (IH it1) as Hk. destruct (pull udb k it1) as [it2 os]. cbn [fst] in *.
    rewrite Hk, Hn. cbn [_it _natoms _catom].
    destruct (_it it) as [|mo ms]; cbn [tl length skipn].
    + rewrite skipn_nil. f_equal. destruct k; cbn; lia.
    + f_equal. lia.
Qed.

Lemma pull_app : forall j k it,
  pull udb (j + k) it =
  (fst (pull udb k (fst (pull udb j it))),
   snd (pull udb j it) ++ snd (pull udb k (fst (pull udb j it)))).
Proof.
  induction j as [|j IH]; intros k it.
  - cbn. destruct (pull udb k it); reflexivity.
  - cbn [Nat.add pull]. destruct (__next__ udb it) as [it1 o].
    rewrite IH. destruct (pull udb j it1) as [it2 os]. reflexivity.
Qed.

(** Once the counter has passed the declared count no call returns an entry
    or stops the iteration: each one raises a count mismatch. *)
Lemma pull_overshot : forall k it,
  (_natoms it < _catom it)%N ->
  Forall (fun o => is_count_mismatch o = true) (snd (pull udb k it)).
Proof.
  induction k as [|k IH]; intros it Hlt; [constructor|].
  cbn [pull]. pose proof (next_state it) as Hn.
  assert (Ho : is_count_mismatch (snd (__next__ udb it)) = true).
  { destruct it as [ms n c]. cbn in Hlt. destruct ms as [|mo ms]; unfold __next__; cbn.
    - destruct (N.eqb_spec c n); [lia|reflexivity].
    - destruct (N.ltb_spec n (c + 1)); [reflexivity|lia]. }
  destruct (__next__ udb it) as [it1 o]. cbn [fst snd] in *.
  assert (Hlt1 : (_natoms it1 < _catom it1)%N) by (rewrite Hn; cbn; lia).
  specialize (IH it1 Hlt1). destruct (pull udb k it1) as [it2 os]. cbn [snd] in *.
  constructor; assumption.
Qed.

(** With no match left every call does what the last one did and leaves the
    iterator as it is. *)
Lemma pull_exhausted : forall k it,
  _it it = [] ->
  pull udb k it = (it, repeat (snd (__next__ udb it)) k).
Proof.
  induction k as [|k IH]; intros it He; [reflexivity|].
  cbn [pull repeat]. rewrite (next_exhausted udb it He). cbn [snd].
  rewrite (IH it He). rewrite (next_exhausted udb it He). reflexivity.
Qed.

End Iterator.

Lemma pull_length udb : forall k it, length (snd (pull udb k it)) = k.
Proof.
  induction k as [|k IH]; intros it; [reflexivity|].
  cbn [pull]. destruct (__next__ udb it) as [it1 o]. specialize (IH it1).
  destruct (pull udb k it1) as [it2 os]. cbn in *. congruence.
Qed.

Lemma pull_fresh_state udb inp f k :
  In f (fst (parse_iter udb inp)) ->
  fst (pull udb k (frame_atoms f)) =
  {| _it := skipn k (_it (frame_atoms f)); _natoms := frame_natoms f;
     _catom := N.of_nat (Nat.min k (found f)) |}.
Proof.
  intros Hin. rewrite pull_state. rewrite (parse_iter_fresh udb inp f Hin) at 2 3 4.
  cbn [_it _natoms _catom]. reflexivity.
Qed.

(** X1.  The counter of a frame's iterator is the number of position lines
    consumed so far, whatever the calls returned or raised; the declared
    count never changes and no position line is consumed twice. *)
Theorem iterator_counts_consumed (udb : unicode_db) (inp : pyinput) (f : frame) (k : nat) :
  In f (fst (parse_iter udb inp)) ->
  fst (pull udb k (frame_atoms f)) =
  {| _it := skipn k (_it (frame_atoms f)); _natoms := frame_natoms f;
     _catom := N.of_nat (Nat.min k (found f)) |}.
Proof.
  intros Hin. rewrite pull_state. rewrite (parse_iter_fresh udb inp f Hin) at 2 3 4.
  cbn [_it _natoms _catom]. reflexivity.
Qed.

(** X2.  After the call that raised the "larger" error the iterator never
    recovers: every later call raises a count mismatch, none returns an entry
    or ends the iteration; and when the position lines run out the error is
    the "smaller" one, although it then reports a count above the declared
    one. *)
Theorem overshoot_is_final (udb : unicode_db) (inp : pyinput) (f : frame) (k : nat) :
  In f (fst (parse_iter udb inp)) ->
  (frame_natoms f < N.of_nat (found f))%N ->
  Forall (fun o => is_count_mismatch o = true)
         (skipn (N.to_nat (frame_natoms f))
                (snd (pull udb (N.to_nat (frame_natoms f) + k) (frame_atoms f))))
  /\ snd (__next__ udb (fst (pull udb (found f) (frame_atoms f))))
     = Raise (TypeError_smaller (N.of_nat (found f)) (frame_natoms f)).
Proof.
  intros Hin Hlt. split.
  - rewrite pull_app. cbn [snd].
    rewrite skipn_app, pull_length, Nat.sub_diag, skipn_all2 by (rewrite pull_length; lia).
    cbn [app skipn].
    rewrite (pull_fresh_state udb inp f _ Hin).
    rewrite Nat.min_l by lia. rewrite N2Nat.id.
    destruct k as [|k]; [constructor|].
    cbn [pull].
    set (it0 := {| _it := skipn (N.to_nat (frame_natoms f)) (_it (frame_atoms f));
                   _natoms := frame_natoms f; _catom := frame_natoms f |}).
    pose proof (next_state udb it0) as Hn.
    assert (Hne : exists mo rest, _it it0 = mo :: rest).
    { destruct (_it it0) as [|mo rest] eqn:E; [|eauto].
      apply (f_equal (@length _)) in E. unfold it0 in E. cbn in E.
      rewrite length_skipn in E. unfold found in Hlt. lia. }
    destruct Hne as (mo & rest & Hne).
    pose proof (next_beyond udb it0 mo rest Hne ltac:(unfold it0; cbn; lia)) as Ho.
    destruct (__next__ udb it0) as [it1 o]. cbn [fst snd] in *.
    assert (Hover : (_natoms it1 < _catom it1)%N).
    { rewrite Hn, Hne. unfold it0. cbn. lia. }
    pose proof (pull_overshot udb k it1 Hover) as Hrest.
    destruct (pull udb k it1) as [it2 os]. cbn [snd] in *.
    constructor; [rewrite Ho; reflexivity | assumption].
  - rewrite (pull_fresh_state udb inp f _ Hin).
    rewrite Nat.min_id. unfold found. rewrite skipn_all.
    rewrite next_exhausted by reflexivity. cbn.
    destruct (N.eqb_spec (N.of_nat (length (_it (frame_atoms f)))) (frame_natoms f));
      [unfold found in Hlt; lia | reflexivity].
Qed.

(** X3.  A drained iterator stays drained.  Once the position lines are used
    up every further call does the same thing and changes nothing:
    [StopIteration] again when the count was right, the same "smaller" error
    again when it was not. *)
Theorem drained_stays_drained (udb : unicode_db) (inp : pyinput) (f : frame) (k : nat) :
  In f (fst (parse_iter udb inp)) ->
  pull udb k (fst (pull udb (found f) (frame_atoms f)))
  = (fst (pull udb (found f) (frame_atoms f)),
     repeat (if (N.of_nat (found f) =? frame_natoms f)%N then StopIteration
             else Raise (TypeError_smaller (N.of_nat (found f)) (frame_natoms f))) k).
Proof.
  intros Hin. rewrite (pull_fresh_state udb inp f _ Hin).
  rewrite Nat.min_id. unfold found. rewrite skipn_all.
  rewrite pull_exhausted by reflexivity.
  rewrite next_exhausted by reflexivity. reflexivity.
Qed.

Lemma entries_unique udb : forall ms l1 l2,
  Forall2 (fun mo a => entry udb mo = inr a) ms l1 ->
  Forall2 (fun mo a => entry udb mo = inr a) ms l2 -> l1 = l2.
Proof.
  induction ms as [|mo ms IH]; intros l1 l2 H1 H2; inversion H1; inversion H2; subst.
  - reflexivity.
  - f_equal; [congruence | auto].
Qed.

(** X4.  [list(atomiter)] of a frame returns a list exactly when the frame
    holds as many position lines as it declares and each of them converts,
    and the list then holds their entries in order. *)
Theorem list_returns_iff_count_right (udb : unicode_db) (inp : pyinput) (f : frame)
    (l : list atom) :
  In f (fst (parse_iter udb inp)) ->
  (py_list udb (frame_atoms f) = Some (inr l)
   <-> N.of_nat (found f) = frame_natoms f
       /\ Forall2 (fun mo a => entry udb mo = inr a) (_it (frame_atoms f)) l).
Proof.
  intros Hin. pose proof (parse_iter_fresh udb inp f Hin) as Hf.
  rewrite (py_list_fresh udb f Hf). split.
  - intros H. inversion H as [Hd]. apply drain_spec_returns in Hd.
    destruct Hd as [Hn Hl]. split; [unfold found; lia | exact Hl].
  - intros [Hn Hl]. unfold found in Hn.
    assert (Hall : Forall (converts udb) (_it (frame_atoms f))).
    { clear -Hl. induction Hl; constructor; [eexists; eassumption | assumption]. }
    destruct (drain_spec_exact udb _ (frame_natoms f) 0%N Hall ltac:(lia)) as [l' Hl'].
    rewrite Hl'. f_equal. f_equal.
    apply drain_spec_returns in Hl'. destruct Hl' as [_ Hl'].
    exact (entries_unique udb _ _ _ Hl' Hl).
Qed.

(** ** What [parse] returns and what it raises *)

Lemma Forall2_same_length (A B : Type) (R : A -> B -> Prop) (la : list A) (lb : list B) :
  Forall2 R la lb -> length la = length lb.
Proof. induction 1; cbn; congruence. Qed.

Lemma parse_returns udb inp rs :
  parse udb inp = Some (inr rs) ->
  snd (parse_iter udb inp) = None
  /\ Forall2 (record_of udb) (fst (parse_iter udb inp)) rs
  /\ Forall (fun f => ~ mismatched f) (fst (parse_iter udb inp)).
Proof.
  intros H. pose proof (parse_iter_all_fresh udb inp) as Hfresh.
  unfold parse in H. destruct (parse_iter udb inp) as [frames ending]. cbn [fst snd] in *.
  exact (comprehend_returns udb frames ending rs Hfresh H).
Qed.

(** X5.  A list returned by [parse] is complete and consistent: the frame
    generator ended without an exception, there is one record for each frame
    it yielded, in the same order and with the frame's count and comment, and
    each record holds exactly as many atoms as it declares. *)
Theorem parse_result_consistent (udb : unicode_db) (inp : pyinput)
    (rs : list frame_record) :
  parse udb inp = Some (inr rs) ->
  snd (parse_iter udb inp) = None
  /\ Forall2 (record_of udb) (fst (parse_iter udb inp)) rs
  /\ Forall (fun r => N.of_nat (length (atoms r)) = natoms r) rs.
Proof.
  intros H. pose proof (parse_iter_all_fresh udb inp) as Hfresh.
  unfold parse in H. destruct (parse_iter udb inp) as [frames ending]. cbn [fst snd] in *.
  destruct (comprehend_returns udb frames ending rs Hfresh H) as (He & Hrs & Hnm).
  split; [exact He|]. split; [exact Hrs|].
  clear H Hfresh He. induction Hrs as [|f r fs rs' Hr Hrs IH]; constructor.
  - inversion Hnm as [|? ? Hf _]; subst. destruct Hr as (Hn & _ & Hl).
    apply Forall2_same_length in Hl. rewrite Hn, <- Hl.
    unfold mismatched, found in Hf.
    destruct (N.eq_dec (N.of_nat (length (_it (frame_atoms f)))) (frame_natoms f));
      [assumption | contradiction].
  - inversion Hnm; subst. apply IH. assumption.
Qed.







(** ** The frame generator on [bytes] *)



(** ** What the position pattern captures *)

Section PosShape.
Variable fl : flavour.

Lemma alpha_is_alnum c : cls_alpha c = true -> cls_alnum c = true.
Proof. unfold cls_alnum. intros ->. reflexivity. Qed.

Lemma sym_shape st st' :
  Matches (Plus (Chr cls_alpha) ;; Star (Chr cls_alnum))%re st st' ->
  exists w, symbol_ok w /\ consumed st st' w /\ groups st' = groups st.
Proof.
  intros H. apply Matches_Seq_inv in H. destruct H as (s1 & M1 & M2).
  apply Matches_Plus_Chr_inv in M1. destruct M1 as (w1 & Hne & Hw1 & C1 & G1).
  apply Matches_Star_Chr_inv in M2. destruct M2 as (w2 & Hw2 & C2 & G2).
  exists (w1 ++ w2). split; [|split].
  - destruct w1 as [|c t]; [contradiction|]. inversion Hw1; subst.
    exists c, (t ++ w2). split; [reflexivity|]. split; [assumption|].
    apply Forall_app. split; [|assumption].
    eapply Forall_impl; [|eassumption]. apply alpha_is_alnum.
  - eapply consumed_trans; eassumption.
  - congruence.
Qed.

Lemma number_shape st st' :
  Matches (pos_number fl) st st' ->
  exists w, token fl w /\ consumed st st' w /\ groups st' = groups st.
Proof.
  intros H. destruct (Matches_consumed _ _ _ H) as (w & C).
  exists w. split; [exists st, st'; split; assumption|]. split; [assumption|].
  apply (Matches_groupless _ _ _ H). reflexivity.
Qed.

(** The shape of everything the position pattern matches. *)
Lemma pos_shape st st' :
  Matches (POS_MATCH_REGEX fl) st st' ->
  exists lead sym ws x s2 y s3 z,
    at_line_start st = true
    /\ consumed st st' (lead ++ sym ++ ws ++ x ++ s2 ++ y ++ s3 ++ z)
    /\ groups st' = ("z", z) :: ("y", y) :: ("x", x) :: ("sym", sym) :: groups st
    /\ symbol_ok sym /\ token fl x /\ token fl y /\ token fl z.
Proof.
  intros H. unfold POS_MATCH_REGEX in H.
  apply Matches_Seq_inv in H. destruct H as (s1 & M1 & H).
  apply Matches_Bol_inv in M1. destruct M1 as [-> Hbol].
  apply Matches_Seq_inv in H. destruct H as (s2' & M2 & H).
  apply Matches_Star_Chr_inv in M2. destruct M2 as (lead & _ & C2 & G2).
  apply Matches_Seq_inv in H. destruct H as (s3' & M3 & H).
  apply Matches_Grp_inv in M3. destruct M3 as (t3 & M3 & ->).
  apply sym_shape in M3. destruct M3 as (sym & Hsym & C3 & G3).
  apply Matches_Seq_inv in H. destruct H as (s4 & M4 & H).
  apply Matches_Plus_Chr_inv in M4. destruct M4 as (ws & _ & _ & C4 & G4).
  apply Matches_Seq_inv in H. destruct H as (s5 & M5 & H).
  apply Matches_Grp_inv in M5. destruct M5 as (t5 & M5 & ->).
  apply number_shape in M5. destruct M5 as (x & Hx & C5 & G5).
  apply Matches_Seq_inv in H. destruct H as (s6 & M6 & H).
  apply Matches_Plus_Chr_inv in M6. destruct M6 as (sep2 & _ & _ & C6 & G6).
  apply Matches_Seq_inv in H. destruct H as (s7 & M7 & H).
  apply Matches_Grp_inv in M7. destruct M7 as (t7 & M7 & ->).
  apply number_shape in M7. destruct M7 as (y & Hy & C7 & G7).
  apply Matches_Seq_inv in H. destruct H as (s8 & M8 & H).
  apply Matches_Plus_Chr_inv in M8. destruct M8 as (sep3 & _ & _ & C8 & G8).
  apply Matches_Grp_inv in H. destruct H as (t9 & M9 & ->).
  apply number_shape in M9. destruct M9 as (z & Hz & C9 & G9).
  exists lead, sym, ws, x, sep2, y, sep3, z.
  split; [assumption|]. split; [|split].
  - apply consumed_close.
    eapply consumed_trans; [exact C2|].
    eapply consumed_trans; [apply consumed_close; exact C3|].
    eapply consumed_trans; [exact C4|].
    eapply consumed_trans; [apply consumed_close; exact C5|].
    eapply consumed_trans; [exact C6|].
    eapply consumed_trans; [apply consumed_close; exact C7|].
    eapply consumed_trans; [exact C8|]. exact C9.
  - rewrite (close_group_groups _ _ _ _ C9), G9, G8.
    rewrite (close_group_groups _ _ _ _ C7), G7, G6.
    rewrite (close_group_groups _ _ _ _ C5), G5, G4.
    rewrite (close_group_groups _ _ _ _ C3), G3, G2. reflexivity.
  - repeat split; assumption.
Qed.

Lemma pos_consumes st st' :
  m (POS_MATCH_REGEX fl) st Some = Some st' -> length (rest st') < length (rest st).
Proof.
  intros H. apply m_sound in H. destruct H as (st2 & M & E). inversion E; subst st2.
  apply pos_shape in M.
  destruct M as (lead & sym & ws & x & s2 & y & s3 & z & _ & C & _ & (c & t & -> & _) & _).
  apply consumed_length in C. rewrite C, !length_app. cbn. lia.
Qed.

(** Each match [finditer] reports for the position pattern starts a line
    and holds a symbol and three tokens. *)
Lemma pos_match_shape (s : list char) (mt : pymatch) :
  In mt (finditer (POS_MATCH_REGEX fl) s) ->
  at_line_start (state_at s (m_start mt)) = true
  /\ symbol_ok (group mt "sym")
  /\ token fl (group mt "x") /\ token fl (group mt "y") /\ token fl (group mt "z").
Proof.
  intros Hin.
  destruct (finditer_spec (POS_MATCH_REGEX fl) s pos_consumes) as (Hall & _ & _).
  rewrite Forall_forall in Hall. destruct (Hall mt Hin) as (_ & _ & st' & Hm & Hmt).
  apply m_sound in Hm. destruct Hm as (st2 & M & E). inversion E; subst st2. clear E.
  apply pos_shape in M.
  destruct M as (lead & sym & ws & x & s2 & y & s3 & z & Hb & _ & G & Hs & Hx & Hy & Hz).
  split; [exact Hb|].
  unfold group. rewrite Hmt. cbn [match_of m_groups]. rewrite G. cbn.
  repeat split; assumption.
Qed.

End PosShape.

Lemma text_chars_retag like s : text_chars (retag like s) = s.
Proof. destruct like; reflexivity. Qed.

Lemma is_str_retag like s : is_str (retag like s) = is_str like.
Proof. destruct like; reflexivity. Qed.

Lemma flavour_of_retag udb like s : flavour_of udb (retag like s) = flavour_of udb like.
Proof. destruct like; reflexivity. Qed.

Lemma content_kind inp : is_str (fst (as_byteorstringlike inp)) = snd (as_byteorstringlike inp).
Proof. destruct inp; reflexivity. Qed.

Lemma py_finditer_member udb pattern content mo :
  In mo (py_finditer udb pattern content) ->
  mo_text mo = content
  /\ In (mo_match mo) (finditer (pattern (flavour_of udb content)) (text_chars content)).
Proof.
  unfold py_finditer. intros H. apply in_map_iff in H. destruct H as (mt & <- & Hin).
  split; [reflexivity | exact Hin].
Qed.

Lemma generate_origin udb is_string : forall blocks f,
  In f (fst (generate udb is_string blocks)) ->
  exists block, In block blocks /\ frame_of_block udb is_string block = inr f.
Proof.
  induction blocks as [|b bs IH]; intros f Hin; [destruct Hin|].
  cbn [generate] in Hin. destruct (frame_of_block udb is_string b) as [e|g] eqn:Eb;
    [destruct Hin|].
  destruct (generate udb is_string bs) as [fs e]. cbn [fst] in *.
  destruct Hin as [<-|Hin].
  - exists b. split; [left; reflexivity | exact Eb].
  - destruct (IH f Hin) as (block & Hb & Hf). exists block. split; [right|]; assumption.
Qed.

(** The comment of a frame is a [str]; its position matches are those of the
    position pattern over the block's [positions] group, of the kind of the
    input. *)
Lemma frame_origin udb inp f :
  In f (fst (parse_iter udb inp)) ->
  is_str (frame_comment f) = true
  /\ exists positions,
       is_str positions = snd (as_byteorstringlike inp)
       /\ _it (frame_atoms f) = py_finditer udb POS_MATCH_REGEX positions.
Proof.
  pose proof (content_kind inp) as Hk. unfold parse_iter.
  destruct (as_byteorstringlike inp) as [content is_string]. cbn [fst snd] in *.
  intros Hin. apply generate_origin in Hin. destruct Hin as (block & Hb & Hf).
  apply py_finditer_member in Hb. destruct Hb as [Ht _].
  unfold frame_of_block in Hf.
  assert (Hp : is_str (mo_group block "positions") = is_string)
    by (unfold mo_group; rewrite is_str_retag, Ht; exact Hk).
  destruct is_string.
  - inversion Hf; subst f. unfold frame_comment, frame_atoms, __init__.
    cbn [fst snd _it]. split.
    + unfold mo_group. rewrite is_str_retag, Ht. exact Hk.
    + exists (mo_group block "positions"). split; [exact Hp | exact eq_refl].
  - destruct (utf8_decode _); inversion Hf; subst f.
    unfold frame_comment, frame_atoms, __init__. cbn [fst snd _it is_str].
    split; [exact eq_refl|].
    exists (mo_group block "positions"). split; [exact Hp | exact eq_refl].
Qed.

Lemma entry_symbol udb mo a : entry udb mo = inr a -> fst a = mo_group mo "sym".
Proof.
  unfold entry. intros H.
  destruct (py_float udb (mo_group mo "x")); [discriminate|].
  destruct (py_float udb (mo_group mo "y")); [discriminate|].
  destruct (py_float udb (mo_group mo "z")); [discriminate|].
  inversion H. reflexivity.
Qed.

Lemma Forall2_transfer (A B : Type) (P : A -> Prop) (Q : B -> Prop) (R : A -> B -> Prop) :
  (forall a b, P a -> R a b -> Q b) ->
  forall la lb, Forall2 R la lb -> Forall P la -> Forall Q lb.
Proof.
  intros HPQ la lb H. induction H as [|a b la lb Hab _ IH]; intros HP; [constructor|].
  inversion HP; subst. constructor; [eapply HPQ; eassumption | auto].
Qed.

(** X8.  In every list [parse] returns the comments are [str], and each
    symbol is a letter followed by letters and digits, of the kind of the
    input: a [str] from a [str], a [bytes] object from [bytes] or a file. *)
Theorem symbols_keep_input_kind (udb : unicode_db) (inp : pyinput)
    (rs : list frame_record) :
  parse udb inp = Some (inr rs) ->
  Forall (fun r =>
            is_str (comment r) = true
            /\ Forall (fun a => symbol_ok (text_chars (fst a))
                                /\ is_str (fst a) = snd (as_byteorstringlike inp))
                      (atoms r)) rs.
Proof.
  intros H. apply parse_returns in H. destruct H as (_ & Hrs & _).
  refine (Forall2_transfer _ _ (fun f => In f (fst (parse_iter udb inp))) _ _ _ _ _ Hrs _);
    [|apply Forall_forall; auto].
  intros f r Hf (_ & Hc & Hl).
  destruct (frame_origin udb inp f Hf) as (Hcs & positions & Hk & Hit).
  split; [rewrite Hc; exact Hcs|].
  rewrite Hit in Hl.
  refine (Forall2_transfer _ _
            (fun mo => In mo (py_finditer udb POS_MATCH_REGEX positions)) _ _ _ _ _ Hl _);
    [|apply Forall_forall; auto].
  intros mo a Hmo Ha.
  apply entry_symbol in Ha. rewrite Ha.
  apply py_finditer_member in Hmo. destruct Hmo as [Ht Hmt].
  apply pos_match_shape in Hmt. destruct Hmt as (_ & Hs & _).
  unfold mo_group. rewrite text_chars_retag, is_str_retag, Ht.
  split; [exact Hs | exact Hk].
Qed.

(** ** Which coordinate tokens [float] accepts *)

Section Tokens.
Variable fl : flavour.

Lemma Matches_Opt_Chr_inv p st st' :
  Matches (Opt (Chr p)) st st' ->
  exists w, opt_char p w /\ consumed st st' w.
Proof.
  intros H. apply Matches_Alt_inv in H. destruct H as [H|H].
  - apply Matches_Chr_inv in H. destruct H as (c & Hc & C & _).
    exists [c]. split; [right; exists c; auto | exact C].
  - apply Matches_Eps_inv in H. subst. exists []. split; [left; reflexivity|].
    apply consumed_refl.
Qed.

Lemma cls_dot_eq c : cls_dot c = true -> c = 46%N.
Proof. apply N.eqb_eq. Qed.

(** Every token is a number text. *)
Lemma token_number w : token fl w -> number_text fl w.
Proof.
  intros (st & st' & M & C). unfold pos_number in M.
  apply Matches_Seq_inv in M. destruct M as (s1 & M1 & M).
  apply Matches_Opt_Chr_inv in M1. destruct M1 as (sg & Hsg & C1).
  apply Matches_Seq_inv in M. destruct M as (s2 & M2 & M3).
  assert (Hnum : exists d1 dp, consumed s1 s2 (d1 ++ dp) /\ digits fl d1
                   /\ (dp = [] \/ exists d2, dp = 46%N :: d2 /\ digits fl d2)
                   /\ (d1 <> [] \/ exists d2, dp = 46%N :: d2 /\ d2 <> [])).
  { apply Matches_Alt_inv in M2. destruct M2 as [M2|M2].
    - apply Matches_Seq_inv in M2. destruct M2 as (t1 & A1 & M2).
      apply Matches_Seq_inv in M2. destruct M2 as (t2 & A2 & A3).
      apply Matches_Star_Chr_inv in A1. destruct A1 as (d1 & Hd1 & Ca & _).
      apply Matches_Chr_inv in A2. destruct A2 as (c & Hc & Cb & _).
      apply cls_dot_eq in Hc. subst c.
      apply Matches_Plus_Chr_inv in A3. destruct A3 as (d2 & Hne & Hd2 & Cc & _).
      exists d1, (46%N :: d2). split; [|split; [exact Hd1|split]].
      + eapply consumed_trans; [exact Ca|].
        change (46%N :: d2) with ([46%N] ++ d2). eapply consumed_trans; eassumption.
      + right. exists d2. split; [reflexivity | exact Hd2].
      + right. exists d2. split; [reflexivity | exact Hne].
    - apply Matches_Seq_inv in M2. destruct M2 as (t1 & A1 & M2).
      apply Matches_Seq_inv in M2. destruct M2 as (t2 & A2 & A3).
      apply Matches_Plus_Chr_inv in A1. destruct A1 as (d1 & Hne & Hd1 & Ca & _).
      apply Matches_Opt_Chr_inv in A2. destruct A2 as (dot & Hdot & Cb).
      apply Matches_Star_Chr_inv in A3. destruct A3 as (d2 & Hd2 & Cc & _).
      destruct Hdot as [->|(c & -> & Hc)].
      + exists (d1 ++ d2), []. split; [|split; [|split]].
        * rewrite app_nil_r. eapply consumed_trans; [exact Ca|].
          exact (consumed_trans _ _ _ _ _ Cb Cc).
        * apply Forall_app. split; assumption.
        * left. reflexivity.
        * left. destruct d1; [contradiction | discriminate].
      + apply cls_dot_eq in Hc. subst c.
        exists d1, (46%N :: d2). split; [|split; [exact Hd1|split]].
        * eapply consumed_trans; [exact Ca|].
          change (46%N :: d2) with ([46%N] ++ d2). eapply consumed_trans; eassumption.
        * right. exists d2. split; [reflexivity | exact Hd2].
        * left. exact Hne. }
  destruct Hnum as (d1 & dp & C2 & Hd1 & Hdp & Hsome).
  assert (Hex : exists ex, consumed s2 st' ex
                  /\ (ex = [] \/ exists e sg2 d3, ex = e :: sg2 ++ d3
                                    /\ cls_exp_mark e = true /\ opt_char cls_exp_sign sg2
                                    /\ digits fl d3 /\ d3 <> [])).
  { apply Matches_Alt_inv in M3. destruct M3 as [M3|M3].
    - apply Matches_Seq_inv in M3. destruct M3 as (t1 & A1 & M3).
      apply Matches_Seq_inv in M3. destruct M3 as (t2 & A2 & A3).
      apply Matches_Chr_inv in A1. destruct A1 as (e & He & Ca & _).
      apply Matches_Opt_Chr_inv in A2. destruct A2 as (sg2 & Hsg2 & Cb).
      apply Matches_Plus_Chr_inv in A3. destruct A3 as (d3 & Hne & Hd3 & Cc & _).
      exists (e :: sg2 ++ d3). split.
      + change (e :: sg2 ++ d3) with ([e] ++ sg2 ++ d3).
        eapply consumed_trans; [exact Ca|]. eapply consumed_trans; eassumption.
      + right. exists e, sg2, d3. repeat split; assumption.
    - apply Matches_Eps_inv in M3. subst. exists []. split; [apply consumed_refl|].
      left. reflexivity. }
  destruct Hex as (ex & C3 & Hex).
  pose proof (consumed_trans _ _ _ _ _ C1 (consumed_trans _ _ _ _ _ C2 C3)) as Call.
  destruct C as [_ R], Call as [_ R']. rewrite R in R'. apply app_inv_tail in R'.
  exists sg, d1, dp, ex. split; [rewrite R', <- !app_assoc; reflexivity|].
  repeat split; assumption.
Qed.

End Tokens.

Section FloatTokens.
Variable udb : unicode_db.

Lemma digit_high_or_ascii fl c :
  cls_digit fl c = true -> ascii_digit c = true \/ (128 <= c)%N.
Proof.
  unfold cls_digit, digit_value. destruct (ascii_digit c); [auto|].
  destruct fl as [u|]; [|discriminate].
  destruct (N.ltb_spec c 128); [discriminate | auto].
Qed.

Lemma digit_is_no_mark fl c :
  cls_digit fl c = true ->
  c <> 32%N /\ c <> 124%N /\ c <> 43%N /\ c <> 45%N /\ c <> 46%N /\ c <> 69%N /\ c <> 101%N.
Proof.
  intros H. apply digit_high_or_ascii in H. destruct H as [H|H].
  - unfold ascii_digit, in_range in H. apply andb_true_iff in H. destruct H as [H1 H2].
    apply N.leb_le in H1, H2. repeat split; lia.
  - repeat split; lia.
Qed.

Lemma low_is_no_digit fl c :
  (c < 128)%N -> ascii_digit c = false -> cls_digit fl c = false.
Proof.
  intros Hc Ha. unfold cls_digit, digit_value. rewrite Ha.
  destruct fl as [u|]; [|reflexivity].
  destruct (N.ltb_spec c 128); [reflexivity | lia].
Qed.

Lemma take_digits_run fl : forall ds r acc n,
  digits fl ds -> stops_digits fl r ->
  exists v, take_digits fl (ds ++ r) acc n = (v, n + length ds, r).
Proof.
  induction ds as [|d ds IH]; intros r acc n Hd Hr.
  - exists acc. cbn [app length]. rewrite Nat.add_0_r.
    destruct r as [|c t]; [reflexivity|]. cbn in Hr |- *.
    unfold cls_digit in Hr. destruct (digit_value fl c); [discriminate | reflexivity].
  - inversion Hd as [|? ? Hd1 Hd2]; subst. cbn [app take_digits length].
    unfold cls_digit in Hd1. destruct (digit_value fl d) as [dv|]; [|discriminate].
    destruct (IH r (10 * acc + dv)%N (S n) Hd2 Hr) as [v Hv]. exists v.
    rewrite Hv. f_equal. f_equal. lia.
Qed.

Lemma take_digits_split fl : forall s acc n v n' r,
  take_digits fl s acc n = (v, n', r) ->
  exists ds, s = ds ++ r /\ digits fl ds /\ n' = n + length ds.
Proof.
  induction s as [|c t IH]; intros acc n v n' r H; cbn [take_digits] in H.
  - inversion H; subst. exists []. repeat split; [constructor | cbn; lia].
  - destruct (digit_value fl c) as [dv|] eqn:Ec.
    + apply IH in H. destruct H as (ds & -> & Hds & ->).
      exists (c :: ds). repeat split; [|cbn; lia].
      constructor; [unfold cls_digit; rewrite Ec; reflexivity | exact Hds].
    + inversion H; subst. exists []. repeat split; [constructor | cbn; lia].
Qed.

Lemma take_sign_split s neg s0 :
  take_sign s = (neg, s0) ->
  s = s0 \/ exists c, s = c :: s0 /\ (c = 45%N \/ c = 43%N).
Proof.
  unfold take_sign. destruct s as [|c t]; [intros H; inversion H; auto|].
  destruct (N.eqb_spec c 45); [intros H; inversion H; subst; right; eauto|].
  destruct (N.eqb_spec c 43); intros H; inversion H; subst; [right; eauto | auto].
Qed.

(** A sign is taken when there is one, and a digit or a point is left
    alone. *)
Lemma take_sign_run (p : char -> bool) sg r :
  opt_char p sg -> no_bar_no_blank sg ->
  (forall c, p c = true -> c = 45%N \/ c = 124%N \/ c = 43%N) ->
  match r with c :: _ => c <> 45%N /\ c <> 43%N | [] => True end ->
  exists neg, take_sign (sg ++ r) = (neg, r).
Proof.
  intros Hsg Hnb Hp Hr. destruct Hsg as [->|(c & -> & Hc)].
  - cbn [app]. unfold take_sign. destruct r as [|c t]; [eauto|]. destruct Hr as [H1 H2].
    destruct (N.eqb_spec c 45); [contradiction|].
    destruct (N.eqb_spec c 43); [contradiction|]. eauto.
  - inversion Hnb as [|? ? [_ Hbar] _]; subst. cbn [app]. unfold take_sign.
    destruct (Hp c Hc) as [ -> | [ -> | -> ] ];
      [exists true; reflexivity | exfalso; apply Hbar; reflexivity | exists false; reflexivity].
Qed.

Lemma pos_sign_cases c : cls_pos_sign c = true -> c = 45%N \/ c = 124%N \/ c = 43%N.
Proof.
  unfold cls_pos_sign. intros H. apply orb_true_iff in H. destruct H as [H|H].
  - apply orb_true_iff in H. destruct H as [H|H]; apply N.eqb_eq in H; auto.
  - apply N.eqb_eq in H; auto.
Qed.

Lemma exp_sign_cases c : cls_exp_sign c = true -> c = 45%N \/ c = 124%N \/ c = 43%N.
Proof.
  unfold cls_exp_sign. intros H. apply orb_true_iff in H. destruct H as [H|H].
  - apply orb_true_iff in H. destruct H as [H|H]; apply N.eqb_eq in H; auto.
  - apply N.eqb_eq in H; auto.
Qed.

Lemma exp_mark_cases c :
  cls_exp_mark c = true -> c = 69%N \/ c = 32%N \/ c = 124%N \/ c = 101%N.
Proof.
  unfold cls_exp_mark. intros H. apply orb_true_iff in H. destruct H as [H|H].
  - apply orb_true_iff in H. destruct H as [H|H].
    + apply orb_true_iff in H. destruct H as [H|H]; apply N.eqb_eq in H; auto.
    + apply N.eqb_eq in H; auto.
  - apply N.eqb_eq in H; auto.
Qed.

(** [float], stage by stage. *)
Lemma py_float_stages tok neg s0 ip ni s1 mant nf s2 :
  take_sign (text_chars tok) = (neg, s0) ->
  take_digits (flavour_of udb tok) s0 0%N 0 = (ip, ni, s1) ->
  match s1 with
  | c :: t => if (c =? 46)%N then take_digits (flavour_of udb tok) t ip 0 else (ip, 0, s1)
  | [] => (ip, 0, s1)
  end = (mant, nf, s2) ->
  py_float udb tok =
  if (ni + nf =? 0)%nat then inl (ValueError tok) else
  match s2 with
  | [] => inr (decimal neg mant (- Z.of_nat nf))
  | c :: t =>
      if (c =? 101)%N || (c =? 69)%N then
        let '(eneg, s3) := take_sign t in
        match take_digits (flavour_of udb tok) s3 0%N 0 with
        | (ev, S _, []) =>
            inr (decimal neg mant
                   ((if eneg then - Z.of_N ev else Z.of_N ev) - Z.of_nat nf))
        | _ => inl (ValueError tok)
        end
      else inl (ValueError tok)
  end.
Proof.
  intros H1 H2 H3. unfold py_float. rewrite H1, H2.
  destruct s1 as [|c t].
  - inversion H3; subst. reflexivity.
  - destruct (c =? 46)%N.
    + rewrite H3. reflexivity.
    + inversion H3; subst. reflexivity.
Qed.

End FloatTokens.

Section FloatAccepts.
Variable udb : unicode_db.

Lemma mark_stops_digits fl e t :
  cls_exp_mark e = true -> e <> 32%N /\ e <> 124%N ->
  stops_digits fl (e :: t) /\ (e =? 46)%N = false /\ (e =? 101)%N || (e =? 69)%N = true.
Proof.
  intros He [H1 H2].
  destruct (exp_mark_cases e He) as [ -> | [ -> | [ -> | -> ] ] ];
    try (exfalso; apply H1; reflexivity); try (exfalso; apply H2; reflexivity);
    (split; [cbn; apply low_is_no_digit; [lia | reflexivity] | split; reflexivity]).
Qed.

Lemma digits_head_no_sign fl d r :
  digits fl d -> d <> [] ->
  match d ++ r with c :: _ => c <> 45%N /\ c <> 43%N | [] => True end.
Proof.
  intros Hd Hne. destruct d as [|c d']; [congruence|].
  inversion Hd as [|? ? Hc _]; subst. cbn.
  pose proof (digit_is_no_mark fl c Hc). tauto.
Qed.

(** [float] accepts a coordinate text that holds no bar and no blank. *)
Lemma py_float_accepts tok :
  number_text (flavour_of udb tok) (text_chars tok) ->
  no_bar_no_blank (text_chars tok) ->
  exists q, py_float udb tok = inr q.
Proof.
  intros (sg & d1 & dp & ex & Hw & Hsg & Hd1 & Hdp & Hsome & Hex) Hnb.
  rewrite Hw in Hnb.
  apply Forall_app in Hnb. destruct Hnb as [Hnsg Hnb].
  apply Forall_app in Hnb. destruct Hnb as [_ Hnb].
  apply Forall_app in Hnb. destruct Hnb as [_ Hnex].
  assert (Hstop2 : stops_digits (flavour_of udb tok) ex).
  { destruct Hex as [ -> | (e & sg2 & d3 & -> & He & _)]; [exact I|].
    inversion Hnex as [|? ? Hne _]; subst.
    exact (proj1 (mark_stops_digits _ e (sg2 ++ d3) He Hne)). }
  assert (Hstop1 : stops_digits (flavour_of udb tok) (dp ++ ex)).
  { destruct Hdp as [ -> | (d2 & -> & _)]; [exact Hstop2|].
    cbn. apply low_is_no_digit; [lia | reflexivity]. }
  assert (Hhead : match d1 ++ dp ++ ex with
                  | c :: _ => c <> 45%N /\ c <> 43%N
                  | [] => True
                  end).
  { destruct d1 as [|c d1'].
    - destruct Hsome as [H | (d2 & -> & _)]; [congruence|]. cbn. split; discriminate.
    - exact (digits_head_no_sign _ (c :: d1') (dp ++ ex) Hd1 ltac:(discriminate)). }
  destruct (take_sign_run cls_pos_sign sg (d1 ++ dp ++ ex) Hsg Hnsg pos_sign_cases Hhead)
    as [neg Hts].
  destruct (take_digits_run (flavour_of udb tok) d1 (dp ++ ex) 0%N 0 Hd1 Hstop1)
    as [ip Htd1].
  assert (Hpt : exists mant nf,
            match dp ++ ex with
            | c :: t => if (c =? 46)%N
                        then take_digits (flavour_of udb tok) t ip 0
                        else (ip, 0, dp ++ ex)
            | [] => (ip, 0, dp ++ ex)
            end = (mant, nf, ex) /\ (0 + length d1 + nf =? 0)%nat = false).
  { destruct Hdp as [ -> | (d2 & -> & Hd2)].
    - cbn [app]. exists ip, 0. split.
      + destruct Hex as [ -> | (e & sg2 & d3 & -> & He & _)]; [reflexivity|].
        inversion Hnex as [|? ? Hne _]; subst.
        destruct (mark_stops_digits (flavour_of udb tok) e (sg2 ++ d3) He Hne) as (_ & -> & _).
        reflexivity.
      + destruct Hsome as [H | (d2 & Hc & _)]; [|discriminate Hc].
        destruct d1; [congruence | reflexivity].
    - cbn [app]. rewrite N.eqb_refl.
      destruct (take_digits_run (flavour_of udb tok) d2 ex ip 0 Hd2 Hstop2) as [mant Hm].
      exists mant, (0 + length d2). split; [exact Hm|].
      apply Nat.eqb_neq.
      destruct Hsome as [H | (d2' & Hc & Hne)].
      + destruct d1; [congruence | cbn; lia].
      + inversion Hc; subst. destruct d2'; [congruence | cbn; lia]. }
  destruct Hpt as (mant & nf & Hpt & Hnz).
  rewrite <- Hw in Hts.
  rewrite (py_float_stages udb tok neg _ ip _ _ mant nf ex Hts Htd1 Hpt), Hnz.
  destruct Hex as [ -> | (e & sg2 & d3 & -> & He & Hsg2 & Hd3 & Hne3)]; [eauto|].
  inversion Hnex as [|? ? Hne Hnt]; subst.
  destruct (mark_stops_digits (flavour_of udb tok) e (sg2 ++ d3) He Hne) as (_ & _ & ->).
  apply Forall_app in Hnt. destruct Hnt as [Hnsg2 _].
  destruct (take_sign_run cls_exp_sign sg2 d3 Hsg2 Hnsg2 exp_sign_cases) as [eneg Hes].
  { rewrite <- (app_nil_r d3). exact (digits_head_no_sign _ d3 [] Hd3 Hne3). }
  rewrite Hes.
  destruct (take_digits_run (flavour_of udb tok) d3 [] 0%N 0 Hd3 I) as [ev Hev].
  rewrite app_nil_r in Hev. rewrite Hev.
  destruct d3 as [|c d3']; [congruence|]. cbn [length Nat.add]. eauto.
Qed.

(** What [float] accepts holds only signs, digits, a point and an exponent
    mark: no bar, no blank. *)
Lemma py_float_chars tok q :
  py_float udb tok = inr q -> no_bar_no_blank (text_chars tok).
Proof.
  intros H.
  assert (Hdig : forall ds, digits (flavour_of udb tok) ds -> no_bar_no_blank ds).
  { intros ds Hds. eapply Forall_impl; [|exact Hds].
    intros c Hc. pose proof (digit_is_no_mark _ c Hc). tauto. }
  destruct (take_sign (text_chars tok)) as [neg s0] eqn:Hts.
  destruct (take_digits (flavour_of udb tok) s0 0%N 0) as [[ip ni] s1] eqn:Htd1.
  destruct (match s1 with
            | c :: t => if (c =? 46)%N
                        then take_digits (flavour_of udb tok) t ip 0
                        else (ip, 0, s1)
            | [] => (ip, 0, s1)
            end) as [[mant nf] s2] eqn:Hpt.
  rewrite (py_float_stages udb tok neg s0 ip ni s1 mant nf s2 Hts Htd1 Hpt) in H.
  destruct (ni + nf =? 0)%nat; [discriminate|].
  assert (Hs2 : no_bar_no_blank s2).
  { destruct s2 as [|e t]; [apply Forall_nil|].
    destruct ((e =? 101)%N || (e =? 69)%N) eqn:He; [|discriminate].
    destruct (take_sign t) as [eneg s3] eqn:Hes.
    destruct (take_digits (flavour_of udb tok) s3 0%N 0) as [[ev ne] r3] eqn:Hev.
    destruct ne as [|ne]; [discriminate|]. destruct r3; [|discriminate].
    apply take_digits_split in Hev. destruct Hev as (d3 & -> & Hd3 & _).
    rewrite app_nil_r in Hes.
    apply Forall_cons.
    - apply orb_true_iff in He. destruct He as [He|He]; apply N.eqb_eq in He; subst e;
        split; discriminate.
    - apply take_sign_split in Hes. destruct Hes as [ -> | (c & -> & Hc)]; [exact (Hdig d3 Hd3)|].
      apply Forall_cons; [destruct Hc as [ -> | -> ]; split; discriminate | exact (Hdig d3 Hd3)]. }
  assert (Hs1 : no_bar_no_blank s1).
  { destruct s1 as [|c t]; [apply Forall_nil|].
    destruct (N.eqb_spec c 46) as [ -> |Hc].
    - apply take_digits_split in Hpt. destruct Hpt as (d2 & -> & Hd2 & _).
      apply Forall_cons; [split; discriminate|].
      apply Forall_app. split; [exact (Hdig d2 Hd2) | exact Hs2].
    - inversion Hpt; subst. exact Hs2. }
  apply take_digits_split in Htd1. destruct Htd1 as (d1 & -> & Hd1 & _).
  assert (Hs0 : no_bar_no_blank (d1 ++ s1)).
  { apply Forall_app. split; [exact (Hdig d1 Hd1) | exact Hs1]. }
  apply take_sign_split in Hts. destruct Hts as [ -> | (c & -> & Hc)]; [exact Hs0|].
  apply Forall_cons; [destruct Hc as [ -> | -> ]; split; discriminate | exact Hs0].
Qed.

End FloatAccepts.

Lemma entry_converts udb mo :
  converts udb mo <->
  (exists x, py_float udb (mo_group mo "x") = inr x)
  /\ (exists y, py_float udb (mo_group mo "y") = inr y)
  /\ (exists z, py_float udb (mo_group mo "z") = inr z).
Proof.
  unfold converts, entry. split.
  - intros [a H].
    destruct (py_float udb (mo_group mo "x")) as [e|x]; [discriminate|].
    destruct (py_float udb (mo_group mo "y")) as [e|y]; [discriminate|].
    destruct (py_float udb (mo_group mo "z")) as [e|z]; [discriminate|].
    repeat split; eexists; reflexivity.
  - intros ([x ->] & [y ->] & [z ->]). eexists. reflexivity.
Qed.

(** X9.  A position line the pattern matched converts to an entry exactly
    when none of its three coordinate groups holds a blank or a bar, the two
    characters the pattern's classes for signs and exponent marks let
    through and [float] refuses. *)
Theorem entry_converts_iff_no_bar_no_blank (udb : unicode_db) (content : pytext)
    (mo : match_object) :
  In mo (py_finditer udb POS_MATCH_REGEX content) ->
  (converts udb mo <->
   no_bar_no_blank (group (mo_match mo) "x")
   /\ no_bar_no_blank (group (mo_match mo) "y")
   /\ no_bar_no_blank (group (mo_match mo) "z")).
Proof.
  intros Hin. apply py_finditer_member in Hin. destruct Hin as [Ht Hmt].
  apply pos_match_shape in Hmt. destruct Hmt as (_ & _ & Hx & Hy & Hz).
  apply token_number in Hx, Hy, Hz.
  assert (Hg : forall name,
             number_text (flavour_of udb content) (group (mo_match mo) name) ->
             ((exists q, py_float udb (mo_group mo name) = inr q)
              <-> no_bar_no_blank (group (mo_match mo) name))).
  { intros name Hn. unfold mo_group. rewrite Ht. split.
    - intros [q Hq]. apply py_float_chars in Hq. rewrite text_chars_retag in Hq. exact Hq.
    - intros Hnb. apply py_float_accepts.
      + rewrite flavour_of_retag, text_chars_retag. exact Hn.
      + rewrite text_chars_retag. exact Hnb. }
  rewrite entry_converts, (Hg "x" Hx), (Hg "y" Hy), (Hg "z" Hz). reflexivity.
Qed.

(** * Well-formed input is parsed as written *)

(** ** The first path of the matcher *)

Lemma m_fails_sound r st k :
  (forall st', Matches r st st' -> k st' = None) -> m r st k = None.
Proof.
  intros H. destruct (m r st k) as [x|] eqn:E; [|reflexivity].
  apply m_sound in E. destruct E as (st' & M & Hk). rewrite (H st' M) in Hk. discriminate.
Qed.

Lemma fails_sound r st : (forall st', ~ Matches r st st') -> fails r st.
Proof. intros H k. apply m_fails_sound. intros st' M. destruct (H st' M). Qed.

Lemma skip_nil st : skip st [] (rest st) = st.
Proof. destruct st; reflexivity. Qed.

Lemma skip_skip st w1 r1 w2 r2 : skip (skip st w1 r1) w2 r2 = skip st (w1 ++ w2) r2.
Proof.
  unfold skip. cbn [before rest groups]. rewrite rev_app_distr, app_assoc. reflexivity.
Qed.

Lemma close_group_skip name st w r :
  close_group name st (skip st w r) = with_group name w (skip st w r).
Proof.
  unfold close_group, with_group.
  rewrite (spanned_consumed st (skip st w r) w eq_refl). reflexivity.
Qed.

Lemma leads_eq r st s1 s2 : leads r st s1 -> s1 = s2 -> leads r st s2.
Proof. intros H <-. exact H. Qed.

Lemma leads_eps st : leads Eps st st.
Proof. intros k x Hk. exact Hk. Qed.

Lemma leads_chr p st c t :
  rest st = c :: t -> p c = true -> leads (Chr p) st (skip st [c] t).
Proof. intros Hr Hp k x Hk. cbn [m]. rewrite Hr, Hp. exact Hk. Qed.

Lemma leads_bol st : at_line_start st = true -> leads Bol st st.
Proof. intros H k x Hk. cbn [m]. rewrite H. exact Hk. Qed.

Lemma leads_seq a b st s1 s2 : leads a st s1 -> leads b s1 s2 -> leads (Seq a b) st s2.
Proof. intros Ha Hb k x Hk. cbn [m]. apply Ha. apply Hb. exact Hk. Qed.

Lemma leads_alt_l a b st s1 : leads a st s1 -> leads (Alt a b) st s1.
Proof. intros Ha k x Hk. cbn [m]. rewrite (Ha k x Hk). reflexivity. Qed.

Lemma leads_alt_r a b st s1 : fails a st -> leads b st s1 -> leads (Alt a b) st s1.
Proof. intros Ha Hb k x Hk. cbn [m]. rewrite (Ha k). apply Hb. exact Hk. Qed.

Lemma leads_grp name a st w r :
  leads a st (skip st w r) -> leads (Grp name a) st (with_group name w (skip st w r)).
Proof.
  intros Ha k x Hk. cbn [m]. apply Ha. rewrite close_group_skip. exact Hk.
Qed.

Lemma fails_chr p st : stops p (rest st) -> fails (Chr p) st.
Proof.
  intros H k. cbn [m]. destruct (rest st) as [|c t]; [reflexivity|].
  cbn in H. rewrite H. reflexivity.
Qed.

Lemma fails_seq a b st : fails a st -> fails (Seq a b) st.
Proof. intros H k. cbn [m]. apply H. Qed.

Lemma leads_star_stop a st : fails a st -> leads (Star a) st st.
Proof. intros H k x Hk. rewrite m_star_unfold, H. exact Hk. Qed.

Lemma leads_star_round a st s1 s2 :
  leads a st s1 -> length (rest s1) < length (rest st) -> leads (Star a) s1 s2 ->
  leads (Star a) st s2.
Proof.
  intros Ha Hlt Hs k x Hk. rewrite m_star_unfold.
  rewrite (Ha _ x); [reflexivity|]. cbn beta.
  apply Nat.ltb_lt in Hlt. rewrite Hlt. apply Hs. exact Hk.
Qed.

Lemma leads_rounds a st st' : rounds a st st' -> fails a st' -> leads (Star a) st st'.
Proof.
  induction 1 as [st|st s1 s2 Ha Hlt _ IH]; intros Hf.
  - apply leads_star_stop. exact Hf.
  - eapply leads_star_round; [exact Ha | exact Hlt | exact (IH Hf)].
Qed.

Lemma rounds_eq a st s1 s2 : rounds a st s1 -> s1 = s2 -> rounds a st s2.
Proof. intros H <-. exact H. Qed.

Lemma rounds_rest a st st' : rounds a st st' -> length (rest st') <= length (rest st).
Proof. induction 1; lia. Qed.

Lemma leads_plus_rounds a st st' :
  rounds a st st' -> length (rest st') < length (rest st) -> fails a st' ->
  leads (Plus a) st st'.
Proof.
  intros H Hlt Hf. destruct H as [st|st s1 s2 Ha _ Hr]; [lia|].
  apply (leads_seq a (Star a) st s1 s2 Ha). apply leads_rounds; assumption.
Qed.

Lemma rounds_trans a st s1 s2 : rounds a st s1 -> rounds a s1 s2 -> rounds a st s2.
Proof.
  induction 1 as [st|st s0 s1 Ha Hlt _ IH]; intros H2; [exact H2|].
  eapply rounds_more; [exact Ha | exact Hlt | exact (IH H2)].
Qed.

(** A run of characters of one class is taken whole. *)
Lemma leads_star_chr p : forall w st r,
  rest st = w ++ r -> all_in p w -> stops p r -> leads (Star (Chr p)) st (skip st w r).
Proof.
  induction w as [|c w IH]; intros st r Hr Hw Hs.
  - cbn [app] in Hr. subst r. rewrite skip_nil. apply leads_star_stop.
    apply fails_chr. exact Hs.
  - inversion Hw as [|? ? Hc Hw']; subst.
    apply (leads_star_round (Chr p) st (skip st [c] (w ++ r))).
    + apply leads_chr; assumption.
    + rewrite Hr. cbn. lia.
    + replace (skip st (c :: w) r) with (skip (skip st [c] (w ++ r)) w r)
        by (rewrite skip_skip; reflexivity).
      apply IH; [reflexivity | assumption | assumption].
Qed.

Lemma leads_plus_chr p w st r :
  rest st = w ++ r -> all_in p w -> w <> [] -> stops p r ->
  leads (Plus (Chr p)) st (skip st w r).
Proof.
  intros Hr Hw Hne Hs. destruct w as [|c w]; [congruence|].
  inversion Hw as [|? ? Hc Hw']; subst.
  replace (skip st (c :: w) r) with (skip (skip st [c] (w ++ r)) w r)
    by (rewrite skip_skip; reflexivity).
  apply (leads_seq (Chr p) (Star (Chr p)) st (skip st [c] (w ++ r))).
  - apply leads_chr; assumption.
  - apply leads_star_chr; [reflexivity | assumption | assumption].
Qed.

Lemma leads_opt_chr p w st r :
  rest st = w ++ r -> opt_char p w -> (w = [] -> stops p r) ->
  leads (Opt (Chr p)) st (skip st w r).
Proof.
  intros Hr [ -> | (c & -> & Hc)] Hs.
  - cbn [app] in Hr. subst r. rewrite skip_nil.
    apply leads_alt_r; [apply fails_chr; apply Hs; reflexivity | apply leads_eps].
  - apply leads_alt_l. apply leads_chr; assumption.
Qed.

Lemma leads_opt_skip a st : fails a st -> leads (Opt a) st st.
Proof. intros H. apply leads_alt_r; [exact H | apply leads_eps]. Qed.

Lemma m_chr_eq p st c t k :
  rest st = c :: t -> p c = true -> m (Chr p) st k = k (advance st c t).
Proof. intros Hr Hp. cbn [m]. rewrite Hr, Hp. reflexivity. Qed.

(** A run that has to give its last character back to what follows. *)
Lemma leads_star_chr_back p q : forall w st c r,
  rest st = w ++ c :: r -> all_in p w -> p c = true -> q c = true ->
  stops p r -> stops q r ->
  leads (Seq (Star (Chr p)) (Chr q)) st (skip st (w ++ [c]) r).
Proof.
  induction w as [|a w IH]; intros st c r Hr Hw Hpc Hqc Hsp Hsq k x Hk;
    change (m (Star (Chr p)) st (fun s => m (Chr q) s k) = Some x);
    rewrite m_star_unfold.
  - cbn [app] in Hr.
    rewrite (m_chr_eq p st c r _ Hr Hpc). cbn [advance rest]. rewrite Hr. cbn [length].
    rewrite (proj2 (Nat.ltb_lt _ _) (Nat.lt_succ_diag_r (length r))).
    rewrite m_star_unfold.
    rewrite (fails_chr p (advance st c r) Hsp).
    rewrite (fails_chr q (advance st c r) Hsq).
    rewrite (m_chr_eq q st c r _ Hr Hqc). exact Hk.
  - inversion Hw as [|? ? Ha Hw']; subst. cbn [app] in Hr.
    rewrite (m_chr_eq p st a (w ++ c :: r) _ Hr Ha). cbn [advance rest]. rewrite Hr. cbn [length].
    rewrite (proj2 (Nat.ltb_lt _ _) (Nat.lt_succ_diag_r (length (w ++ c :: r)))).
    assert (E : m (Star (Chr p)) (advance st a (w ++ c :: r)) (fun s => m (Chr q) s k)
                = Some x).
    { apply (IH (advance st a (w ++ c :: r)) c r eq_refl Hw' Hpc Hqc Hsp Hsq k x).
      change (advance st a (w ++ c :: r)) with (skip st [a] (w ++ c :: r)).
      rewrite skip_skip. exact Hk. }
    rewrite E. reflexivity.
Qed.

Lemma fails_plus_chr p st : stops p (rest st) -> fails (Plus (Chr p)) st.
Proof. intros H. apply fails_seq. apply fails_chr. exact H. Qed.

(** ** Characters of well-formed text and the classes of the patterns *)

Ltac class_facts :=
  repeat match goal with
         | H : andb _ _ = true |- _ => apply andb_true_iff in H; destruct H
         | H : orb _ _ = true |- _ => apply orb_true_iff in H; destruct H
         | H : negb _ = true |- _ => apply negb_true_iff in H
         | H : (_ <=? _)%N = true |- _ => apply N.leb_le in H
         | H : (_ <? _)%N = true |- _ => apply N.ltb_lt in H
         | H : (_ =? _)%N = true |- _ => apply N.eqb_eq in H
         | H : (_ =? _)%N = false |- _ => apply N.eqb_neq in H
         | H : (_ <=? _)%N = false |- _ => apply N.leb_gt in H
         | H : (_ <? _)%N = false |- _ => apply N.ltb_ge in H
         end.

(** What a class refuses, from what another class or an equation tells about
    the character. *)
Ltac class_false :=
  match goal with
  | |- ?b = false =>
      let E := fresh "E" in
      destruct b eqn:E; [exfalso | reflexivity];
      unfold cls_alpha, cls_alnum, cls_blank, cls_newline, cls_any, cls_dot, cls_hash,
        cls_pos_sign, cls_exp_mark, cls_exp_sign, cls_frame_sign, ascii_digit,
        ascii_space, in_range in *;
      class_facts; subst; try lia; try discriminate
  end.

Lemma ascii_digit_low c : ascii_digit c = true -> (c < 128)%N.
Proof. unfold ascii_digit, in_range. intros H. class_facts. lia. Qed.

Lemma digit_of_ascii fl c : ascii_digit c = true -> cls_digit fl c = true.
Proof. intros H. unfold cls_digit, digit_value. rewrite H. reflexivity. Qed.

Lemma digit_value_ascii fl c : ascii_digit c = true -> digit_value fl c = Some (c - 48)%N.
Proof. intros H. unfold digit_value. rewrite H. reflexivity. Qed.

Lemma all_digits fl w : all_in ascii_digit w -> all_in (cls_digit fl) w.
Proof. apply Forall_impl. apply digit_of_ascii. Qed.

Lemma low_is_no_space fl c :
  (c < 128)%N -> ascii_space c = false -> in_range 28 31 c = false ->
  cls_space fl c = false.
Proof.
  intros Hc Ha Hi. unfold cls_space. destruct fl as [u|]; [|exact Ha].
  destruct (N.ltb_spec c 128); [|lia]. rewrite Ha, Hi. reflexivity.
Qed.

Lemma space_of_ascii fl c : ascii_space c = true -> cls_space fl c = true.
Proof.
  intros H. unfold cls_space. destruct fl as [u|]; [|exact H].
  assert (c < 128)%N by (unfold ascii_space, in_range in H; class_facts; lia).
  destruct (N.ltb_spec c 128); [|lia]. rewrite H. reflexivity.
Qed.

Lemma blank_cases c : cls_blank c = true -> c = 32%N \/ c = 9%N.
Proof. unfold cls_blank. intros H. class_facts; auto. Qed.

Lemma space_of_blank fl c : cls_blank c = true -> cls_space fl c = true.
Proof.
  intros H. apply space_of_ascii. destruct (blank_cases c H) as [ -> | -> ]; reflexivity.
Qed.

Lemma all_space_of_blank fl w : all_in cls_blank w -> all_in (cls_space fl) w.
Proof. apply Forall_impl. apply space_of_blank. Qed.


Lemma plain_no_space fl c : plain c -> cls_space fl c = false.
Proof.
  intros H. apply low_is_no_space;
    [ destruct H as [H|[H|[H|[H|[H|H]]]]]; subst; try reflexivity;
      unfold cls_alpha, ascii_digit, in_range in H; class_facts; lia
    | destruct H as [H|[H|[H|[H|[H|H]]]]]; subst; try reflexivity; class_false
    | destruct H as [H|[H|[H|[H|[H|H]]]]]; subst; try reflexivity; class_false ].
Qed.

Lemma plain_no_blank c : plain c -> cls_blank c = false.
Proof. intros [H|[H|[H|[H|[H|H]]]]]; subst; try reflexivity; class_false. Qed.

Lemma plain_no_newline c : plain c -> c <> 10%N.
Proof.
  intros [H|[H|[H|[H|[H|H]]]]]; subst; try discriminate;
    unfold cls_alpha, ascii_digit, in_range in H; class_facts; lia.
Qed.

Lemma stops_head (p : char -> bool) c t : p c = false -> stops p (c :: t).
Proof. intros H. exact H. Qed.

Lemma stops_app (p : char -> bool) w r :
  w <> [] -> stops p w -> stops p (w ++ r).
Proof. intros Hne H. destruct w as [|c t]; [congruence | exact H]. Qed.

(** A coordinate starts with a sign, a digit or the point. *)
Lemma coordinate_head c r :
  coordinate_ok c ->
  exists h t, coordinate_text c ++ r = h :: t
              /\ (h = 45%N \/ h = 43%N \/ h = 46%N \/ ascii_digit h = true).
Proof.
  intros (Hs & Hi & _). unfold coordinate_text.
  destruct Hs as [ -> | [ -> | -> ] ]; cbn [app]; [|eauto 7|eauto 7].
  destruct (c_int c) as [|d ds]; cbn [app]; [eauto 7|].
  inversion Hi; subst. eauto 7.
Qed.

Lemma coordinate_head_plain c r :
  coordinate_ok c -> exists h t, coordinate_text c ++ r = h :: t /\ plain h.
Proof.
  intros H. destruct (coordinate_head c r H) as (h & t & E & Hh).
  exists h, t. split; [exact E|]. unfold plain. tauto.
Qed.

Lemma coordinate_stops_space fl c r :
  coordinate_ok c -> stops (cls_space fl) (coordinate_text c ++ r).
Proof.
  intros H. destruct (coordinate_head_plain c r H) as (h & t & -> & Hh).
  apply plain_no_space. exact Hh.
Qed.

Lemma coordinate_stops_blank c r :
  coordinate_ok c -> stops cls_blank (coordinate_text c ++ r).
Proof.
  intros H. destruct (coordinate_head_plain c r H) as (h & t & -> & Hh).
  apply plain_no_blank. exact Hh.
Qed.

Lemma separator_head w r :
  separator w -> exists h t, w ++ r = h :: t /\ cls_blank h = true.
Proof.
  intros [Hw Hne]. destruct w as [|h t]; [congruence|].
  inversion Hw; subst. exists h, (t ++ r). split; [reflexivity | assumption].
Qed.

Lemma separator_stops_digit fl w r : separator w -> stops (cls_digit fl) (w ++ r).
Proof.
  intros H. destruct (separator_head w r H) as (h & t & -> & Hh).
  cbn. apply low_is_no_digit;
    destruct (blank_cases h Hh) as [ -> | -> ]; try reflexivity; lia.
Qed.

Lemma separator_stops_alnum w r : separator w -> stops cls_alnum (w ++ r).
Proof.
  intros H. destruct (separator_head w r H) as (h & t & -> & Hh).
  cbn. destruct (blank_cases h Hh) as [ -> | -> ]; reflexivity.
Qed.

(** A run of a class ends somewhere. *)
Lemma split_run (p : char -> bool) : forall t,
  exists w1 w2, t = w1 ++ w2 /\ all_in p w1 /\ stops p w2.
Proof.
  induction t as [|c t (w1 & w2 & -> & H1 & H2)].
  - exists [], []. repeat split; constructor.
  - destruct (p c) eqn:Ec.
    + exists (c :: w1), w2. repeat split; [constructor; assumption | assumption].
    + exists [], (c :: w1 ++ w2). repeat split; [constructor | exact Ec].
Qed.

(** The two runs of a symbol: letters, then letters and digits. *)
Lemma symbol_split sym r :
  symbol_ok sym -> stops cls_alnum r ->
  exists w1 w2, sym = w1 ++ w2 /\ w1 <> [] /\ all_in cls_alpha w1
                /\ stops cls_alpha (w2 ++ r) /\ all_in cls_alnum w2.
Proof.
  intros (c & t & -> & Hc & Ht) Hr.
  destruct (split_run cls_alpha t) as (w1 & w2 & -> & H1 & H2).
  apply Forall_app in Ht. destruct Ht as [_ Ht2].
  exists (c :: w1), w2. repeat split; try assumption; try discriminate.
  - constructor; assumption.
  - destruct w2 as [|d w2]; [|exact H2]. cbn [app].
    destruct r as [|e r]; [exact I|]. cbn in Hr |- *.
    unfold cls_alnum in Hr. apply orb_false_iff in Hr. tauto.
Qed.

Lemma symbol_head sym r :
  symbol_ok sym -> exists h t, sym ++ r = h :: t /\ cls_alpha h = true.
Proof. intros (c & t & -> & Hc & _). exists c, (t ++ r). auto. Qed.

Ltac len_solve :=
  cbn [skip rest];
  repeat (progress (rewrite ?length_app; cbn [length]));
  unfold char in *; lia.

Ltac state_eq :=
  unfold skip, with_group; cbn [before rest groups]; f_equal;
  repeat (progress (rewrite ?rev_app_distr, <- ?app_assoc; cbn [rev app]));
  try reflexivity.

(** ** The frame pattern on well-formed lines *)

Section FramePath.
Variable fl : flavour.

Lemma frame_number_leads st sep c r :
  rest st = sep ++ coordinate_text c ++ r ->
  separator sep -> coordinate_ok c -> stops (cls_digit fl) r ->
  leads (frame_number fl) st (skip st (sep ++ coordinate_text c) r).
Proof.
  intros Hr Hsep Hc Hs.
  pose proof (coordinate_stops_space fl c r Hc) as Hhead.
  destruct Hsep as [Hsep Hne]. destruct Hc as (Hsg & Hint & Hfrac & Hfne).
  unfold coordinate_text in *. rewrite <- !app_assoc in Hr, Hhead.
  unfold frame_number. apply leads_alt_l.
  set (r3 := c_frac c ++ r). set (r2 := 46%N :: r3).
  set (r1 := c_int c ++ r2). set (r0 := c_sign c ++ r1).
  set (s0 := skip st sep r0). set (s1 := skip s0 (c_sign c) r1).
  set (s2 := skip s1 (c_int c) r2). set (s3 := skip s2 [46%N] r3).
  apply (leads_eq _ _ (skip s3 (c_frac c) r)); [|subst s3 s2 s1 s0; state_eq].
  apply (leads_seq _ _ st s0).
  { apply leads_plus_chr; [exact Hr | apply all_space_of_blank; exact Hsep
                          | exact Hne | exact Hhead]. }
  apply (leads_seq _ _ s0 s1).
  { apply leads_opt_chr; [reflexivity | |].
    - destruct Hsg as [ -> | [ -> | -> ] ]; [left; reflexivity | right | right];
        eexists; split; reflexivity.
    - intros E. subst r1 r2. rewrite E in *.
      destruct (c_int c) as [|d ds]; cbn [app]; [reflexivity|].
      inversion Hint; subst. cbn. class_false. }
  apply (leads_seq _ _ s1 s2).
  { apply leads_star_chr; [reflexivity | apply all_digits; exact Hint|].
    subst r2. cbn. apply low_is_no_digit; [lia | reflexivity]. }
  apply (leads_seq _ _ s2 s3).
  { apply leads_chr; reflexivity. }
  apply leads_plus_chr; [reflexivity | apply all_digits; exact Hfrac | exact Hfne | exact Hs].
Qed.

Lemma newline_stops_digit r : stops (cls_digit fl) (10%N :: r).
Proof. cbn. apply low_is_no_digit; [lia | reflexivity]. Qed.

(** Pending white space: blank lines passed but not yet matched. *)
Lemma position_line_leads st W p r :
  rest st = W ++ position_text p ++ 10%N :: r ->
  all_in (cls_space fl) W -> position_ok p ->
  leads (frame_line fl) st (skip st (W ++ position_text p ++ [10%N]) r).
Proof.
  intros Hr HW (Hlead & Hsym & Hs1 & Hx & Hs2 & Hy & Hs3 & Hz).
  unfold position_text in *. rewrite <- !app_assoc in Hr.
  destruct (symbol_split (p_sym p)
              (p_sep1 p ++ coordinate_text (p_x p) ++ p_sep2 p ++ coordinate_text (p_y p)
               ++ p_sep3 p ++ coordinate_text (p_z p) ++ 10%N :: r)
              Hsym (separator_stops_alnum _ _ Hs1))
    as (w1 & w2 & Esym & Hne1 & Hw1 & Hst1 & Hw2).
  rewrite Esym in *. rewrite <- ?app_assoc in Hr. rewrite <- ?app_assoc in Hst1.
  set (r8 := 10%N :: r) in *.
  set (r7 := p_sep3 p ++ coordinate_text (p_z p) ++ r8) in *.
  set (r6 := p_sep2 p ++ coordinate_text (p_y p) ++ r7) in *.
  set (r5 := p_sep1 p ++ coordinate_text (p_x p) ++ r6) in *.
  set (r4 := w2 ++ r5) in *.
  set (r3 := w1 ++ r4) in *.
  set (s1 := skip st (W ++ p_lead p) r3).
  set (s2 := skip s1 w1 r4).
  set (s3 := skip s2 w2 r5).
  set (s4 := skip s3 (p_sep1 p ++ coordinate_text (p_x p)) r6).
  set (s5 := skip s4 (p_sep2 p ++ coordinate_text (p_y p)) r7).
  set (s6 := skip s5 (p_sep3 p ++ coordinate_text (p_z p)) r8).
  apply (leads_eq _ _ (skip s6 [10%N] r));
    [|subst s6 s5 s4 s3 s2 s1; state_eq].
  unfold frame_line. apply (leads_seq _ _ st s6); [|apply leads_chr; reflexivity].
  apply leads_alt_l.
  apply (leads_seq _ _ st s1).
  { apply leads_star_chr.
    - rewrite Hr, <- app_assoc. reflexivity.
    - apply Forall_app. split; [exact HW | apply all_space_of_blank; exact Hlead].
    - subst r3. destruct w1 as [|h t]; [congruence|]. inversion Hw1; subst.
      cbn. apply plain_no_space. left. assumption. }
  apply (leads_seq _ _ s1 s6);
    [|apply (leads_eq _ _ (skip s6 [] r8));
      [apply leads_star_chr; [reflexivity | constructor | reflexivity]
      | apply skip_nil]].
  apply leads_alt_l.
  apply (leads_seq _ _ s1 s2).
  { apply leads_plus_chr; [reflexivity | exact Hw1 | exact Hne1 | exact Hst1]. }
  apply (leads_seq _ _ s2 s3).
  { apply leads_star_chr; [reflexivity | exact Hw2|].
    subst r5. apply separator_stops_alnum. exact Hs1. }
  unfold Rep3.
  apply (leads_seq _ _ s3 s4).
  { apply frame_number_leads; [reflexivity | exact Hs1 | exact Hx|].
    subst r6. apply separator_stops_digit. exact Hs2. }
  apply (leads_seq _ _ s4 s5).
  { apply frame_number_leads; [reflexivity | exact Hs2 | exact Hy|].
    subst r7. apply separator_stops_digit. exact Hs3. }
  apply frame_number_leads; [reflexivity | exact Hs3 | exact Hz|].
  apply newline_stops_digit.
Qed.

Lemma all_any t : Forall (fun c => c <> 10%N) t -> all_in cls_any t.
Proof.
  apply Forall_impl. intros c Hc. unfold cls_any. apply negb_true_iff.
  apply N.eqb_neq. exact Hc.
Qed.

Lemma hash_line_leads st W t r :
  rest st = W ++ 35%N :: t ++ 10%N :: r ->
  all_in (cls_space fl) W -> Forall (fun c => c <> 10%N) t ->
  leads (frame_line fl) st (skip st (W ++ 35%N :: t ++ [10%N]) r).
Proof.
  intros Hr HW Ht.
  set (s1 := skip st W (35%N :: t ++ 10%N :: r)).
  set (s2 := skip s1 [35%N] (t ++ 10%N :: r)).
  set (s3 := skip s2 t (10%N :: r)).
  apply (leads_eq _ _ (skip s3 [10%N] r)); [|subst s3 s2 s1; state_eq].
  unfold frame_line. apply (leads_seq _ _ st s3); [|apply leads_chr; reflexivity].
  apply leads_alt_l.
  apply (leads_seq _ _ st s1).
  { apply leads_star_chr; [exact Hr | exact HW|]. cbn. apply plain_no_space.
    unfold plain. tauto. }
  apply (leads_seq _ _ s1 s2).
  { apply leads_alt_r; [|apply leads_chr; reflexivity].
    apply fails_seq. apply fails_plus_chr. reflexivity. }
  apply leads_star_chr; [reflexivity | apply all_any; exact Ht | reflexivity].
Qed.

Lemma leads_alt_seq_r a b c st s1 :
  fails a st -> leads (Seq b c) st s1 -> leads (Seq (Alt a b) c) st s1.
Proof.
  intros Ha Hb k x Hk. cbn [m]. rewrite Ha. exact (Hb k x Hk).
Qed.

(** After white space at the end of a block comes more white space or the
    digit of the next count line. *)
Lemma after_blank_lines st W r s1 c t :
  rest st = W ++ r -> count_ahead r ->
  Matches (Star (Chr (cls_space fl))) st s1 -> rest s1 = c :: t ->
  In c W \/ ascii_digit c = true.
Proof.
  intros Hr Hc M E. apply Matches_Star_Chr_inv in M.
  destruct M as (w1 & Hw1 & [_ R] & _). rewrite Hr, E in R.
  apply app_eq_app in R. destruct R as (l & [[E1 E2] | [E1 E2]]).
  - destruct l as [|h l]; cbn [app] in E2.
    + subst r. right. exact Hc.
    + inversion E2; subst. left. apply in_or_app. right. left. reflexivity.
  - destruct l as [|h l]; cbn [app] in E2.
    + subst r. right. exact Hc.
    + subst r. cbn in Hc.
      rewrite E1 in Hw1. apply Forall_app in Hw1. destruct Hw1 as [_ Hw1].
      inversion Hw1 as [|? ? Hh _]; subst.
      rewrite (plain_no_space fl h) in Hh; [discriminate | unfold plain; tauto].
Qed.

Lemma blank_line_char W c :
  Forall (fun c => cls_blank c = true \/ c = 10%N) W -> In c W ->
  cls_alpha c = false /\ c <> 35%N /\ ascii_digit c = false.
Proof.
  intros HW Hin. rewrite Forall_forall in HW. destruct (HW c Hin) as [H | ->].
  - destruct (blank_cases c H) as [ -> | -> ]; repeat split; discriminate.
  - repeat split; discriminate.
Qed.

(** No line of a positions block starts in the blank lines before a count
    line or the end of the text. *)
Lemma no_line_matches st W r st' :
  rest st = W ++ r -> Forall (fun c => cls_blank c = true \/ c = 10%N) W ->
  count_ahead r ->
  ~ Matches (Star (Chr (cls_space fl)) ;;
             ((Plus (Chr cls_alpha) ;; Star (Chr cls_alnum) ;; Rep3 (frame_number fl))
              <|> Chr cls_hash) ;;
             Star (Chr cls_any))%re st st'.
Proof.
  intros Hr HW Hc M.
  apply Matches_Seq_inv in M. destruct M as (s1 & M1 & M2).
  apply Matches_Seq_inv in M2. destruct M2 as (s2 & Ma & _).
  assert (Hhead : exists c t, rest s1 = c :: t /\ (cls_alpha c = true \/ c = 35%N)).
  { apply Matches_Alt_inv in Ma. destruct Ma as [Ma|Ma].
    - apply Matches_Seq_inv in Ma. destruct Ma as (s3 & Mp & _).
      apply Matches_Plus_Chr_inv in Mp. destruct Mp as (w & Hne & Hw & [_ R] & _).
      destruct w as [|c w]; [congruence|]. inversion Hw; subst.
      exists c, (w ++ rest s3). split; [exact R | left; assumption].
    - apply Matches_Chr_inv in Ma. destruct Ma as (c & Hh & [_ R] & _).
      exists c, (rest s2). split; [exact R | right; apply N.eqb_eq; exact Hh]. }
  destruct Hhead as (c & t & E & Hh).
  destruct (after_blank_lines st W r s1 c t Hr Hc M1 E) as [Hin|Hd].
  - destruct (blank_line_char W c HW Hin) as (Ha & Hn & _).
    destruct Hh as [Hh|Hh]; congruence.
  - destruct Hh as [Hh| ->]; [|discriminate].
    unfold cls_alpha, ascii_digit, in_range in *. class_facts; lia.
Qed.

Lemma no_line_ahead st W r :
  rest st = W ++ r -> Forall (fun c => cls_blank c = true \/ c = 10%N) W ->
  count_ahead r ->
  fails (Star (Chr (cls_space fl)) ;;
         ((Plus (Chr cls_alpha) ;; Star (Chr cls_alnum) ;; Rep3 (frame_number fl))
          <|> Chr cls_hash) ;;
         Star (Chr cls_any))%re st.
Proof.
  intros Hr HW Hc. apply fails_sound. intros st'.
  exact (no_line_matches st W r st' Hr HW Hc).
Qed.

Lemma no_line_at_count st :
  count_ahead (rest st) -> fails (frame_line fl) st.
Proof.
  intros Hc. apply fails_sound. intros st' M. unfold frame_line in M.
  apply Matches_Seq_inv in M. destruct M as (s1 & M1 & M2).
  apply Matches_Alt_inv in M1. destruct M1 as [M1|M1].
  - exact (no_line_matches st [] (rest st) s1 eq_refl (Forall_nil _) Hc M1).
  - apply Matches_Chr_inv in M2. destruct M2 as (c & Hn & [_ R] & _).
    apply N.eqb_eq in Hn. subst c.
    destruct (after_blank_lines st [] (rest st) s1 10%N (rest st') eq_refl Hc M1 R)
      as [[]|Hd].
    discriminate.
Qed.

Lemma count_ahead_stops_space r : count_ahead r -> stops (cls_space fl) r.
Proof.
  destruct r as [|c r]; [trivial|]. cbn. intros H. apply plain_no_space.
  unfold plain. tauto.
Qed.

Lemma count_ahead_stops_newline r : count_ahead r -> stops cls_newline r.
Proof.
  destruct r as [|c r]; [trivial|]. cbn. intros H. class_false.
Qed.

(** Blank lines at the end of a block are one line of the pattern. *)
Lemma blank_lines_lead st W r :
  rest st = W ++ 10%N :: r ->
  Forall (fun c => cls_blank c = true \/ c = 10%N) W -> count_ahead r ->
  leads (frame_line fl) st (skip st (W ++ [10%N]) r).
Proof.
  intros Hr HW Hc. unfold frame_line. apply leads_alt_seq_r.
  - apply (no_line_ahead st (W ++ [10%N]) r).
    + rewrite Hr, <- app_assoc. reflexivity.
    + apply Forall_app. split; [exact HW | constructor; [right; reflexivity | constructor]].
    + exact Hc.
  - apply leads_star_chr_back.
    + exact Hr.
    + eapply Forall_impl; [|exact HW]. intros c [H | ->];
        [apply space_of_blank; exact H | apply space_of_ascii; reflexivity].
    + apply space_of_ascii. reflexivity.
    + reflexivity.
    + apply count_ahead_stops_space. exact Hc.
    + apply count_ahead_stops_newline. exact Hc.
Qed.

Lemma line_text_nonempty l : line_text l <> [].
Proof.
  destruct l as [p|t|ws]; cbn [line_text]; intros E.
  - apply (f_equal (@length _)) in E. rewrite length_app in E. cbn in E. lia.
  - discriminate.
  - apply (f_equal (@length _)) in E. rewrite length_app in E. cbn in E. lia.
Qed.

(** The rounds of the repetition over the lines of a block. *)
Lemma lines_rounds : forall ls W st r,
  Forall line_ok ls -> blank_lines W ->
  rest st = W ++ lines_text ls ++ r -> count_ahead r ->
  rounds (frame_line fl) st (skip st (W ++ lines_text ls) r).
Proof.
  induction ls as [|l ls IH]; intros W st r Hok [HW Hend] Hr Hc.
  - cbn [lines_text flat_map app] in *. rewrite app_nil_r.
    destruct Hend as [ -> | [W' ->] ].
    + cbn [app] in Hr. subst r. rewrite skip_nil. apply rounds_done.
    + apply Forall_app in HW. destruct HW as [HW' _].
      rewrite <- app_assoc in Hr. cbn [app] in Hr.
      apply (rounds_more _ st (skip st (W' ++ [10%N]) r)).
      * apply blank_lines_lead; assumption.
      * rewrite Hr. len_solve.
      * apply rounds_done.
  - inversion Hok as [|? ? Hl Hls]; subst.
    change (lines_text (l :: ls)) with (line_text l ++ lines_text ls) in *.
    assert (HWs : all_in (cls_space fl) W).
    { eapply Forall_impl; [|exact HW]. intros c [H | ->];
        [apply space_of_blank; exact H | apply space_of_ascii; reflexivity]. }
    destruct l as [p|t|ws]; cbn [line_text line_ok] in *.
    + rewrite <- !app_assoc in Hr. cbn [app] in Hr.
      apply (rounds_more _ st (skip st (W ++ position_text p ++ [10%N])
                                 (lines_text ls ++ r))).
      * apply position_line_leads; assumption.
      * rewrite Hr. len_solve.
      * apply (rounds_eq _ _ _ _
                 (IH [] (skip st (W ++ position_text p ++ [10%N]) (lines_text ls ++ r)) r
                     Hls (conj (Forall_nil _) (or_introl eq_refl)) eq_refl Hc)).
        state_eq.
    + rewrite <- !app_assoc in Hr. cbn [app] in Hr. rewrite <- !app_assoc in Hr.
      cbn [app] in Hr.
      apply (rounds_more _ st (skip st (W ++ 35%N :: t ++ [10%N]) (lines_text ls ++ r))).
      * apply hash_line_leads; assumption.
      * rewrite Hr. len_solve.
      * apply (rounds_eq _ _ _ _
                 (IH [] (skip st (W ++ 35%N :: t ++ [10%N]) (lines_text ls ++ r)) r
                     Hls (conj (Forall_nil _) (or_introl eq_refl)) eq_refl Hc)).
        state_eq.
    + assert (HW2 : blank_lines (W ++ ws ++ [10%N])).
      { split.
        - apply Forall_app. split; [exact HW|]. apply Forall_app. split.
          + eapply Forall_impl; [|exact Hl]. intros c H. left. exact H.
          + constructor; [right; reflexivity | constructor].
        - right. exists (W ++ ws). rewrite <- app_assoc. reflexivity. }
      assert (Hr2 : rest st = (W ++ ws ++ [10%N]) ++ lines_text ls ++ r).
      { rewrite Hr, <- !app_assoc. reflexivity. }
      apply (rounds_eq _ _ _ _ (IH _ st r Hls HW2 Hr2 Hc)). state_eq.
Qed.

Lemma lines_text_nonempty ls : ls <> [] -> lines_text ls <> [].
Proof.
  destruct ls as [|l ls]; [congruence|]. intros _ E.
  change (line_text l ++ lines_text ls = []) in E.
  apply app_eq_nil in E. destruct E as [E _]. exact (line_text_nonempty l E).
Qed.

(** The frame pattern takes a well-formed frame whole, on its first path. *)
Lemma frame_leads st f r :
  frame_ok f -> rest st = frame_text f ++ r -> at_line_start st = true ->
  count_ahead r ->
  leads (FRAME_MATCH_REGEX fl) st (after_frame st f r).
Proof.
  intros (Hne & Hcount & Hcomment & Hlines & Hok) Hr Hbol Hc.
  unfold frame_text in Hr. rewrite <- !app_assoc in Hr. cbn [app] in Hr.
  rewrite <- !app_assoc in Hr. cbn [app] in Hr.
  set (L := lines_text (f_lines f)) in *.
  set (r4 := L ++ r) in *. set (r3 := 10%N :: r4) in *.
  set (r2 := f_comment f ++ r3) in *. set (r1 := 10%N :: r2) in *.
  set (s1 := with_group "natoms" (f_count f) (skip st (f_count f) r1)).
  set (s2 := skip s1 [10%N] r2).
  set (s3 := with_group "comment" (f_comment f) (skip s2 (f_comment f) r3)).
  set (s4 := skip s3 [10%N] r4).
  apply (leads_eq _ _ (with_group "positions" L (skip s4 L r)));
    [|unfold after_frame, frame_text; subst s4 s3 s2 s1 L; state_eq].
  unfold FRAME_MATCH_REGEX.
  apply (leads_seq _ _ st st); [apply leads_bol; exact Hbol|].
  apply (leads_seq _ _ st st).
  { apply leads_star_stop. apply fails_chr. rewrite Hr.
    destruct (f_count f) as [|d ds]; [congruence|]. inversion Hcount; subst.
    cbn. apply plain_no_blank. unfold plain. tauto. }
  apply (leads_seq _ _ st s1).
  { apply leads_grp. apply leads_plus_chr; [exact Hr | exact Hcount | exact Hne|].
    reflexivity. }
  apply (leads_seq _ _ s1 s1).
  { apply leads_star_stop. apply fails_chr. reflexivity. }
  apply (leads_seq _ _ s1 s2); [apply leads_chr; reflexivity|].
  apply (leads_seq _ _ s2 s3).
  { apply leads_grp. apply leads_star_chr;
      [reflexivity | apply all_any; exact Hcomment | reflexivity]. }
  apply (leads_seq _ _ s3 s4); [apply leads_chr; reflexivity|].
  apply leads_grp. apply leads_plus_rounds.
  - apply (lines_rounds (f_lines f) [] s4 r Hok
             (conj (Forall_nil _) (or_introl eq_refl)) eq_refl Hc).
  - pose proof (lines_text_nonempty (f_lines f) Hlines) as HL. fold L in HL.
    cbn [skip rest s4]. subst r4. destruct L as [|c L']; [congruence|]. len_solve.
  - apply no_line_at_count. exact Hc.
Qed.

End FramePath.

(** ** The position pattern on a well-formed line *)

Section PositionPath.
Variable fl : flavour.

Lemma m_seq a b st k : m (Seq a b) st k = m a st (fun s => m b s k).
Proof. reflexivity. Qed.

Lemma m_alt a b st k :
  m (Alt a b) st k = match m a st k with Some x => Some x | None => m b st k end.
Proof. reflexivity. Qed.

Lemma m_grp name a st k :
  m (Grp name a) st k = m a st (fun s => k (close_group name st s)).
Proof. reflexivity. Qed.

(** Digits, the point, digits. *)
Lemma decimal_leads st c r :
  rest st = c_int c ++ 46%N :: c_frac c ++ r ->
  coordinate_ok c -> stops (cls_digit fl) r ->
  leads (Star (Chr (cls_digit fl)) ;; Chr cls_dot ;; Plus (Chr (cls_digit fl)))%re st
        (skip st (c_int c ++ 46%N :: c_frac c) r).
Proof.
  intros Hr (_ & Hint & Hfrac & Hfne) Hs.
  set (s1 := skip st (c_int c) (46%N :: c_frac c ++ r)).
  set (s2 := skip s1 [46%N] (c_frac c ++ r)).
  apply (leads_eq _ _ (skip s2 (c_frac c) r)); [|subst s2 s1; state_eq].
  apply (leads_seq _ _ st s1).
  { apply leads_star_chr; [exact Hr | apply all_digits; exact Hint|].
    cbn. apply low_is_no_digit; [lia | reflexivity]. }
  apply (leads_seq _ _ s1 s2); [apply leads_chr; reflexivity|].
  apply leads_plus_chr; [reflexivity | apply all_digits; exact Hfrac | exact Hfne | exact Hs].
Qed.

(** A coordinate is matched whole when the exponent the pattern tries after
    it leads nowhere. *)
Lemma pos_number_path st c r k x :
  rest st = coordinate_text c ++ r -> coordinate_ok c -> stops (cls_digit fl) r ->
  m (exponent fl) (skip st (coordinate_text c) r) k = None ->
  k (skip st (coordinate_text c) r) = Some x ->
  m (pos_number fl) st k = Some x.
Proof.
  intros Hr Hc Hs Hexp Hk.
  pose proof Hc as (Hsg & Hint & Hfrac & Hfne).
  unfold coordinate_text in *. rewrite <- ?app_assoc in Hr.
  set (ra := c_int c ++ 46%N :: c_frac c ++ r) in *.
  set (s1 := skip st (c_sign c) ra).
  assert (E2 : skip s1 (c_int c ++ 46%N :: c_frac c) r
               = skip st (c_sign c ++ c_int c ++ 46%N :: c_frac c) r)
    by (subst s1; state_eq).
  unfold pos_number. rewrite m_seq.
  apply (leads_opt_chr cls_pos_sign (c_sign c) st ra Hr).
  { destruct Hsg as [ -> | [ -> | -> ] ]; [left; reflexivity | right | right];
      eexists; split; reflexivity. }
  { intros E. subst ra. destruct (c_int c) as [|d ds]; cbn [app]; [reflexivity|].
    inversion Hint; subst. cbn. class_false. }
  cbn beta. fold s1. rewrite m_seq.
  apply (leads_alt_l _ _ s1 (skip s1 (c_int c ++ 46%N :: c_frac c) r)).
  { apply decimal_leads; [reflexivity | exact Hc | exact Hs]. }
  cbn beta. rewrite E2.
  change (Opt (Chr cls_exp_mark;; Opt (Chr cls_exp_sign);; Plus (Chr (cls_digit fl))))
    with (Alt (exponent fl) Eps).
  rewrite m_alt, Hexp. exact Hk.
Qed.

Lemma digit_run_prefix : forall ds int x v,
  ds ++ x = int ++ 46%N :: v -> all_in (cls_digit fl) ds -> all_in ascii_digit int ->
  exists l, x = l ++ 46%N :: v /\ all_in ascii_digit l.
Proof.
  induction ds as [|d ds IH]; intros int x v E Hds Hint.
  - exists int. split; [exact E | exact Hint].
  - inversion Hds as [|? ? Hd Hds']; subst. destruct int as [|i int]; cbn [app] in E.
    + inversion E; subst. rewrite low_is_no_digit in Hd; [discriminate | lia | reflexivity].
    + inversion E; subst. inversion Hint; subst. eapply IH; eassumption.
Qed.

(** Between two coordinates the exponent finds nothing that a separator
    could follow: the blank it takes for the mark is followed by the next
    coordinate, whose digits end at its point. *)
Lemma exponent_blocked s s' sep c u :
  rest s = sep ++ coordinate_text c ++ u -> separator sep -> coordinate_ok c ->
  Matches (exponent fl) s s' -> stops cls_blank (rest s').
Proof.
  intros Hr [Hsep Hne] (Hsg & Hint & _) M. unfold exponent in M.
  apply Matches_Seq_inv in M. destruct M as (s1 & M1 & M).
  apply Matches_Seq_inv in M. destruct M as (s2 & M2 & M3).
  apply Matches_Chr_inv in M1. destruct M1 as (e & He & [_ R1] & _).
  apply Matches_Opt_Chr_inv in M2. destruct M2 as (sg & Hopt & [_ R2]).
  apply Matches_Plus_Chr_inv in M3. destruct M3 as (ds & Hdne & Hds & [_ R3] & _).
  rewrite R2, R3 in R1. rewrite Hr in R1. clear R2 R3 Hr.
  destruct sep as [|b sep]; [congruence|]. inversion Hsep as [|? ? Hb Hsep']; subst.
  cbn [app] in R1. inversion R1 as [[Eb R]]. clear R1.
  destruct ds as [|d ds]; [congruence|]. inversion Hds as [|? ? Hd Hds']; subst.
  assert (Hdb : forall h, cls_blank h = true -> cls_digit fl h = false).
  { intros h Hh. apply low_is_no_digit;
      destruct (blank_cases h Hh) as [ -> | -> ]; try reflexivity; lia. }
  assert (Hsb : forall h, cls_blank h = true -> cls_exp_sign h = false).
  { intros h Hh. destruct (blank_cases h Hh) as [ -> | -> ]; reflexivity. }
  assert (Hfin : forall x, (d :: ds) ++ x = c_int c ++ 46%N :: c_frac c ++ u ->
                           stops cls_blank x).
  { intros x E.
    destruct (digit_run_prefix (d :: ds) (c_int c) x (c_frac c ++ u) E Hds Hint)
      as (l & -> & Hl).
    destruct l as [|h l]; [reflexivity|]. inversion Hl; subst. cbn.
    apply plain_no_blank. unfold plain. tauto. }
  destruct sep as [|b2 sep].
  - cbn [app] in R. unfold coordinate_text in R. rewrite <- ?app_assoc in R.
    destruct Hopt as [ -> | (c0 & -> & Hc0)]; cbn [app] in R.
    + destruct Hsg as [ E | [ E | E ] ]; rewrite E in R; cbn [app] in R.
      * apply Hfin. symmetry. exact R.
      * inversion R; subst. rewrite low_is_no_digit in Hd; [discriminate | lia | reflexivity].
      * inversion R; subst. rewrite low_is_no_digit in Hd; [discriminate | lia | reflexivity].
    + destruct Hsg as [ E | [ E | E ] ]; rewrite E in R; cbn [app] in R.
      * destruct (c_int c) as [|i int]; cbn [app] in R; inversion R; subst.
        -- discriminate Hc0.
        -- inversion Hint; subst. exfalso.
           unfold cls_exp_sign, ascii_digit, in_range in *. class_facts; lia.
      * inversion R as [[E0 R']]. apply Hfin. symmetry. exact R'.
      * inversion R as [[E0 R']]. apply Hfin. symmetry. exact R'.
  - inversion Hsep' as [|? ? Hb2 _]; subst. cbn [app] in R.
    destruct Hopt as [ -> | (c0 & -> & Hc0)]; cbn [app] in R; inversion R; subst.
    + rewrite (Hdb _ Hb2) in Hd. discriminate.
    + rewrite (Hsb _ Hb2) in Hc0. discriminate.
Qed.

(** A coordinate with its separator, and the rest of the pattern after
    them. *)
Lemma coordinate_then_leads name R st c sep c' u final :
  rest st = coordinate_text c ++ sep ++ coordinate_text c' ++ u ->
  coordinate_ok c -> separator sep -> coordinate_ok c' ->
  leads R (skip (with_group name (coordinate_text c)
                   (skip st (coordinate_text c) (sep ++ coordinate_text c' ++ u)))
                sep (coordinate_text c' ++ u)) final ->
  leads (Grp name (pos_number fl) ;; Plus (Chr cls_blank) ;; R)%re st final.
Proof.
  intros Hr Hc Hsep Hc' HR k x Hk.
  rewrite m_seq, m_grp.
  apply (pos_number_path st c (sep ++ coordinate_text c' ++ u)).
  - exact Hr.
  - exact Hc.
  - apply separator_stops_digit. exact Hsep.
  - apply m_fails_sound. intros s' M.
    apply (fails_seq (Plus (Chr cls_blank)) R). apply fails_plus_chr.
    change (rest (close_group name st s')) with (rest s').
    exact (exponent_blocked (skip st (coordinate_text c) (sep ++ coordinate_text c' ++ u))
             s' sep c' u eq_refl Hsep Hc' M).
  - rewrite close_group_skip.
    refine (leads_seq (Plus (Chr cls_blank)) R _ _ final _ HR k x Hk).
    apply leads_plus_chr; [reflexivity | apply Hsep | apply Hsep|].
    apply coordinate_stops_blank. exact Hc'.
Qed.

(** The last coordinate, at the end of its line. *)
Lemma last_coordinate_leads name st c r :
  rest st = coordinate_text c ++ 10%N :: r -> coordinate_ok c ->
  leads (Grp name (pos_number fl)) st
        (with_group name (coordinate_text c) (skip st (coordinate_text c) (10%N :: r))).
Proof.
  intros Hr Hc k x Hk. rewrite m_grp.
  apply (pos_number_path st c (10%N :: r)).
  - exact Hr.
  - exact Hc.
  - cbn. apply low_is_no_digit; [lia | reflexivity].
  - apply (fails_seq (Chr cls_exp_mark)). apply fails_chr. reflexivity.
  - rewrite close_group_skip. exact Hk.
Qed.

Lemma position_leads st p r :
  rest st = position_text p ++ 10%N :: r -> position_ok p ->
  at_line_start st = true ->
  leads (POS_MATCH_REGEX fl) st (after_position st p (10%N :: r)).
Proof.
  intros Hr (Hlead & Hsym & Hs1 & Hx & Hs2 & Hy & Hs3 & Hz) Hbol.
  unfold position_text in Hr. rewrite <- !app_assoc in Hr.
  set (r8 := 10%N :: r) in *.
  set (r7 := coordinate_text (p_z p) ++ r8) in *.
  set (r6 := p_sep3 p ++ r7) in *.
  set (r5 := coordinate_text (p_y p) ++ r6) in *.
  set (r4 := p_sep2 p ++ r5) in *.
  set (r3 := coordinate_text (p_x p) ++ r4) in *.
  set (r2 := p_sep1 p ++ r3) in *.
  set (r1 := p_sym p ++ r2) in *.
  destruct (symbol_split (p_sym p) r2 Hsym (separator_stops_alnum _ _ Hs1))
    as (w1 & w2 & Esym & Hne1 & Hw1 & Hst1 & Hw2).
  set (s1 := skip st (p_lead p) r1).
  set (s2 := with_group "sym" (p_sym p) (skip s1 (p_sym p) r2)).
  set (s3 := skip s2 (p_sep1 p) r3).
  set (s4 := skip (with_group "x" (coordinate_text (p_x p))
                     (skip s3 (coordinate_text (p_x p)) r4)) (p_sep2 p) r5).
  set (s5 := skip (with_group "y" (coordinate_text (p_y p))
                     (skip s4 (coordinate_text (p_y p)) r6)) (p_sep3 p) r7).
  apply (leads_eq _ _ (with_group "z" (coordinate_text (p_z p))
                         (skip s5 (coordinate_text (p_z p)) r8)));
    [|unfold after_position, position_text; subst s5 s4 s3 s2 s1; state_eq].
  unfold POS_MATCH_REGEX.
  apply (leads_seq _ _ st st); [apply leads_bol; exact Hbol|].
  apply (leads_seq _ _ st s1).
  { apply leads_star_chr; [exact Hr | exact Hlead|]. subst r1.
    destruct (symbol_head (p_sym p) r2 Hsym) as (h & t & -> & Hh).
    cbn. apply plain_no_blank. left. exact Hh. }
  apply (leads_seq _ _ s1 s2).
  { apply leads_grp.
    apply (leads_eq _ _ (skip (skip s1 w1 (w2 ++ r2)) w2 r2));
      [|rewrite skip_skip, <- Esym; reflexivity].
    apply (leads_seq _ _ s1 (skip s1 w1 (w2 ++ r2))).
    - apply leads_plus_chr; [|exact Hw1 | exact Hne1 | exact Hst1].
      subst s1 r1. cbn [skip rest]. rewrite Esym, <- app_assoc. reflexivity.
    - apply leads_star_chr; [reflexivity | exact Hw2|].
      apply separator_stops_alnum. exact Hs1. }
  apply (leads_seq _ _ s2 s3).
  { apply leads_plus_chr; [reflexivity | apply all_space_of_blank; apply Hs1 | apply Hs1|].
    apply coordinate_stops_space. exact Hx. }
  apply (coordinate_then_leads "x" _ s3 (p_x p) (p_sep2 p) (p_y p) r6);
    [reflexivity | exact Hx | exact Hs2 | exact Hy|].
  fold r5 r4 s4.
  apply (coordinate_then_leads "y" _ s4 (p_y p) (p_sep3 p) (p_z p) r8);
    [reflexivity | exact Hy | exact Hs3 | exact Hz|].
  fold r7 r6 s5.
  apply last_coordinate_leads; [reflexivity | exact Hz].
Qed.

End PositionPath.

(** ** Scanning a text for matches *)

Section Scanning.
Variable r : regex.
Variable s : list char.

Hypothesis r_consumes : forall st st',
  m r st Some = Some st' -> length (rest st') < length (rest st).

(** Fuel beyond the length of the text left changes nothing. *)
Lemma finditer_from_fuel : forall f1 f2 p,
  p <= length s -> length s - p < f1 -> length s - p < f2 ->
  finditer_from r f1 (state_at s p) = finditer_from r f2 (state_at s p).
Proof.
  induction f1 as [|f1 IH]; intros f2 p Hp H1 H2; [lia|].
  destruct f2 as [|f2]; [lia|].
  rewrite !(finditer_from_step r s r_consumes) by assumption.
  destruct (m r (state_at s p) Some) as [st'|] eqn:Em.
  - apply (found_end r r_consumes) in Em. destruct Em as (W & Hlt & Hle).
    rewrite state_at_whole in Hle. rewrite state_at_before in Hlt by assumption.
    f_equal. apply IH; lia.
  - destruct (Nat.ltb_spec p (length s)); [|reflexivity]. apply IH; lia.
Qed.

Lemma scan_found p st' :
  p <= length s -> m r (state_at s p) Some = Some st' ->
  scan r s p = match_of (state_at s p) st' :: scan r s (length (before st')).
Proof.
  intros Hp Em. unfold scan. rewrite (finditer_from_step r s r_consumes) by assumption.
  rewrite Em. f_equal.
  apply (found_end r r_consumes) in Em. destruct Em as (W & Hlt & Hle).
  rewrite state_at_whole in Hle. rewrite state_at_before in Hlt by assumption.
  apply finditer_from_fuel; lia.
Qed.

Lemma scan_none p :
  p < length s -> m r (state_at s p) Some = None -> scan r s p = scan r s (S p).
Proof.
  intros Hp Em. unfold scan. rewrite (finditer_from_step r s r_consumes) by lia.
  rewrite Em. apply Nat.ltb_lt in Hp. rewrite Hp. apply Nat.ltb_lt in Hp.
  apply finditer_from_fuel; lia.
Qed.

Lemma scan_end : scan r s (length s) = [].
Proof.
  unfold scan. rewrite (finditer_from_step r s r_consumes) by lia.
  destruct (m r (state_at s (length s)) Some) as [st'|] eqn:Em.
  - apply r_consumes in Em. cbn [state_at rest] in Em. rewrite skipn_all in Em.
    cbn in Em. lia.
  - rewrite Nat.ltb_irrefl. reflexivity.
Qed.

Lemma scan_skip : forall n p,
  p + n <= length s ->
  (forall q, p <= q < p + n -> m r (state_at s q) Some = None) ->
  scan r s p = scan r s (p + n).
Proof.
  induction n as [|n IH]; intros p Hp Hq.
  - rewrite Nat.add_0_r. reflexivity.
  - rewrite scan_none; [|lia | apply Hq; lia].
    rewrite (IH (S p)); [f_equal; lia | lia|]. intros q Hq'. apply Hq. lia.
Qed.

Lemma finditer_scan : finditer r s = scan r s 0.
Proof. unfold finditer, scan. rewrite Nat.sub_0_r. reflexivity. Qed.

End Scanning.

Lemma state_at_app pre post :
  state_at (pre ++ post) (length pre) = {| before := rev pre; rest := post; groups := [] |}.
Proof.
  unfold state_at. rewrite firstn_app, Nat.sub_diag, firstn_all, firstn_0, app_nil_r.
  rewrite skipn_app, Nat.sub_diag, skipn_all. reflexivity.
Qed.

Lemma line_end_start pre post :
  line_end pre -> at_line_start (state_at (pre ++ post) (length pre)) = true.
Proof.
  intros H. rewrite state_at_app. unfold at_line_start. cbn [before].
  destruct H as [ -> | [pre' ->] ]; [reflexivity|].
  rewrite rev_app_distr. reflexivity.
Qed.

(** No line starts inside a line. *)
Lemma inside_no_line_start pre u post j :
  Forall (fun c => c <> 10%N) u -> 1 <= j <= length u ->
  at_line_start (state_at (pre ++ u ++ post) (length pre + j)) = false.
Proof.
  intros Hu Hj. unfold at_line_start, state_at. cbn [before].
  rewrite firstn_app, firstn_all2 by lia.
  replace (length pre + j - length pre) with j by lia.
  rewrite firstn_app, (proj2 (Nat.sub_0_le j (length u))) by lia.
  cbn [firstn]. rewrite app_nil_r.
  assert (Hne : firstn j u <> []).
  { intros E. apply (f_equal (@length _)) in E. rewrite length_firstn in E. cbn in E. lia. }
  destruct (exists_last Hne) as (w & d & E). rewrite E.
  rewrite rev_app_distr, rev_app_distr. cbn [rev app].
  apply N.eqb_neq. rewrite Forall_forall in Hu. apply Hu.
  rewrite <- (firstn_skipn j u), E. apply in_or_app. left.
  apply in_or_app. right. left. reflexivity.
Qed.

(** ** What [finditer] finds in well-formed text *)

Lemma line_text_last l : exists w, line_text l = w ++ [10%N].
Proof.
  destruct l as [p|t|ws]; cbn [line_text].
  - exists (position_text p). reflexivity.
  - exists (35%N :: t). reflexivity.
  - exists ws. reflexivity.
Qed.

Lemma lines_text_last : forall ls, ls <> [] -> exists w, lines_text ls = w ++ [10%N].
Proof.
  induction ls as [|l ls IH]; intros Hne; [congruence|].
  change (lines_text (l :: ls)) with (line_text l ++ lines_text ls).
  destruct ls as [|l' ls].
  - destruct (line_text_last l) as [w E]. exists w. cbn. rewrite app_nil_r. exact E.
  - destruct (IH ltac:(discriminate)) as [w E]. exists (line_text l ++ w).
    rewrite E, app_assoc. reflexivity.
Qed.

Lemma line_end_app pre w : line_end (pre ++ w ++ [10%N]).
Proof. right. exists (pre ++ w). rewrite app_assoc. reflexivity. Qed.

Lemma line_end_frame pre f : frame_ok f -> line_end (pre ++ frame_text f).
Proof.
  intros (_ & _ & _ & Hne & _). destruct (lines_text_last (f_lines f) Hne) as [w E].
  unfold frame_text. rewrite E.
  replace (f_count f ++ 10%N :: f_comment f ++ 10%N :: w ++ [10%N])
    with ((f_count f ++ 10%N :: f_comment f ++ 10%N :: w) ++ [10%N])
    by (rewrite <- !app_assoc; cbn [app]; rewrite <- !app_assoc; reflexivity).
  apply line_end_app.
Qed.

Lemma frames_count_ahead fs :
  Forall frame_ok fs -> count_ahead (flat_map frame_text fs).
Proof.
  intros H. destruct H as [|f fs (Hne & Hd & _) _]; [exact I|].
  cbn [flat_map]. unfold frame_text. destruct (f_count f) as [|d ds]; [congruence|].
  inversion Hd; subst. assumption.
Qed.

Section Found.
Variable fl : flavour.

(** The frames of a text of well-formed frames, one after the other. *)
Lemma frames_scan : forall fs pre,
  Forall frame_ok fs -> line_end pre ->
  map m_groups (scan (FRAME_MATCH_REGEX fl) (pre ++ flat_map frame_text fs) (length pre))
  = map frame_groups fs.
Proof.
  induction fs as [|f fs IH]; intros pre Hok Hpre.
  - cbn [flat_map map]. rewrite app_nil_r.
    rewrite (scan_end _ _ (frame_consumes fl)). reflexivity.
  - inversion Hok as [|? ? Hf Hfs]; subst. cbn [flat_map map].
    set (R := flat_map frame_text fs).
    set (s := pre ++ frame_text f ++ R).
    assert (Est : state_at s (length pre)
                  = {| before := rev pre; rest := frame_text f ++ R; groups := [] |})
      by apply state_at_app.
    assert (Em : m (FRAME_MATCH_REGEX fl) (state_at s (length pre)) Some
                 = Some (after_frame (state_at s (length pre)) f R)).
    { apply (frame_leads fl (state_at s (length pre)) f R Hf).
      - rewrite Est. reflexivity.
      - apply line_end_start. exact Hpre.
      - apply frames_count_ahead. exact Hfs.
      - reflexivity. }
    assert (Hp : length pre <= length s) by (subst s; len_solve).
    rewrite (scan_found _ _ (frame_consumes fl) _ _ Hp Em).
    cbn [map]. apply (f_equal2 cons).
    + rewrite Est. reflexivity.
    + replace (length (before (after_frame (state_at s (length pre)) f R)))
        with (length (pre ++ frame_text f))
        by (rewrite Est; cbn [after_frame before]; rewrite !length_app, !length_rev; lia).
      subst s. rewrite app_assoc. apply IH; [exact Hfs | apply line_end_frame; exact Hf].
Qed.

Lemma fails_bol st : at_line_start st = false -> fails Bol st.
Proof. intros H k. cbn [m]. rewrite H. reflexivity. Qed.

Lemma off_line_no_position st :
  at_line_start st = false -> m (POS_MATCH_REGEX fl) st Some = None.
Proof.
  intros H. unfold POS_MATCH_REGEX. apply (fails_seq Bol). apply fails_bol. exact H.
Qed.

(** A position line starts a line, with blanks and a letter. *)
Lemma pos_start st st' :
  Matches (POS_MATCH_REGEX fl) st st' ->
  exists lead c t, rest st = lead ++ c :: t /\ all_in cls_blank lead /\ cls_alpha c = true.
Proof.
  intros H. unfold POS_MATCH_REGEX in H.
  apply Matches_Seq_inv in H. destruct H as (s1 & M1 & H).
  apply Matches_Bol_inv in M1. destruct M1 as [-> _].
  apply Matches_Seq_inv in H. destruct H as (s2 & M2 & H).
  apply Matches_Star_Chr_inv in M2. destruct M2 as (lead & Hlead & [_ R2] & _).
  apply Matches_Seq_inv in H. destruct H as (s3 & M3 & _).
  apply Matches_Grp_inv in M3. destruct M3 as (t3 & M3 & _).
  apply Matches_Seq_inv in M3. destruct M3 as (s4 & M4 & _).
  apply Matches_Plus_Chr_inv in M4. destruct M4 as (w & Hne & Hw & [_ R4] & _).
  destruct w as [|c w]; [congruence|]. inversion Hw; subst.
  exists lead, c, (w ++ rest s4). rewrite R2, R4. repeat split; assumption.
Qed.

(** A line that is no position line is passed over. *)
Lemma skip_line pre u R :
  Forall (fun c => c <> 10%N) u ->
  (forall lead c t, u ++ 10%N :: R = lead ++ c :: t ->
                    all_in cls_blank lead -> cls_alpha c = true -> False) ->
  scan (POS_MATCH_REGEX fl) (pre ++ u ++ 10%N :: R) (length pre)
  = scan (POS_MATCH_REGEX fl) (pre ++ u ++ 10%N :: R) (length pre + S (length u)).
Proof.
  intros Hu Hno. apply (scan_skip _ _ (pos_consumes fl)); [len_solve|].
  intros q Hq. destruct (Nat.eq_dec q (length pre)) as [ -> | Hneq].
  - apply fails_sound. intros st' M. apply pos_start in M.
    destruct M as (lead & c & t & E & Hlead & Hc).
    rewrite state_at_app in E. cbn [rest] in E. exact (Hno lead c t E Hlead Hc).
  - apply off_line_no_position.
    replace q with (length pre + (q - length pre)) by lia.
    apply inside_no_line_start; [exact Hu | lia].
Qed.

Lemma skip_whole_line pre u R :
  Forall (fun c => c <> 10%N) u ->
  (forall lead c t, u ++ 10%N :: R = lead ++ c :: t ->
                    all_in cls_blank lead -> cls_alpha c = true -> False) ->
  scan (POS_MATCH_REGEX fl) (pre ++ (u ++ [10%N]) ++ R) (length pre)
  = scan (POS_MATCH_REGEX fl) ((pre ++ u ++ [10%N]) ++ R) (length (pre ++ u ++ [10%N])).
Proof.
  intros Hu Hno.
  assert (E1 : pre ++ (u ++ [10%N]) ++ R = pre ++ u ++ 10%N :: R)
    by (rewrite <- !app_assoc; reflexivity).
  assert (E2 : (pre ++ u ++ [10%N]) ++ R = pre ++ u ++ 10%N :: R)
    by (rewrite <- !app_assoc; reflexivity).
  rewrite E1, E2, (skip_line pre u R Hu Hno). f_equal. len_solve.
Qed.

Lemma blank_no_position ws R : forall lead c t,
  all_in cls_blank ws ->
  ws ++ 10%N :: R = lead ++ c :: t -> all_in cls_blank lead -> cls_alpha c = true -> False.
Proof.
  intros lead c t Hws. revert lead. induction Hws as [|b ws Hb _ IH]; intros lead E Hlead Hc.
  - destruct lead as [|l lead]; cbn [app] in E; inversion E; subst.
    + discriminate Hc.
    + inversion Hlead; subst. discriminate.
  - destruct lead as [|l lead]; cbn [app] in E; inversion E; subst.
    + destruct (blank_cases c Hb) as [ -> | -> ]; discriminate Hc.
    + inversion Hlead; subst. eapply IH; eassumption.
Qed.

Lemma blank_no_newline ws : all_in cls_blank ws -> Forall (fun c => c <> 10%N) ws.
Proof.
  apply Forall_impl. intros c H. destruct (blank_cases c H) as [ -> | -> ]; discriminate.
Qed.

Lemma coordinate_no_newline c :
  coordinate_ok c -> Forall (fun c => c <> 10%N) (coordinate_text c).
Proof.
  intros (Hs & Hi & Hf & _). unfold coordinate_text.
  assert (Hd : forall w, all_in ascii_digit w -> Forall (fun c => c <> 10%N) w).
  { apply Forall_impl. intros d H. apply plain_no_newline. unfold plain. tauto. }
  apply Forall_app. split.
  - destruct Hs as [ -> | [ -> | -> ] ]; repeat constructor; discriminate.
  - apply Forall_app. split; [apply Hd; exact Hi|].
    constructor; [discriminate | apply Hd; exact Hf].
Qed.

Lemma position_no_newline p :
  position_ok p -> Forall (fun c => c <> 10%N) (position_text p).
Proof.
  intros (Hlead & (c & t & Es & Hc & Ht) & [Hs1 _] & Hx & [Hs2 _] & Hy & [Hs3 _] & Hz).
  assert (Hsym : Forall (fun c => c <> 10%N) (p_sym p)).
  { rewrite Es. constructor.
    - apply plain_no_newline. left. exact Hc.
    - eapply Forall_impl; [|exact Ht]. intros d Hd. apply plain_no_newline.
      unfold cls_alnum in Hd. apply orb_true_iff in Hd. unfold plain. tauto. }
  unfold position_text.
  apply Forall_app. split; [apply blank_no_newline; exact Hlead|].
  apply Forall_app. split; [exact Hsym|].
  apply Forall_app. split; [apply blank_no_newline; exact Hs1|].
  apply Forall_app. split; [apply coordinate_no_newline; exact Hx|].
  apply Forall_app. split; [apply blank_no_newline; exact Hs2|].
  apply Forall_app. split; [apply coordinate_no_newline; exact Hy|].
  apply Forall_app. split; [apply blank_no_newline; exact Hs3|].
  apply coordinate_no_newline. exact Hz.
Qed.

Lemma position_text_nonempty p : position_ok p -> 1 <= length (position_text p).
Proof.
  intros (_ & (c & t & Es & _) & _). unfold position_text.
  rewrite !length_app, Es. cbn [length]. lia.
Qed.

(** The position lines of a block, one match for each. *)
Lemma lines_scan : forall ls pre,
  Forall line_ok ls -> line_end pre ->
  map m_groups (scan (POS_MATCH_REGEX fl) (pre ++ lines_text ls) (length pre))
  = map position_groups (positions_of ls).
Proof.
  induction ls as [|l ls IH]; intros pre Hok Hpre.
  - cbn [lines_text flat_map positions_of map]. rewrite app_nil_r.
    rewrite (scan_end _ _ (pos_consumes fl)). reflexivity.
  - inversion Hok as [|? ? Hl Hls]; subst.
    change (lines_text (l :: ls)) with (line_text l ++ lines_text ls).
    set (R := lines_text ls).
    destruct l as [p|t|ws]; cbn [line_text line_ok] in *.
    + change (positions_of (Position p :: ls)) with (p :: positions_of ls).
      set (s := pre ++ (position_text p ++ [10%N]) ++ R).
      assert (Es : s = pre ++ position_text p ++ 10%N :: R)
        by (subst s; rewrite <- app_assoc; reflexivity).
      assert (Est : state_at s (length pre)
                    = {| before := rev pre; rest := position_text p ++ 10%N :: R;
                         groups := [] |})
        by (rewrite Es; apply state_at_app).
      assert (Em : m (POS_MATCH_REGEX fl) (state_at s (length pre)) Some
                   = Some (after_position (state_at s (length pre)) p (10%N :: R))).
      { apply (position_leads fl (state_at s (length pre)) p R).
        - rewrite Est. reflexivity.
        - exact Hl.
        - subst s. apply line_end_start. exact Hpre.
        - reflexivity. }
      assert (Hp : length pre <= length s) by (subst s; len_solve).
      rewrite (scan_found _ _ (pos_consumes fl) _ _ Hp Em).
      cbn [map]. apply (f_equal2 cons); [rewrite Est; reflexivity|].
      replace (length (before (after_position (state_at s (length pre)) p (10%N :: R))))
        with (length pre + length (position_text p))
        by (rewrite Est; cbn [after_position before]; rewrite !length_app, !length_rev; lia).
      rewrite (scan_none _ _ (pos_consumes fl));
        [|rewrite Es; len_solve
         |apply off_line_no_position; rewrite Es;
          apply inside_no_line_start;
          [apply position_no_newline; exact Hl
          |pose proof (position_text_nonempty p Hl); unfold char in *; lia]].
      replace (S (length pre + length (position_text p)))
        with (length (pre ++ position_text p ++ [10%N])) by len_solve.
      subst s. rewrite app_assoc. apply IH; [exact Hls | apply line_end_app].
    + change (positions_of (Hash t :: ls)) with (positions_of ls).
      refine (eq_trans (f_equal (map m_groups)
                          (skip_whole_line pre (35%N :: t) R _ _)) _).
      * constructor; [discriminate | exact Hl].
      * intros lead c u E Hlead Hc. destruct lead as [|b lead]; cbn [app] in E;
          inversion E; subst; [discriminate Hc|].
        inversion Hlead; subst. discriminate.
      * apply IH; [exact Hls | apply line_end_app].
    + change (positions_of (Blank ws :: ls)) with (positions_of ls).
      refine (eq_trans (f_equal (map m_groups) (skip_whole_line pre ws R _ _)) _).
      * apply blank_no_newline. exact Hl.
      * intros lead c u. apply blank_no_position. exact Hl.
      * apply IH; [exact Hls | apply line_end_app].
Qed.

End Found.

(** ** From the matches to the records *)

Section Records.
Variable udb : unicode_db.

Lemma take_digits_ascii fl : forall ds r acc n,
  all_in ascii_digit ds -> stops (cls_digit fl) r ->
  take_digits fl (ds ++ r) acc n
  = (fold_left (fun a c => (10 * a + (c - 48))%N) ds acc, n + length ds, r).
Proof.
  induction ds as [|d ds IH]; intros r acc n Hds Hr.
  - cbn [app fold_left length]. rewrite Nat.add_0_r.
    destruct r as [|c t]; [reflexivity|]. cbn in Hr |- *.
    unfold cls_digit in Hr. destruct (digit_value fl c); [discriminate | reflexivity].
  - inversion Hds as [|? ? Hd Hds']; subst. cbn [app take_digits fold_left length].
    rewrite (digit_value_ascii fl d Hd), (IH r _ (S n) Hds' Hr).
    f_equal. f_equal. lia.
Qed.

(** [float] reads a coordinate as the number it denotes. *)
Lemma py_float_coordinate like c :
  coordinate_ok c ->
  py_float udb (retag like (coordinate_text c)) = inr (coordinate_value c).
Proof.
  intros (Hsg & Hint & Hfrac & Hfne).
  set (tok := retag like (coordinate_text c)).
  set (fl := flavour_of udb tok).
  set (step := fun a c => (10 * a + (c - 48))%N).
  set (neg := match c_sign c with s :: _ => (s =? 45)%N | [] => false end).
  assert (H1 : take_sign (text_chars tok) = (neg, c_int c ++ 46%N :: c_frac c)).
  { subst tok neg. rewrite text_chars_retag. unfold coordinate_text.
    destruct Hsg as [ -> | [ -> | -> ] ]; cbn [app]; [|reflexivity|reflexivity].
    destruct (c_int c) as [|d ds]; cbn [app]; [reflexivity|].
    inversion Hint as [|? ? Hd _]; subst. unfold take_sign.
    destruct (N.eqb_spec d 45) as [ -> |_]; [discriminate Hd|].
    destruct (N.eqb_spec d 43) as [ -> |_]; [discriminate Hd | reflexivity]. }
  assert (H2 : take_digits fl (c_int c ++ 46%N :: c_frac c) 0%N 0
               = (fold_left step (c_int c) 0%N, 0 + length (c_int c), 46%N :: c_frac c)).
  { apply take_digits_ascii; [exact Hint|]. cbn.
    apply low_is_no_digit; [lia | reflexivity]. }
  assert (H3 : match 46%N :: c_frac c with
               | ch :: t => if (ch =? 46)%N
                            then take_digits fl t (fold_left step (c_int c) 0%N) 0
                            else (fold_left step (c_int c) 0%N, 0, 46%N :: c_frac c)
               | [] => (fold_left step (c_int c) 0%N, 0, 46%N :: c_frac c)
               end
               = (fold_left step (c_frac c) (fold_left step (c_int c) 0%N),
                  0 + length (c_frac c), [])).
  { rewrite N.eqb_refl. rewrite <- (app_nil_r (c_frac c)) at 1.
    apply take_digits_ascii; [exact Hfrac | exact I]. }
  rewrite (py_float_stages udb tok _ _ _ _ _ _ _ _ H1 H2 H3).
  destruct (c_frac c) as [|d ds] eqn:Ef; [congruence|].
  replace (0 + length (c_int c) + (0 + length (d :: ds)) =? 0) with false
    by (symmetry; apply Nat.eqb_neq; cbn; lia).
  unfold coordinate_value, digits_value. rewrite Ef, fold_left_app. reflexivity.
Qed.

(** The entry of a match of a position line. *)
Lemma entry_position text mt p :
  m_groups mt = position_groups p -> position_ok p ->
  entry udb (mk_match text mt) = inr (position_entry p).
Proof.
  intros Hg (_ & _ & _ & Hx & _ & Hy & _ & Hz).
  unfold entry, mo_group, group, mk_match. cbn [mo_text mo_match]. rewrite Hg.
  change (assoc "x" (position_groups p)) with (coordinate_text (p_x p)).
  change (assoc "y" (position_groups p)) with (coordinate_text (p_y p)).
  change (assoc "z" (position_groups p)) with (coordinate_text (p_z p)).
  change (assoc "sym" (position_groups p)) with (p_sym p).
  rewrite !py_float_coordinate by assumption. reflexivity.
Qed.

Lemma entries_positions text : forall mts ps,
  map m_groups mts = map position_groups ps -> Forall position_ok ps ->
  Forall2 (fun mo a => entry udb mo = inr a)
          (map (mk_match text) mts) (map position_entry ps).
Proof.
  induction mts as [|mt mts IH]; intros ps E Hok; destruct ps as [|p ps];
    try discriminate E; [constructor|].
  cbn [map] in *. inversion E. inversion Hok; subst.
  constructor; [apply entry_position; assumption | apply IH; assumption].
Qed.

Lemma positions_ok : forall ls, Forall line_ok ls -> Forall position_ok (positions_of ls).
Proof.
  induction ls as [|l ls IH]; intros H; [constructor|].
  inversion H as [|? ? Hl Hls]; subst.
  destruct l as [p|t|ws]; cbn [positions_of flat_map app];
    [constructor; [exact Hl|]|..]; apply IH; exact Hls.
Qed.

Lemma drain_spec_entries : forall ms l n c,
  Forall2 (fun mo a => entry udb mo = inr a) ms l ->
  (c + N.of_nat (length ms) = n)%N ->
  drain_spec udb ms n c = inr l.
Proof.
  induction ms as [|mo ms IH]; intros l n c H; inversion H as [|? a ? l' Ha Hl]; subst;
    intros Hn; subst n; cbn [drain_spec length].
  - destruct (N.eqb_spec c (c + N.of_nat 0)); [reflexivity | lia].
  - destruct (N.ltb_spec (c + N.of_nat (S (length ms))) (c + 1)); [lia|].
    rewrite Ha, (IH l' _ (c + 1)%N Hl) by lia. reflexivity.
Qed.

(** The matches of the position pattern in a block of lines. *)
Lemma position_matches ls :
  Forall line_ok ls ->
  Forall2 (fun mo a => entry udb mo = inr a)
          (py_finditer udb POS_MATCH_REGEX (PyStr (lines_text ls)))
          (map position_entry (positions_of ls)).
Proof.
  intros Hok. unfold py_finditer. cbn [text_chars].
  apply (entries_positions (lines_text ls)); [|apply positions_ok; exact Hok].
  rewrite finditer_scan.
  exact (lines_scan _ ls [] Hok (or_introl eq_refl)).
Qed.

Lemma str_frame_groups text mt f :
  m_groups mt = frame_groups f -> str_frame udb (mk_match text mt) = yielded udb f.
Proof.
  intros Hg. unfold str_frame, yielded, mo_group, group, mk_match.
  cbn [mo_text mo_match retag]. rewrite Hg. reflexivity.
Qed.

Lemma frames_yielded text : forall mts fs,
  map m_groups mts = map frame_groups fs ->
  map (str_frame udb) (map (mk_match text) mts) = map (yielded udb) fs.
Proof.
  induction mts as [|mt mts IH]; intros fs E; destruct fs as [|f fs];
    try discriminate E; [reflexivity|].
  cbn [map] in *. inversion E.
  rewrite (str_frame_groups text mt f), (IH fs) by assumption. reflexivity.
Qed.

Lemma parse_iter_well_formed fs :
  Forall frame_ok fs ->
  parse_iter udb (InStr (flat_map frame_text fs)) = (map (yielded udb) fs, None).
Proof.
  intros Hok. rewrite parse_iter_str. f_equal.
  unfold py_finditer. cbn [text_chars].
  apply (frames_yielded (flat_map frame_text fs)).
  rewrite finditer_scan.
  exact (frames_scan _ fs [] Hok (or_introl eq_refl)).
Qed.

Lemma yielded_list f :
  frame_ok f -> counted f ->
  py_list udb (frame_atoms (yielded udb f))
  = Some (inr (map position_entry (positions_of (f_lines f)))).
Proof.
  intros (_ & _ & _ & _ & Hok) Hc.
  rewrite (py_list_fresh udb (yielded udb f) eq_refl). f_equal.
  apply drain_spec_entries; [apply position_matches; exact Hok|].
  pose proof (Forall2_same_length _ _ _ _ _ (position_matches (f_lines f) Hok)) as Hlen.
  rewrite length_map in Hlen.
  change (_it (frame_atoms (yielded udb f)))
    with (py_finditer udb POS_MATCH_REGEX (PyStr (lines_text (f_lines f)))).
  rewrite Hlen. unfold counted in Hc. cbn [frame_natoms yielded fst]. lia.
Qed.

Lemma comprehend_well_formed : forall fs,
  Forall frame_ok fs -> Forall counted fs ->
  comprehend udb (map (yielded udb) fs) None = Some (inr (map expected fs)).
Proof.
  induction fs as [|f fs IH]; intros Hok Hc; [reflexivity|].
  inversion Hok; subst. inversion Hc; subst. cbn [map].
  rewrite comprehend_cons, yielded_list, IH by assumption. reflexivity.
Qed.

End Records.

(** X10.  Text made of well-formed frames (a count line of digits, a
    comment line, and a block of position lines, lines commented out with
    [#] and blank lines) whose counts tell their numbers of position lines is
    parsed as written: [parse] returns one record for each frame, in order,
    with the count, the comment, and for each position line its symbol and
    the numbers its three coordinates denote.  The lines commented out and
    the blank lines leave no trace. *)
Theorem well_formed_text_parses (udb : unicode_db) (fs : list xyz_frame) :
  Forall frame_ok fs -> Forall counted fs ->
  parse udb (InStr (flat_map frame_text fs)) = Some (inr (map expected fs)).
Proof.
  intros Hok Hc. unfold parse. rewrite (parse_iter_well_formed udb fs Hok).
  apply comprehend_well_formed; assumption.
Qed.

(** X11.  Whatever their count lines say, the frame generator finds every
    well-formed frame of the text, in order and nothing else: each frame
    yielded has the count and the comment of its frame, and its iterator
    holds one match for each position line, which converts to the entry of
    that line; lines commented out and blank lines give no match. *)
Theorem well_formed_frames_found (udb : unicode_db) (fs : list xyz_frame) :
  Forall frame_ok fs ->
  snd (parse_iter udb (InStr (flat_map frame_text fs))) = None
  /\ Forall2 (fun fr f =>
                frame_natoms fr = digits_value (f_count f)
                /\ frame_comment fr = PyStr (f_comment f)
                /\ Forall2 (fun mo p => entry udb mo = inr (position_entry p))
                           (_it (frame_atoms fr)) (positions_of (f_lines f)))
             (fst (parse_iter udb (InStr (flat_map frame_text fs)))) fs.
Proof.
  intros Hok. rewrite (parse_iter_well_formed udb fs Hok). cbn [fst snd].
  split; [reflexivity|].
  induction Hok as [|f fs Hf _ IH]; cbn [map]; constructor; [|exact IH].
  split; [reflexivity|]. split; [reflexivity|].
  destruct Hf as (_ & _ & _ & _ & Hl).
  pose proof (position_matches udb (f_lines f) Hl) as H.
  change (_it (frame_atoms (yielded udb f)))
    with (py_finditer udb POS_MATCH_REGEX (PyStr (lines_text (f_lines f)))).
  revert H. generalize (py_finditer udb POS_MATCH_REGEX (PyStr (lines_text (f_lines f)))).
  generalize (positions_of (f_lines f)).
  induction l as [|p ps IHp]; intros ms H; inversion H; subst; constructor; auto.
Qed.

(** ** The properties above on concrete inputs *)

Lemma iterator_counts_consumed_witness :
  fst (pull ascii_only 3 (frame_atoms (first_frame ascii_only too_many_input)))
  = {| _it := []; _natoms := 1; _catom := 2 |}.
Proof.
  pose proof (iterator_counts_consumed ascii_only too_many_input
                (first_frame ascii_only too_many_input) 3) as H.
  vm_compute in H. vm_compute.
  exact (H (or_introl eq_refl)).
Defined.

Lemma overshoot_is_final_witness :
  Forall (fun o => is_count_mismatch o = true)
         (skipn 1 (snd (pull ascii_only 3
                          (frame_atoms (first_frame ascii_only too_many_input)))))
  /\ snd (__next__ ascii_only
            (fst (pull ascii_only 2 (frame_atoms (first_frame ascii_only too_many_input)))))
     = Raise (TypeError_smaller 2 1).
Proof.
  pose proof (overshoot_is_final ascii_only too_many_input
                (first_frame ascii_only too_many_input) 2) as H.
  vm_compute in H. vm_compute.
  exact (H (or_introl eq_refl) eq_refl).
Defined.

Lemma drained_stays_drained_witness :
  snd (pull ascii_only 2
         (fst (pull ascii_only 1 (frame_atoms (first_frame ascii_only too_few_input)))))
  = [Raise (TypeError_smaller 1 2); Raise (TypeError_smaller 1 2)].
Proof.
  pose proof (drained_stays_drained ascii_only too_few_input
                (first_frame ascii_only too_few_input) 2) as H.
  vm_compute in H. vm_compute.
  exact (f_equal snd (H (or_introl eq_refl))).
Defined.

Lemma list_returns_witness :
  py_list ascii_only (frame_atoms (first_frame ascii_only (InStr one_atom_text)))
  = Some (inr [(PyStr (codes "C"), (0%Q, 0%Q, 0%Q))]).
Proof.
  pose proof (list_returns_iff_count_right ascii_only (InStr one_atom_text)
                (first_frame ascii_only (InStr one_atom_text))
                [(PyStr (codes "C"), (0%Q, 0%Q, 0%Q))]) as H.
  vm_compute in H. vm_compute.
  apply (H (or_introl eq_refl)).
  split; [reflexivity|]. constructor; [reflexivity | constructor].
Defined.

Lemma parse_result_consistent_witness :
  Forall (fun r => N.of_nat (length (atoms r)) = natoms r)
         [ {| natoms := 1; comment := PyStr (codes "c");
              atoms := [(PyStr (codes "C"), (0%Q, 0%Q, 0%Q))] |} ].
Proof.
  pose proof (parse_result_consistent ascii_only (InStr one_atom_text)
                [ {| natoms := 1; comment := PyStr (codes "c");
                     atoms := [(PyStr (codes "C"), (0%Q, 0%Q, 0%Q))] |} ]) as H.
  vm_compute in H. vm_compute.
  exact (proj2 (proj2 (H eq_refl))).
Defined.

Lemma symbols_keep_input_kind_witness :
  Forall (fun r =>
            is_str (comment r) = true
            /\ Forall (fun a => symbol_ok (text_chars (fst a)) /\ is_str (fst a) = false)
                      (atoms r))
         [ {| natoms := 1; comment := PyStr (codes "c");
              atoms := [(PyBytes (codes "C"), (0%Q, 0%Q, 0%Q))] |} ].
Proof.
  pose proof (symbols_keep_input_kind ascii_only (InBytes one_atom_text)
                [ {| natoms := 1; comment := PyStr (codes "c");
                     atoms := [(PyBytes (codes "C"), (0%Q, 0%Q, 0%Q))] |} ]) as H.
  vm_compute in H. vm_compute.
  exact (H eq_refl).
Defined.

Lemma entry_converts_witness :
  converts ascii_only
    (nth 0 (py_finditer ascii_only POS_MATCH_REGEX (PyStr (unlines ["C -1.5 0.25 2."])))
         {| mo_text := PyStr []; mo_match := no_match |}).
Proof.
  pose proof (entry_converts_iff_no_bar_no_blank ascii_only
                (PyStr (unlines ["C -1.5 0.25 2."]))
                (nth 0 (py_finditer ascii_only POS_MATCH_REGEX
                          (PyStr (unlines ["C -1.5 0.25 2."])))
                     {| mo_text := PyStr []; mo_match := no_match |})) as H.
  apply (H ltac:(vm_compute; left; reflexivity)).
  vm_compute. repeat split; repeat constructor; discriminate.
Defined.
